(** * Contact Data Cleaner: the extraction, validation and deduplication core

    A shallow embedding of [app.py].  Python values that the core handles are
    strings, [None], dictionaries with string keys, lists and a set of
    strings.  A [str] is modelled as a [string]; the character tables used by
    [str.strip], [str.lower], [str.upper], [str.capitalize] and by the regular
    expression classes [\w] and [\s] are those of the ASCII range, and a
    character above 127 is taken as a caseless symbol that is neither blank
    nor a word character.

    Code that can raise runs in the [outcome] monad; a [try]/[except
    Exception] block is [try_except]. *)

From Stdlib Require Import ZArith NArith Ascii String List Bool Lia.
From stdpp Require Import base option list gmap sets strings.

Open Scope string_scope.

(** ** Exceptions *)

Inductive exn : Type :=
| AttributeError
| IndexError
| KeyError
| ValueError
| TypeError.

Inductive outcome (A : Type) : Type :=
| Ret (a : A)
| Raise (e : exn).
Arguments Ret {A} a.
Arguments Raise {A} e.

Global Instance outcome_ret : MRet outcome := fun A a => Ret a.
Global Instance outcome_bind : MBind outcome := fun A B f m =>
  match m with
  | Ret a => f a
  | Raise e => Raise e
  end.

(** [try: body  except Exception: handler] *)
Definition try_except {A} (body : outcome A) (handler : outcome A) : outcome A :=
  match body with
  | Ret a => Ret a
  | Raise _ => handler
  end.

(** ** Python values *)

(** [PyObj r] is any object that is neither [None], a [bool] nor a [str]
    (a number, a header object, ...); [r] is what [str(obj)] gives, [None]
    when its [__str__] raises. *)
Inductive pyval : Type :=
| PyNone
| PyBool (b : bool)
| PyStr (s : string)
| PyObj (r : option string).

Global Instance pyval_eq_dec : EqDecision pyval.
Proof. solve_decision. Defined.

(** The name [dict] would be a type alias; the map type is written out so
    that the map lemmas apply as they are. *)
Abbreviation dict := (gmap string pyval).

(** ** [str] primitives *)

Module Str.

Definition code (c : ascii) : N := N_of_ascii c.

Definition between (lo hi : N) (c : ascii) : bool :=
  ((lo <=? code c) && (code c <=? hi))%N.

(** [str.isspace] on one character: TAB..CR, FS..US and the space. *)
Definition is_space (c : ascii) : bool :=
  between 9 13 c || between 28 32 c.

Definition is_upper (c : ascii) : bool := between 65 90 c.
Definition is_lower (c : ascii) : bool := between 97 122 c.
Definition is_digit (c : ascii) : bool := between 48 57 c.

(** The class [\w] of [re]: letters, digits and the underscore. *)
Definition is_word (c : ascii) : bool :=
  is_upper c || is_lower c || is_digit c || (code c =? 95)%N.

Definition lower_char (c : ascii) : ascii :=
  if is_upper c then ascii_of_N (code c + 32) else c.

Definition upper_char (c : ascii) : ascii :=
  if is_lower c then ascii_of_N (code c - 32) else c.

Fixpoint map (f : ascii -> ascii) (s : string) : string :=
  match s with
  | EmptyString => EmptyString
  | String c r => String (f c) (map f r)
  end.

(** [s.lower()], [s.upper()] *)
Definition lower (s : string) : string := map lower_char s.
Definition upper (s : string) : string := map upper_char s.

(** [s.capitalize()] *)
Definition capitalize (s : string) : string :=
  match s with
  | EmptyString => EmptyString
  | String c r => String (upper_char c) (lower r)
  end.

(** [bool(s)]: a string is true when it is not empty. *)
Definition truthy (s : string) : bool :=
  match s with
  | EmptyString => false
  | String _ _ => true
  end.

Fixpoint lstrip (s : string) : string :=
  match s with
  | EmptyString => EmptyString
  | String c r => if is_space c then lstrip r else s
  end.

Fixpoint rstrip (s : string) : string :=
  match s with
  | EmptyString => EmptyString
  | String c r =>
      let r' := rstrip r in
      if is_space c && negb (truthy r') then EmptyString else String c r'
  end.

(** [s.strip()] *)
Definition strip (s : string) : string := rstrip (lstrip s).

(** [p in s] *)
Fixpoint contains (p s : string) : bool :=
  String.prefix p s ||
  match s with
  | EmptyString => false
  | String _ r => contains p r
  end.

(** [s.startswith(p)] *)
Definition startswith (s p : string) : bool := String.prefix p s.

(** [s.split(sep)] for a separator of one character. *)
Fixpoint split (sep : ascii) (s : string) : list string :=
  match s with
  | EmptyString => [EmptyString]
  | String c r =>
      if Ascii.eqb c sep then EmptyString :: split sep r
      else match split sep r with
           | h :: t => String c h :: t
           | [] => [String c EmptyString]
           end
  end.

(** [s.split()]: the maximal runs of characters that are not blank. *)
Fixpoint words (s : string) : list string :=
  match s with
  | EmptyString => []
  | String c r =>
      if is_space c then words r
      else match r with
           | EmptyString => [String c EmptyString]
           | String c' _ =>
               if is_space c' then String c EmptyString :: words r
               else match words r with
                    | h :: t => String c h :: t
                    | [] => [String c EmptyString]
                    end
           end
  end.

(** [sep.join(l)] *)
Fixpoint join (sep : string) (l : list string) : string :=
  match l with
  | [] => EmptyString
  | [x] => x
  | x :: r => x ++ sep ++ join sep r
  end.

(** [s.find(c)] for one character: the first index, or [-1]. *)
Fixpoint find (c : ascii) (s : string) : Z :=
  match s with
  | EmptyString => (-1)%Z
  | String a r =>
      if Ascii.eqb a c then 0%Z
      else let i := find c r in
           if (i =? -1)%Z then (-1)%Z else (i + 1)%Z
  end.

Definition len (s : string) : Z := Z.of_nat (String.length s).

(** A slice bound as Python normalises it: a negative bound counts from the
    end, and the result is clamped to [0 .. len s]. *)
Definition bound (s : string) (i : Z) : nat :=
  let i' := if (i <? 0)%Z then (i + len s)%Z else i in
  Z.to_nat (Z.min (Z.max i' 0) (len s)).

(** [s[lo:hi]] *)
Definition slice (s : string) (lo hi : Z) : string :=
  let a := bound s lo in
  let b := bound s hi in
  String.substring a (b - a) s.

(** [s[:hi]] *)
Definition slice_to (s : string) (hi : Z) : string := slice s 0 hi.

(** [re.sub(r'[^\w\s]', ' ', s)] *)
Definition sub_nonword (s : string) : string :=
  map (fun c => if is_word c || is_space c then c else " "%char) s.

(** [re.sub(r'\s+', ' ', s)]: of a run of blanks only the last one is
    kept, as a space. *)
Fixpoint sub_spaces (s : string) : string :=
  match s with
  | EmptyString => EmptyString
  | String c r =>
      if is_space c then
        match r with
        | String c' _ => if is_space c' then sub_spaces r
                         else String " " (sub_spaces r)
        | EmptyString => String " " EmptyString
        end
      else String c (sub_spaces r)
  end.

End Str.

(** ** Operations on values *)

(** [isinstance(v, str)] *)
Definition isinstance_str (v : pyval) : bool :=
  match v with
  | PyStr _ => true
  | _ => false
  end.

(** [str(v)] *)
Definition py_str (v : pyval) : outcome string :=
  match v with
  | PyNone => Ret "None"
  | PyBool true => Ret "True"
  | PyBool false => Ret "False"
  | PyStr s => Ret s
  | PyObj (Some s) => Ret s
  | PyObj None => Raise TypeError
  end.

(** [v.strip()]: only a [str] has the method here. *)
Definition py_strip (v : pyval) : outcome string :=
  match v with
  | PyStr s => Ret (Str.strip s)
  | _ => Raise AttributeError
  end.

(** [l[i]] *)
Definition py_index {A} (l : list A) (i : nat) : outcome A :=
  match l !! i with
  | Some a => Ret a
  | None => Raise IndexError
  end.

(** [a, b = l] *)
Definition unpack2 {A} (l : list A) : outcome (A * A) :=
  match l with
  | [a; b] => Ret (a, b)
  | _ => Raise ValueError
  end.

(** ** AddressValidator: [is_valid_email] *)

Definition markers : list string :=
  ["/O="; "/OU="; "/CN="; "MIDBOROMGMNT"; "FIRST ADMINISTRATIVE GROUP"; "RECIPIENTS"].

Definition is_valid_email_body (email : pyval) : outcome bool :=
  if negb (isinstance_str email) then Ret false
  else
    email ← py_strip email;
    if negb (Str.truthy email) || Str.startswith email "/" then Ret false
    else if negb (Str.contains "@" email) || negb (Str.contains "." email) then Ret false
    else
      let upper := Str.upper email in
      if existsb (fun p => Str.contains p upper) markers then Ret false
      else
        let parts := Str.split "@"%char email in
        if negb (length parts =? 2)%nat then Ret false
        else
          '(username, domain) ← unpack2 parts;
          if negb (Str.truthy username) || negb (Str.truthy domain)
             || negb (Str.contains "." domain)
          then Ret false
          else Ret true.

Definition is_valid_email (email : pyval) : outcome bool :=
  try_except (is_valid_email_body email) (Ret false).

(** ** ContactBuilder *)

(** [d[k]] *)
Definition py_getitem (d : gmap string pyval) (k : string) : outcome pyval :=
  match d !! k with
  | Some v => Ret v
  | None => Raise KeyError
  end.

(** [bool(d)] for a dictionary or [None] returned by a builder. *)
Definition contact_truthy (c : option (gmap string pyval)) : bool :=
  match c with
  | Some d => negb (bool_decide (d = ∅))
  | None => false
  end.

(** [extract_domain_from_email].  Both callers pass a [str], for which
    [pd.isna] is false and [str(email)] is [email]. *)
Definition extract_domain_from_email (email : string) : outcome pyval :=
  if negb (Str.truthy email) || negb (Str.contains "@" email) then Ret PyNone
  else
    try_except
      (part ← py_index (Str.split "@"%char email) 1;
       let domain := Str.strip part in
       Ret (PyStr domain))
      (Ret PyNone).

(** The dictionary literal of the two builders. *)
Definition contact_literal (full_name first_name last_name email : string)
    (domain : pyval) : gmap string pyval :=
  <["domain" := domain]>
    (<["email" := PyStr email]>
      (<["last_name" := PyStr last_name]>
        (<["first_name" := PyStr first_name]>
          (<["full_name" := PyStr full_name]> ∅)))).

Definition create_contact_from_email_only (email : string)
    : outcome (option (gmap string pyval)) :=
  try_except
    (username ← py_index (Str.split "@"%char email) 0;
     names ←
       (if Str.contains "." username then
          let parts := Str.split "."%char username in
          if (2 <=? length parts)%nat then
            p0 ← py_index parts 0;
            p1 ← py_index parts 1;
            Ret (Str.capitalize p0, Str.capitalize p1)
          else Ret (Str.capitalize username, "")
        else Ret (Str.capitalize username, ""));
     let '(first_name, last_name) := names in
     domain ← extract_domain_from_email email;
     Ret (Some (contact_literal (Str.capitalize username) first_name last_name
                  email domain)))
    (Ret None).

Definition create_contact_from_name_email (name_text email : string)
    : outcome (option (gmap string pyval)) :=
  try_except
    (let name_text := Str.sub_nonword name_text in
     let name_text := Str.strip (Str.sub_spaces name_text) in
     if negb (Str.truthy name_text) || (Str.len name_text <? 2)%Z then Ret None
     else
       let name_parts := Str.words name_text in
       names ←
         (if (2 <=? length name_parts)%nat then
            p0 ← py_index name_parts 0;
            Ret (p0, Str.join " " (drop 1 name_parts))
          else Ret (name_text, ""));
       let '(first_name, last_name) := names in
       domain ← extract_domain_from_email email;
       Ret (Some (contact_literal name_text first_name last_name email domain)))
    (Ret None).

(** ** FieldExtractor *)

(** Code that updates a local variable of type [S] and may raise: the
    variable keeps its value when an exception unwinds. *)
Definition proc (S A : Type) : Type := S -> outcome A * S.

Global Instance proc_ret {S} : MRet (proc S) := fun A a s => (Ret a, s).
Global Instance proc_bind {S} : MBind (proc S) := fun A B f m s =>
  match m s with
  | (Ret a, s') => f a s'
  | (Raise e, s') => (Raise e, s')
  end.

Definition lift {S A} (m : outcome A) : proc S A := fun s => (m, s).
Definition get {S} : proc S S := fun s => (Ret s, s).
Definition modify {S} (f : S -> S) : proc S unit := fun s => (Ret tt, f s).

(** [for x in l: body(x)] *)
Fixpoint for_each {S A} (l : list A) (body : A -> proc S unit) : proc S unit :=
  match l with
  | [] => mret tt
  | x :: r => body x ≫= fun _ => for_each r body
  end.

(** [if contact: contacts.append(contact)] *)
Definition append_if_truthy (contact : option (gmap string pyval))
    : proc (list (gmap string pyval)) unit :=
  match contact with
  | Some d => if contact_truthy contact then modify (fun cs => (cs ++ [d])%list) else mret tt
  | None => mret tt
  end.

(** The body of the loop over [contact_parts]; the local variable is
    [contacts]. *)
Definition scan_part (contact_part : string) : proc (list (gmap string pyval)) unit :=
  if negb (Str.truthy contact_part) then mret tt
  else if Str.contains "<" contact_part && Str.contains ">" contact_part then
    let email_start := Str.find "<" contact_part in
    let email_end := Str.find ">" contact_part in
    if negb (email_start =? -1)%Z && negb (email_end =? -1)%Z then
      let name_text := Str.strip (Str.slice_to contact_part email_start) in
      let email := Str.strip (Str.slice contact_part (email_start + 1) email_end) in
      ok ← (if Str.truthy name_text && Str.truthy email
            then lift (is_valid_email (PyStr email)) else mret false);
      if ok : bool then
        contact ← lift (create_contact_from_name_email name_text email);
        append_if_truthy contact
      else mret tt
    else mret tt
  else if Str.contains "@" contact_part && Str.contains "." contact_part then
    let email := Str.strip contact_part in
    ok ← lift (is_valid_email (PyStr email));
    if ok : bool then
      contact ← lift (create_contact_from_email_only email);
      append_if_truthy contact
    else mret tt
  else mret tt.

(** [c and 'email' in c and is_valid_email(c['email'])] *)
Definition keep_contact (c : gmap string pyval) : outcome bool :=
  if contact_truthy (Some c) && bool_decide (is_Some (c !! "email")) then
    e ← py_getitem c "email";
    is_valid_email e
  else Ret false.

(** [[c for c in contacts if keep(c)]] *)
Fixpoint filter_contacts (cs : list (gmap string pyval))
    : outcome (list (gmap string pyval)) :=
  match cs with
  | [] => Ret []
  | c :: r =>
      keep ← keep_contact c;
      rest ← filter_contacts r;
      Ret (if keep : bool then c :: rest else rest)
  end.

(** The [try] block of [extract_multiple_contacts]. *)
Definition extract_body (text : pyval) : proc (list (gmap string pyval)) (list (gmap string pyval)) :=
  text ← lift (py_str text);
  let text := Str.strip text in
  if negb (Str.truthy text) || String.eqb text "nan" || String.eqb text "None" then get
  else
    let contact_parts := List.map Str.strip (Str.split ","%char text) in
    _ ← for_each contact_parts scan_part;
    contacts ← get;
    lift (filter_contacts contacts).

(** [contacts = []], the [try] block, and [except Exception: return
    contacts]. *)
Definition extract_multiple_contacts (text : pyval) : outcome (list (gmap string pyval)) :=
  match extract_body text [] with
  | (Ret valid_contacts, _) => Ret valid_contacts
  | (Raise _, contacts) => Ret contacts
  end.

(** ** Deduplicator: the loop over [contacts] *)

(** [d.get(k, default)] *)
Definition py_get (d : gmap string pyval) (k : string) (default : pyval) : pyval :=
  match d !! k with
  | Some v => v
  | None => default
  end.

(** [contact.get('email', '').strip().lower()] *)
Definition dedupe_key (contact : gmap string pyval) : outcome string :=
  s ← py_strip (py_get contact "email" (PyStr ""));
  Ret (Str.lower s).

(** The two local variables of the loop. *)
Record dedupe_state : Type := {
  unique_contacts : list (gmap string pyval);
  seen_emails : gset string
}.

Definition dedupe_step (st : dedupe_state) (contact : gmap string pyval)
    : outcome dedupe_state :=
  email ← dedupe_key contact;
  if Str.truthy email && negb (bool_decide (email ∈ seen_emails st)) then
    let seen := seen_emails st ∪ {[email]} in
    let normalized := <["email" := PyStr email]> contact in
    Ret {| unique_contacts := (unique_contacts st ++ [normalized])%list;
           seen_emails := seen |}
  else Ret st.

Fixpoint dedupe_loop (st : dedupe_state) (contacts : list (gmap string pyval))
    : outcome dedupe_state :=
  match contacts with
  | [] => Ret st
  | contact :: rest => st' ← dedupe_step st contact; dedupe_loop st' rest
  end.

Definition dedupe (contacts : list (gmap string pyval))
    : outcome (list (gmap string pyval)) :=
  st ← dedupe_loop {| unique_contacts := []; seen_emails := ∅ |} contacts;
  Ret (unique_contacts st).

(** ** The statistics shown after the conversion *)

Record metrics : Type := {
  total_contacts : Z;
  unique_count : Z;
  duplicates_removed : Z
}.

(** [len(l)] *)
Definition py_len {A} (l : list A) : Z := Z.of_nat (length l).

(** The three metrics are shown in the branch [if unique_contacts:] only. *)
Definition statistics (contacts unique : list (gmap string pyval)) : option metrics :=
  match unique with
  | [] => None
  | _ :: _ =>
      Some {| total_contacts := py_len contacts;
              unique_count := py_len unique;
              duplicates_removed := (py_len contacts - py_len unique)%Z |}
  end.

(** ** The loop on a store of objects

    Lists and dictionaries are objects with identity.  The store maps a
    location to an object; a list holds the locations of its elements.  An
    allocation takes the next free location. *)

Module Store.

Abbreviation loc := nat.

Inductive obj : Type :=
| ODict (d : gmap string pyval)
| OList (l : list loc).

Abbreviation heap := (list obj).

Definition alloc (h : heap) (o : obj) : heap * loc :=
  ((h ++ [o])%list, length h).

Definition read_dict (h : heap) (l : loc) : outcome (gmap string pyval) :=
  match h !! l with
  | Some (ODict d) => Ret d
  | _ => Raise TypeError
  end.

Definition read_list (h : heap) (l : loc) : outcome (list loc) :=
  match h !! l with
  | Some (OList xs) => Ret xs
  | _ => Raise TypeError
  end.

(** [d[k] = v] *)
Definition setitem (h : heap) (l : loc) (k : string) (v : pyval) : outcome heap :=
  d ← read_dict h l;
  Ret (<[l := ODict (<[k := v]> d)]> h).

(** [xs.append(x)] *)
Definition append (h : heap) (l : loc) (x : loc) : outcome heap :=
  xs ← read_list h l;
  Ret (<[l := OList (xs ++ [x])%list]> h).

(** One turn of the loop body: [contact] is the element just read,
    [unique] the location of the list [unique_contacts]. *)
Definition loop_body (unique : loc) (st : heap * gset string) (contact : loc)
    : outcome (heap * gset string) :=
  let '(h, seen) := st in
  d ← read_dict h contact;
  email ← dedupe_key d;
  if Str.truthy email && negb (bool_decide (email ∈ seen)) then
    let seen := seen ∪ {[email]} in
    let '(h, normalized) := alloc h (ODict d) in
    h ← setitem h normalized "email" (PyStr email);
    h ← append h unique normalized;
    Ret (h, seen)
  else Ret st.

(** [for contact in contacts]: the list iterator reads element [i] of the
    list object at each turn and stops when [i] is past its end.  [None]
    means that the fuel ran out. *)
Fixpoint iterate (fuel : nat) (i : nat) (contacts unique : loc)
    (st : heap * gset string) : option (outcome (heap * gset string)) :=
  match fuel with
  | O => None
  | S fuel =>
      match read_list (fst st) contacts with
      | Raise e => Some (Raise e)
      | Ret xs =>
          match xs !! i with
          | None => Some (Ret st)
          | Some contact =>
              match loop_body unique st contact with
              | Raise e => Some (Raise e)
              | Ret st' => iterate fuel (S i) contacts unique st'
              end
          end
      end
  end.

(** Lines 107 to 116: the result is the final store and the location of
    [unique_contacts]. *)
Definition run (fuel : nat) (h : heap) (contacts : loc)
    : option (outcome (heap * loc)) :=
  let '(h, unique) := alloc h (OList []) in
  match iterate fuel 0 contacts unique (h, ∅) with
  | None => None
  | Some (Raise e) => Some (Raise e)
  | Some (Ret (h', _)) => Some (Ret (h', unique))
  end.

End Store.

(** ** The specification's wording

    Definitions written from the specification's sentences, to be compared
    with the code above. *)

Module Spec.

(** Two characters that are the same up to the case of a letter. *)
Definition same_letter (a b : ascii) : bool :=
  Ascii.eqb (Str.lower_char a) (Str.lower_char b).

Fixpoint prefix_ci (p s : string) : bool :=
  match p, s with
  | EmptyString, _ => true
  | String a p', String b s' => same_letter a b && prefix_ci p' s'
  | String _ _, EmptyString => false
  end.

(** [s] contains [p], case-insensitively. *)
Fixpoint contains_ci (p s : string) : bool :=
  prefix_ci p s ||
  match s with
  | EmptyString => false
  | String _ r => contains_ci p r
  end.

(** Section 4.1, rules 1 to 5, on the trimmed candidate. *)
Definition is_valid (candidate : string) : bool :=
  let t := Str.strip candidate in
  Str.truthy t
  && negb (String.prefix "/" t)
  && (Str.contains "@" t && Str.contains "." t)
  && forallb (fun m => negb (contains_ci m t)) markers
  && match Str.split "@"%char t with
     | [username; domain] =>
         Str.truthy username && Str.truthy domain && Str.contains "." domain
     | _ => false
     end.

(** The text after the first occurrence of [c]. *)
Fixpoint after (c : ascii) (s : string) : string :=
  match s with
  | EmptyString => EmptyString
  | String a r => if Ascii.eqb a c then r else after c r
  end.

(** Section 4.5: the key of a contact. *)
Definition key_of (c : gmap string pyval) : string :=
  match c !! "email" with
  | Some (PyStr s) => Str.lower (Str.strip s)
  | _ => EmptyString
  end.

(** Section 4.5: a contact is kept when its key is not empty and no
    earlier contact has the same key; a kept contact gets its key as
    [email]. *)
Fixpoint first_seen (earlier : list string) (xs : list (gmap string pyval))
    : list (gmap string pyval) :=
  match xs with
  | [] => []
  | c :: rest =>
      let key := key_of c in
      if Str.truthy key && negb (bool_decide (key ∈ earlier))
      then <["email" := PyStr key]> c :: first_seen (earlier ++ [key]) rest
      else first_seen (earlier ++ [key]) rest
  end.

Definition dedupe (xs : list (gmap string pyval)) : list (gmap string pyval) :=
  first_seen [] xs.

(** Section 4.3, step 3a: what a part with candidate name [name] and
    candidate email [email] contributes. *)
Definition built_from (name email : string) : list (gmap string pyval) :=
  if Str.truthy name && Str.truthy email then
    match is_valid_email (PyStr email) with
    | Ret true =>
        match create_contact_from_name_email name email with
        | Ret (Some d) => [d]
        | _ => []
        end
    | _ => []
    end
  else [].

End Spec.

(** The data model's contact, as far as the loop reads it: the value under
    [email], when there is one, is a [str]. *)
Definition email_is_str (c : gmap string pyval) : Prop :=
  ∃ s, py_get c "email" (PyStr "") = PyStr s.

(** ** Predicates used in the proofs *)

(** A string that is empty or starts with a character that is not blank. *)
Definition no_lead (s : string) : Prop :=
  match s with
  | EmptyString => True
  | String c _ => Str.is_space c = false
  end.

(** The set [seen_emails] and the keys of the contacts read so far agree on
    the keys that are not empty. *)
Definition seen_agrees (seen : gset string) (earlier : list string) : Prop :=
  ∀ k, Str.truthy k = true → k ∈ seen ↔ k ∈ earlier.

(** A contact as the loop stores it: its [email] is a key, not empty and
    already trimmed and in lower case. *)
Definition normalized (c : gmap string pyval) : Prop :=
  ∃ k, c !! "email" = Some (PyStr k)
       ∧ Str.truthy k = true
       ∧ Str.lower (Str.strip k) = k.

Ltac each_char c :=
  destruct c as [[] [] [] [] [] [] [] []]; vm_compute; try reflexivity; try discriminate.

(** ** Sample data *)

Definition alice_upper : gmap string pyval :=
  contact_literal "Alice Adams" "Alice" "Adams" "A@x.com" (PyStr "x.com").

Definition alice_lower : gmap string pyval :=
  contact_literal "Al Baker" "Al" "Baker" "a@x.com" (PyStr "x.com").

Definition alice_kept : gmap string pyval :=
  contact_literal "Alice Adams" "Alice" "Adams" "a@x.com" (PyStr "x.com").

(** The store [hi] during the loop started on [h0]: the objects of [h0] are
    where they were, the list [unique_contacts], allocated first, holds the
    locations [us], and these hold the dictionaries [acc], each allocated
    after it. *)
Definition store_inv (h0 hi : list Store.obj) (us : list nat)
    (acc : list (gmap string pyval)) : Prop :=
  h0 `prefix_of` hi
  ∧ hi !! length h0 = Some (Store.OList us)
  ∧ NoDup us
  ∧ Forall2 (λ l d, hi !! l = Some (Store.ODict d)
                    ∧ (length h0 < l < length hi)%nat) us acc.

(** A store with the two sample contacts and the list [contacts]. *)
Definition sample_store : list Store.obj :=
  [Store.ODict alice_upper; Store.ODict alice_lower; Store.OList [0; 1]%nat].

(** What an extracted contact looks like: the five fields, an email that
    the validator accepts, and as domain the trimmed text after [@]. *)
Definition extracted_ok (d : gmap string pyval) : Prop :=
  ∃ full first last email,
    d = contact_literal full first last email
          (PyStr (Str.strip (Spec.after "@" email)))
    ∧ is_valid_email (PyStr email) = Ret true
    ∧ Str.truthy (Str.strip (Spec.after "@" email)) = true
    ∧ Str.contains "." (Str.strip (Spec.after "@" email)) = true.

(** The keys of a contact. *)
Definition contact_fields : gset string :=
  {[ "full_name"; "first_name"; "last_name"; "email"; "domain" ]}.

(** Every character of [s] satisfies [P]. *)
Fixpoint all_chars (P : ascii → bool) (s : string) : bool :=
  match s with
  | EmptyString => true
  | String c r => P c && all_chars P r
  end.

(** Every blank of [s] is a space and is not followed by a blank. *)
Fixpoint spaced (s : string) : Prop :=
  match s with
  | EmptyString => True
  | String c r => (Str.is_space c = true → c = " "%char ∧ no_lead r) ∧ spaced r
  end.

(** Every blank of [s] is a space between two characters that are not
    blank, the first character apart. *)
Fixpoint tidy (s : string) : Prop :=
  match s with
  | EmptyString => True
  | String c r =>
      (Str.is_space c = true → c = " "%char ∧ no_lead r ∧ r ≠ EmptyString)
      ∧ tidy r
  end.

(** A character of a cleaned name: a letter, a digit, an underscore or a
    space. *)
Definition name_char (c : ascii) : bool :=
  Str.is_word c || Ascii.eqb c " ".

(** What one part of a field adds to [contacts]: the list after the turn of
    the loop, started from the empty list. *)
Definition part_contacts (contact_part : string) : list (gmap string pyval) :=
  snd (scan_part contact_part []).


(** [f] applied to the last element of a list. *)
Fixpoint map_last {A} (f : A → A) (l : list A) : list A :=
  match l with
  | [] => []
  | [x] => [f x]
  | x :: r => x :: map_last f r
  end.

(** [f] applied to the first element of a list. *)
Definition map_head {A} (f : A → A) (l : list A) : list A :=
  match l with
  | [] => []
  | x :: r => f x :: r
  end.

(** ** SourceAdapter

    The loops of [process_pst_file] and [process_excel_file] that feed the
    extractor.  The calls that report progress are left out. *)

(** [if field: contacts.extend(extract_multiple_contacts(field))] *)
Definition extend_from (field : string) (contacts : list (gmap string pyval))
    : outcome (list (gmap string pyval)) :=
  if Str.truthy field then
    extracted ← extract_multiple_contacts (PyStr field);
    Ret (contacts ++ extracted)%list
  else Ret contacts.

(** The loop of [process_pst_file] over the message rows: [row[0]] is the
    sender, [row[1]] the recipients. *)
Fixpoint pst_rows (rows : list (list string)) (contacts : list (gmap string pyval))
    : outcome (list (gmap string pyval)) :=
  match rows with
  | [] => Ret contacts
  | row :: rest =>
      sender ← py_index row 0;
      contacts ← extend_from sender contacts;
      recipients ← py_index row 1;
      contacts ← extend_from recipients contacts;
      pst_rows rest contacts
  end.

(** [process_pst_file] from the rows [excel_data] on: the header row is
    skipped, and an exception gives the empty list. *)
Definition process_pst_rows (excel_data : list (list string))
    : outcome (list (gmap string pyval)) :=
  try_except (pst_rows (drop 1 excel_data) []) (Ret []).

Definition keywords : list string :=
  ["sender"; "recipient"; "from"; "to"; "email"; "name"; "contact"; "cc"; "bcc"].

(** [any(keyword in col_lower for keyword in [...])] with
    [col_lower = str(col).lower()]; a column label is a string. *)
Definition is_contact_column (col : string) : bool :=
  let col_lower := Str.lower col in
  existsb (fun keyword => Str.contains keyword col_lower) keywords.

(** The columns that [process_excel_file] scans. *)
Definition contact_columns (columns : list string) : list string :=
  match List.filter is_contact_column columns with
  | [] => columns
  | found => found
  end.

(** The inner loop of [process_excel_file]: the cells of one row; a row
    maps a column label to its cell. *)
Fixpoint excel_cells (row : gmap string pyval) (cols : list string)
    (all_contacts : list (gmap string pyval)) : outcome (list (gmap string pyval)) :=
  match cols with
  | [] => Ret all_contacts
  | col :: rest =>
      cell ← py_getitem row col;
      cell_value ← py_str cell;
      all_contacts ←
        (if Str.truthy cell_value && negb (String.eqb cell_value "nan")
            && negb (String.eqb cell_value "None")
         then
           extracted_contacts ← extract_multiple_contacts (PyStr cell_value);
           Ret (all_contacts ++ extracted_contacts)%list
         else Ret all_contacts);
      excel_cells row rest all_contacts
  end.

Fixpoint excel_rows (rows : list (gmap string pyval)) (cols : list string)
    (all_contacts : list (gmap string pyval)) : outcome (list (gmap string pyval)) :=
  match rows with
  | [] => Ret all_contacts
  | row :: rest =>
      all_contacts ← excel_cells row cols all_contacts;
      excel_rows rest cols all_contacts
  end.

(** [process_excel_file] from the data frame on: an exception gives the
    empty list. *)
Definition process_excel_rows (columns : list string) (rows : list (gmap string pyval))
    : outcome (list (gmap string pyval)) :=
  try_except (excel_rows rows (contact_columns columns) []) (Ret []).

(** The conversion from the extracted contacts on: the loop of lines 107 to
    116 on what a source adapter returned. *)
Definition convert (source : outcome (list (gmap string pyval)))
    : outcome (list (gmap string pyval)) :=
  contacts ← source;
  dedupe contacts.

(** A contact of the final output: the five fields, an email that the
    validator accepts and that is trimmed and in lower case, and a domain
    that is, up to the case of its letters, the trimmed text after the [@]
    of the email. *)
Definition output_contact (y : gmap string pyval) : Prop :=
  ∃ full first last email domain,
    y = contact_literal full first last email (PyStr domain)
    ∧ is_valid_email (PyStr email) = Ret true
    ∧ Str.strip email = email
    ∧ Str.lower email = email
    ∧ Str.lower domain = Str.strip (Spec.after "@" email).

(** ** Recipients of a message

    A recipient object is modelled by what [safe_call] returns for its two
    accessors: [None], or the string that the accessor gives. *)

Record recipient : Type := {
  get_name : option string;
  get_email_address : option string
}.

(** [x or ''] *)
Definition or_empty (x : option string) : string :=
  match x with
  | Some s => s
  | None => EmptyString
  end.

(** The string that the loop of [get_recipients_list] appends for one
    recipient, if any. *)
Definition recipient_string (r : recipient) : option string :=
  let name := or_empty (get_name r) in
  let email_addr := or_empty (get_email_address r) in
  if Str.truthy email_addr && Str.truthy name then
    Some (name ++ " <" ++ email_addr ++ ">")
  else if Str.truthy email_addr then Some email_addr
  else if Str.truthy name then Some name
  else None.

(** [get_recipients_list] on the recipients of a message. *)
Definition get_recipients_list (recipients : list recipient) : string :=
  let recipient_strings := omap recipient_string recipients in
  Str.join ", " (List.filter Str.truthy recipient_strings).

(** A recipient with a display name and an address that survive the
    formatting: the name is trimmed, holds no comma and no angle bracket,
    and keeps two characters or more when cleaned; the address is trimmed,
    holds no comma and no [>], and is accepted by the validator. *)
Definition plain_recipient (r : recipient) (name email : string) : Prop :=
  get_name r = Some name
  ∧ get_email_address r = Some email
  ∧ Str.strip name = name
  ∧ Str.contains "," name = false
  ∧ Str.contains "<" name = false
  ∧ Str.contains ">" name = false
  ∧ (2 ≤ Str.len (Str.strip (Str.sub_spaces (Str.sub_nonword name))))%Z
  ∧ Str.strip email = email
  ∧ Str.contains "," email = false
  ∧ Str.contains ">" email = false
  ∧ is_valid_email (PyStr email) = Ret true.

(** Two sample recipients. *)
Definition jane : recipient :=
  {| get_name := Some "Jane Doe"; get_email_address := Some "jane@x.com" |}.
Definition bob : recipient :=
  {| get_name := Some "Bob Ray"; get_email_address := Some "bob@y.org" |}.

(** The sender field that [extract_messages_from_folder] builds from what
    [safe_call] returns for the sender's name and address. *)
Definition format_sender (name email : option string) : outcome string :=
  let sender := or_empty name in
  let sender_email := or_empty email in
  named ← (if Str.truthy sender && Str.truthy sender_email
           then is_valid_email (PyStr sender_email) else Ret false);
  if named : bool then Ret (sender ++ " <" ++ sender_email ++ ">")
  else
    bare ← (if Str.truthy sender_email
            then is_valid_email (PyStr sender_email) else Ret false);
    if bare : bool then Ret sender_email else Ret sender.

(** * The same code on Unicode text

    In the definitions above a [str] is a [string] and the character tables
    are those of ASCII.  Module [U] embeds the same functions with a [str]
    as the list of its code points.  Blank characters are the ones that
    [str.isspace], [str.strip], [str.split] and the class [\s] of [re] agree
    on; the case mappings [str.lower], [str.upper], [str.capitalize] and the
    class [\w] are the tables of the interpreter, taken as parameters:
    what is proved holds whatever these tables are. *)

Module U.

(** A code point, and the code points of a literal of the source. *)
Definition ch (c : ascii) : N := N_of_ascii c.
Definition lit (s : string) : list N :=
  List.map N_of_ascii (list_ascii_of_string s).

(** The upper-case form of a code point of the ASCII range. *)
Definition ascii_upper (c : N) : N :=
  if ((97 <=? c) && (c <=? 122))%N then (c - 32)%N else c.

(** The tables of the interpreter.  On text of the ASCII range [upper] is
    the mapping of the letters [a] to [z]. *)
Class Tables : Type := {
  lower : list N → list N;
  upper : list N → list N;
  capitalize : list N → list N;
  is_word : N → bool;
  upper_ascii :
    ∀ s, Forall (λ c, (c < 128)%N) s → upper s = List.map ascii_upper s
}.

(** The blank characters: TAB to CR, FS to US, the space, NEL, the
    no-break space and the spaces of the general punctuation and CJK
    blocks. *)
Definition is_space (c : N) : bool :=
  (((9 <=? c) && (c <=? 13)) || ((28 <=? c) && (c <=? 32))
   || (c =? 133) || (c =? 160) || (c =? 5760)
   || ((8192 <=? c) && (c <=? 8202))
   || (c =? 8232) || (c =? 8233) || (c =? 8239) || (c =? 8287)
   || (c =? 12288))%N.

(** ** [str] primitives *)

Module Str.

(** [bool(s)] *)
Definition truthy (s : list N) : bool :=
  match s with
  | [] => false
  | _ :: _ => true
  end.

Fixpoint lstrip (s : list N) : list N :=
  match s with
  | [] => []
  | c :: r => if is_space c then lstrip r else s
  end.

Fixpoint rstrip (s : list N) : list N :=
  match s with
  | [] => []
  | c :: r =>
      let r' := rstrip r in
      if is_space c && negb (truthy r') then [] else c :: r'
  end.

(** [s.strip()] *)
Definition strip (s : list N) : list N := rstrip (lstrip s).

(** [s.startswith(p)] *)
Fixpoint startswith (s p : list N) : bool :=
  match p, s with
  | [], _ => true
  | a :: p', b :: s' => (a =? b)%N && startswith s' p'
  | _ :: _, [] => false
  end.

(** [p in s] *)
Fixpoint contains (p s : list N) : bool :=
  startswith s p ||
  match s with
  | [] => false
  | _ :: r => contains p r
  end.

(** [s.split(sep)] for a separator of one character. *)
Fixpoint split (sep : N) (s : list N) : list (list N) :=
  match s with
  | [] => [[]]
  | c :: r =>
      if (c =? sep)%N then [] :: split sep r
      else match split sep r with
           | h :: t => (c :: h) :: t
           | [] => [[c]]
           end
  end.

(** [s.split()]: the maximal runs of characters that are not blank. *)
Fixpoint words (s : list N) : list (list N) :=
  match s with
  | [] => []
  | c :: r =>
      if is_space c then words r
      else match r with
           | [] => [[c]]
           | c' :: _ =>
               if is_space c' then [c] :: words r
               else match words r with
                    | h :: t => (c :: h) :: t
                    | [] => [[c]]
                    end
           end
  end.

(** [sep.join(l)] *)
Fixpoint join (sep : list N) (l : list (list N)) : list N :=
  match l with
  | [] => []
  | [x] => x
  | x :: r => (x ++ sep ++ join sep r)%list
  end.

(** [s.find(c)] for one character: the first index, or [-1]. *)
Fixpoint find (c : N) (s : list N) : Z :=
  match s with
  | [] => (-1)%Z
  | a :: r =>
      if (a =? c)%N then 0%Z
      else let i := find c r in
           if (i =? -1)%Z then (-1)%Z else (i + 1)%Z
  end.

(** [len(s)]: the number of code points. *)
Definition len (s : list N) : Z := Z.of_nat (length s).

(** A slice bound as Python normalises it. *)
Definition bound (s : list N) (i : Z) : nat :=
  let i' := if (i <? 0)%Z then (i + len s)%Z else i in
  Z.to_nat (Z.min (Z.max i' 0) (len s)).

(** [s[lo:hi]] *)
Definition slice (s : list N) (lo hi : Z) : list N :=
  let a := bound s lo in
  let b := bound s hi in
  take (b - a) (drop a s).

(** [s[:hi]] *)
Definition slice_to (s : list N) (hi : Z) : list N := slice s 0 hi.

(** [re.sub(r'[^\w\s]', ' ', s)] *)
Definition sub_nonword `{Tables} (s : list N) : list N :=
  List.map (fun c => if is_word c || is_space c then c else ch " ") s.

(** [re.sub(r'\s+', ' ', s)] *)
Fixpoint sub_spaces (s : list N) : list N :=
  match s with
  | [] => []
  | c :: r =>
      if is_space c then
        match r with
        | c' :: _ => if is_space c' then sub_spaces r
                     else ch " " :: sub_spaces r
        | [] => [ch " "]
        end
      else c :: sub_spaces r
  end.

End Str.

(** ** Values *)

Inductive pyval : Type :=
| PyNone
| PyBool (b : bool)
| PyStr (s : list N)
| PyObj (r : option (list N)).

Global Instance pyval_eq_dec : EqDecision pyval.
Proof. solve_decision. Defined.

(** [isinstance(v, str)] *)
Definition isinstance_str (v : pyval) : bool :=
  match v with
  | PyStr _ => true
  | _ => false
  end.

(** [str(v)] *)
Definition py_str (v : pyval) : outcome (list N) :=
  match v with
  | PyNone => Ret (lit "None")
  | PyBool true => Ret (lit "True")
  | PyBool false => Ret (lit "False")
  | PyStr s => Ret s
  | PyObj (Some s) => Ret s
  | PyObj None => Raise TypeError
  end.

(** [v.strip()] *)
Definition py_strip (v : pyval) : outcome (list N) :=
  match v with
  | PyStr s => Ret (Str.strip s)
  | _ => Raise AttributeError
  end.

(** [d[k]] *)
Definition py_getitem (d : gmap string pyval) (k : string) : outcome pyval :=
  match d !! k with
  | Some v => Ret v
  | None => Raise KeyError
  end.

(** [d.get(k, default)] *)
Definition py_get (d : gmap string pyval) (k : string) (default : pyval) : pyval :=
  match d !! k with
  | Some v => v
  | None => default
  end.

(** [bool(d)] for a dictionary or [None] returned by a builder. *)
Definition contact_truthy (c : option (gmap string pyval)) : bool :=
  match c with
  | Some d => negb (bool_decide (d = ∅))
  | None => false
  end.

(** ** AddressValidator *)

Definition markers : list (list N) :=
  [lit "/O="; lit "/OU="; lit "/CN="; lit "MIDBOROMGMNT";
   lit "FIRST ADMINISTRATIVE GROUP"; lit "RECIPIENTS"].

Section code.
Context `{Tables}.

Definition is_valid_email_body (email : pyval) : outcome bool :=
  if negb (isinstance_str email) then Ret false
  else
    email ← py_strip email;
    if negb (Str.truthy email) || Str.startswith email (lit "/") then Ret false
    else if negb (Str.contains (lit "@") email) || negb (Str.contains (lit ".") email)
    then Ret false
    else
      let upper := upper email in
      if existsb (fun p => Str.contains p upper) markers then Ret false
      else
        let parts := Str.split (ch "@") email in
        if negb (length parts =? 2)%nat then Ret false
        else
          '(username, domain) ← unpack2 parts;
          if negb (Str.truthy username) || negb (Str.truthy domain)
             || negb (Str.contains (lit ".") domain)
          then Ret false
          else Ret true.

Definition is_valid_email (email : pyval) : outcome bool :=
  try_except (is_valid_email_body email) (Ret false).

(** ** ContactBuilder *)

(** [extract_domain_from_email], called on a [str]. *)
Definition extract_domain_from_email (email : list N) : outcome pyval :=
  if negb (Str.truthy email) || negb (Str.contains (lit "@") email) then Ret PyNone
  else
    try_except
      (part ← py_index (Str.split (ch "@") email) 1;
       let domain := Str.strip part in
       Ret (PyStr domain))
      (Ret PyNone).

(** The dictionary literal of the two builders. *)
Definition contact_literal (full_name first_name last_name email : list N)
    (domain : pyval) : gmap string pyval :=
  <["domain" := domain]>
    (<["email" := PyStr email]>
      (<["last_name" := PyStr last_name]>
        (<["first_name" := PyStr first_name]>
          (<["full_name" := PyStr full_name]> ∅)))).

Definition create_contact_from_email_only (email : list N)
    : outcome (option (gmap string pyval)) :=
  try_except
    (username ← py_index (Str.split (ch "@") email) 0;
     names ←
       (if Str.contains (lit ".") username then
          let parts := Str.split (ch ".") username in
          if (2 <=? length parts)%nat then
            p0 ← py_index parts 0;
            p1 ← py_index parts 1;
            Ret (capitalize p0, capitalize p1)
          else Ret (capitalize username, [])
        else Ret (capitalize username, []));
     let '(first_name, last_name) := names in
     domain ← extract_domain_from_email email;
     Ret (Some (contact_literal (capitalize username) first_name last_name
                  email domain)))
    (Ret None).

Definition create_contact_from_name_email (name_text email : list N)
    : outcome (option (gmap string pyval)) :=
  try_except
    (let name_text := Str.sub_nonword name_text in
     let name_text := Str.strip (Str.sub_spaces name_text) in
     if negb (Str.truthy name_text) || (Str.len name_text <? 2)%Z then Ret None
     else
       let name_parts := Str.words name_text in
       names ←
         (if (2 <=? length name_parts)%nat then
            p0 ← py_index name_parts 0;
            Ret (p0, Str.join (lit " ") (drop 1 name_parts))
          else Ret (name_text, []));
       let '(first_name, last_name) := names in
       domain ← extract_domain_from_email email;
       Ret (Some (contact_literal name_text first_name last_name email domain)))
    (Ret None).

(** ** FieldExtractor *)

(** [if contact: contacts.append(contact)] *)
Definition append_if_truthy (contact : option (gmap string pyval))
    : proc (list (gmap string pyval)) unit :=
  match contact with
  | Some d => if contact_truthy contact then modify (fun cs => (cs ++ [d])%list) else mret tt
  | None => mret tt
  end.

(** The body of the loop over [contact_parts]. *)
Definition scan_part (contact_part : list N) : proc (list (gmap string pyval)) unit :=
  if negb (Str.truthy contact_part) then mret tt
  else if Str.contains (lit "<") contact_part && Str.contains (lit ">") contact_part then
    let email_start := Str.find (ch "<") contact_part in
    let email_end := Str.find (ch ">") contact_part in
    if negb (email_start =? -1)%Z && negb (email_end =? -1)%Z then
      let name_text := Str.strip (Str.slice_to contact_part email_start) in
      let email := Str.strip (Str.slice contact_part (email_start + 1) email_end) in
      ok ← (if Str.truthy name_text && Str.truthy email
            then lift (is_valid_email (PyStr email)) else mret false);
      if ok : bool then
        contact ← lift (create_contact_from_name_email name_text email);
        append_if_truthy contact
      else mret tt
    else mret tt
  else if Str.contains (lit "@") contact_part && Str.contains (lit ".") contact_part then
    let email := Str.strip contact_part in
    ok ← lift (is_valid_email (PyStr email));
    if ok : bool then
      contact ← lift (create_contact_from_email_only email);
      append_if_truthy contact
    else mret tt
  else mret tt.

(** [c and 'email' in c and is_valid_email(c['email'])] *)
Definition keep_contact (c : gmap string pyval) : outcome bool :=
  if contact_truthy (Some c) && bool_decide (is_Some (c !! "email")) then
    e ← py_getitem c "email";
    is_valid_email e
  else Ret false.

Fixpoint filter_contacts (cs : list (gmap string pyval))
    : outcome (list (gmap string pyval)) :=
  match cs with
  | [] => Ret []
  | c :: r =>
      keep ← keep_contact c;
      rest ← filter_contacts r;
      Ret (if keep : bool then c :: rest else rest)
  end.

(** The [try] block of [extract_multiple_contacts]. *)
Definition extract_body (text : pyval)
    : proc (list (gmap string pyval)) (list (gmap string pyval)) :=
  text ← lift (py_str text);
  let text := Str.strip text in
  if negb (Str.truthy text) || bool_decide (text = lit "nan")
     || bool_decide (text = lit "None")
  then get
  else
    let contact_parts := List.map Str.strip (Str.split (ch ",") text) in
    _ ← for_each contact_parts scan_part;
    contacts ← get;
    lift (filter_contacts contacts).

Definition extract_multiple_contacts (text : pyval) : outcome (list (gmap string pyval)) :=
  match extract_body text [] with
  | (Ret valid_contacts, _) => Ret valid_contacts
  | (Raise _, contacts) => Ret contacts
  end.

(** ** Deduplicator *)

(** [contact.get('email', '').strip().lower()] *)
Definition dedupe_key (contact : gmap string pyval) : outcome (list N) :=
  s ← py_strip (py_get contact "email" (PyStr []));
  Ret (lower s).

Record dedupe_state : Type := {
  unique_contacts : list (gmap string pyval);
  seen_emails : gset (list N)
}.

Definition dedupe_step (st : dedupe_state) (contact : gmap string pyval)
    : outcome dedupe_state :=
  email ← dedupe_key contact;
  if Str.truthy email && negb (bool_decide (email ∈ seen_emails st)) then
    let seen := seen_emails st ∪ {[email]} in
    let normalized := <["email" := PyStr email]> contact in
    Ret {| unique_contacts := (unique_contacts st ++ [normalized])%list;
           seen_emails := seen |}
  else Ret st.

Fixpoint dedupe_loop (st : dedupe_state) (contacts : list (gmap string pyval))
    : outcome dedupe_state :=
  match contacts with
  | [] => Ret st
  | contact :: rest => st' ← dedupe_step st contact; dedupe_loop st' rest
  end.

Definition dedupe (contacts : list (gmap string pyval))
    : outcome (list (gmap string pyval)) :=
  st ← dedupe_loop {| unique_contacts := []; seen_emails := ∅ |} contacts;
  Ret (unique_contacts st).

(** ** SourceAdapter *)

(** [if field: contacts.extend(extract_multiple_contacts(field))] *)
Definition extend_from (field : list N) (contacts : list (gmap string pyval))
    : outcome (list (gmap string pyval)) :=
  if Str.truthy field then
    extracted ← extract_multiple_contacts (PyStr field);
    Ret (contacts ++ extracted)%list
  else Ret contacts.

Fixpoint pst_rows (rows : list (list (list N))) (contacts : list (gmap string pyval))
    : outcome (list (gmap string pyval)) :=
  match rows with
  | [] => Ret contacts
  | row :: rest =>
      sender ← py_index row 0;
      contacts ← extend_from sender contacts;
      recipients ← py_index row 1;
      contacts ← extend_from recipients contacts;
      pst_rows rest contacts
  end.

Definition process_pst_rows (excel_data : list (list (list N)))
    : outcome (list (gmap string pyval)) :=
  try_except (pst_rows (drop 1 excel_data) []) (Ret []).

Definition keywords : list (list N) :=
  [lit "sender"; lit "recipient"; lit "from"; lit "to"; lit "email"; lit "name";
   lit "contact"; lit "cc"; lit "bcc"].

Definition is_contact_column (col : list N) : bool :=
  let col_lower := lower col in
  existsb (fun keyword => Str.contains keyword col_lower) keywords.

Definition contact_columns (columns : list (list N)) : list (list N) :=
  match List.filter is_contact_column columns with
  | [] => columns
  | found => found
  end.

Fixpoint excel_cells (row : gmap (list N) pyval) (cols : list (list N))
    (all_contacts : list (gmap string pyval)) : outcome (list (gmap string pyval)) :=
  match cols with
  | [] => Ret all_contacts
  | col :: rest =>
      cell ← match row !! col with Some v => Ret v | None => Raise KeyError end;
      cell_value ← py_str cell;
      all_contacts ←
        (if Str.truthy cell_value && negb (bool_decide (cell_value = lit "nan"))
            && negb (bool_decide (cell_value = lit "None"))
         then
           extracted_contacts ← extract_multiple_contacts (PyStr cell_value);
           Ret (all_contacts ++ extracted_contacts)%list
         else Ret all_contacts);
      excel_cells row rest all_contacts
  end.

Fixpoint excel_rows (rows : list (gmap (list N) pyval)) (cols : list (list N))
    (all_contacts : list (gmap string pyval)) : outcome (list (gmap string pyval)) :=
  match rows with
  | [] => Ret all_contacts
  | row :: rest =>
      all_contacts ← excel_cells row cols all_contacts;
      excel_rows rest cols all_contacts
  end.

Definition process_excel_rows (columns : list (list N))
    (rows : list (gmap (list N) pyval)) : outcome (list (gmap string pyval)) :=
  try_except (excel_rows rows (contact_columns columns) []) (Ret []).

(** The conversion from the extracted contacts on. *)
Definition convert (source : outcome (list (gmap string pyval)))
    : outcome (list (gmap string pyval)) :=
  contacts ← source;
  dedupe contacts.

End code.

(** ** Recipients of a message *)

Record recipient : Type := {
  get_name : option (list N);
  get_email_address : option (list N)
}.

(** [x or ''] *)
Definition or_empty (x : option (list N)) : list N :=
  match x with
  | Some s => s
  | None => []
  end.

Definition recipient_string (r : recipient) : option (list N) :=
  let name := or_empty (get_name r) in
  let email_addr := or_empty (get_email_address r) in
  if Str.truthy email_addr && Str.truthy name then
    Some (name ++ lit " <" ++ email_addr ++ lit ">")%list
  else if Str.truthy email_addr then Some email_addr
  else if Str.truthy name then Some name
  else None.

Definition get_recipients_list (recipients : list recipient) : list N :=
  let recipient_strings := omap recipient_string recipients in
  Str.join (lit ", ") (List.filter Str.truthy recipient_strings).

(** ** The loop on a store of objects *)

Module Store.

Inductive obj : Type :=
| ODict (d : gmap string pyval)
| OList (l : list nat).

Definition alloc (h : list obj) (o : obj) : list obj * nat :=
  ((h ++ [o])%list, length h).

Definition read_dict (h : list obj) (l : nat) : outcome (gmap string pyval) :=
  match h !! l with
  | Some (ODict d) => Ret d
  | _ => Raise TypeError
  end.

Definition read_list (h : list obj) (l : nat) : outcome (list nat) :=
  match h !! l with
  | Some (OList xs) => Ret xs
  | _ => Raise TypeError
  end.

(** [d[k] = v] *)
Definition setitem (h : list obj) (l : nat) (k : string) (v : pyval)
    : outcome (list obj) :=
  d ← read_dict h l;
  Ret (<[l := ODict (<[k := v]> d)]> h).

(** [xs.append(x)] *)
Definition append (h : list obj) (l : nat) (x : nat) : outcome (list obj) :=
  xs ← read_list h l;
  Ret (<[l := OList (xs ++ [x])%list]> h).

Section code.
Context `{Tables}.

(** One turn of the loop body: [contact] is the element just read,
    [unique] the location of the list [unique_contacts]. *)
Definition loop_body (unique : nat) (st : list obj * gset (list N)) (contact : nat)
    : outcome (list obj * gset (list N)) :=
  let '(h, seen) := st in
  d ← read_dict h contact;
  email ← dedupe_key d;
  if Str.truthy email && negb (bool_decide (email ∈ seen)) then
    let seen := seen ∪ {[email]} in
    let '(h, normalized) := alloc h (ODict d) in
    h ← setitem h normalized "email" (PyStr email);
    h ← append h unique normalized;
    Ret (h, seen)
  else Ret st.

(** [for contact in contacts]: the iterator reads element [i] of the list
    object at each turn; [None] means that the fuel ran out. *)
Fixpoint iterate (fuel : nat) (i : nat) (contacts unique : nat)
    (st : list obj * gset (list N)) : option (outcome (list obj * gset (list N))) :=
  match fuel with
  | O => None
  | S fuel =>
      match read_list (fst st) contacts with
      | Raise e => Some (Raise e)
      | Ret xs =>
          match xs !! i with
          | None => Some (Ret st)
          | Some contact =>
              match loop_body unique st contact with
              | Raise e => Some (Raise e)
              | Ret st' => iterate fuel (S i) contacts unique st'
              end
          end
      end
  end.

(** Lines 107 to 116. *)
Definition run (fuel : nat) (h : list obj) (contacts : nat)
    : option (outcome (list obj * nat)) :=
  let '(h, unique) := alloc h (OList []) in
  match iterate fuel 0 contacts unique (h, ∅) with
  | None => None
  | Some (Raise e) => Some (Raise e)
  | Some (Ret (h', _)) => Some (Ret (h', unique))
  end.

End code.

End Store.

(** ** The specification's wording *)

Module Spec.

Section spec.
Context `{Tables}.

(** Section 4.1, rules 1 to 5, on the trimmed candidate; a marker is
    looked for in the upper-case form of the candidate. *)
Definition is_valid (candidate : list N) : bool :=
  let t := Str.strip candidate in
  Str.truthy t
  && negb (Str.startswith t (lit "/"))
  && (Str.contains (lit "@") t && Str.contains (lit ".") t)
  && forallb (fun m => negb (Str.contains m (upper t))) markers
  && match Str.split (ch "@") t with
     | [username; domain] =>
         Str.truthy username && Str.truthy domain
         && Str.contains (lit ".") domain
     | _ => false
     end.

(** Section 4.5: the key of a contact; a contact without [email] has the
    empty email. *)
Definition key_of (c : gmap string pyval) : list N :=
  match py_get c "email" (PyStr []) with
  | PyStr s => lower (Str.strip s)
  | _ => []
  end.

(** Section 4.5: a contact is kept when its key is not empty and no
    earlier contact has the same key; a kept contact gets its key as
    [email]. *)
Fixpoint first_seen (earlier : list (list N)) (xs : list (gmap string pyval))
    : list (gmap string pyval) :=
  match xs with
  | [] => []
  | c :: rest =>
      let key := key_of c in
      if Str.truthy key && negb (bool_decide (key ∈ earlier))
      then <["email" := PyStr key]> c :: first_seen (earlier ++ [key]) rest
      else first_seen (earlier ++ [key]) rest
  end.

Definition dedupe (xs : list (gmap string pyval)) : list (gmap string pyval) :=
  first_seen [] xs.

(** Section 4.3, step 3a: what a part with candidate name [name] and
    candidate email [email] contributes. *)
Definition built_from (name email : list N) : list (gmap string pyval) :=
  if Str.truthy name && Str.truthy email then
    match is_valid_email (PyStr email) with
    | Ret true =>
        match create_contact_from_name_email name email with
        | Ret (Some d) => [d]
        | _ => []
        end
    | _ => []
    end
  else [].

End spec.

(** The text after the first occurrence of [c]. *)
Fixpoint after (c : N) (s : list N) : list N :=
  match s with
  | [] => []
  | a :: r => if (a =? c)%N then r else after c r
  end.

End Spec.

(** The tables of the ASCII range: a code point above 127 has no case and
    is no word character. *)
Definition ascii_lower (c : N) : N :=
  if ((65 <=? c) && (c <=? 90))%N then (c + 32)%N else c.

Definition ascii_word (c : N) : bool :=
  (((65 <=? c) && (c <=? 90)) || ((97 <=? c) && (c <=? 122))
   || ((48 <=? c) && (c <=? 57)) || (c =? 95))%N.

Definition ascii_tables : Tables :=
  {| lower := List.map ascii_lower;
     upper := List.map ascii_upper;
     capitalize := fun s => match s with
                            | [] => []
                            | c :: r => ascii_upper c :: List.map ascii_lower r
                            end;
     is_word := ascii_word;
     upper_ascii := fun s _ => eq_refl |}.

(** The data model's contact, as far as the loop reads it. *)
Definition email_is_str (c : gmap string pyval) : Prop :=
  ∃ s, py_get c "email" (PyStr []) = PyStr s.


(** ** Predicates used in the proofs *)

(** A text that is empty or starts with a character that is not blank. *)
Definition no_lead (s : list N) : Prop :=
  match s with
  | [] => True
  | c :: _ => is_space c = false
  end.

(** The set [seen_emails] and the keys read so far agree on the keys that
    are not empty. *)
Definition seen_agrees (seen : gset (list N)) (earlier : list (list N)) : Prop :=
  ∀ k, Str.truthy k = true → k ∈ seen ↔ k ∈ earlier.

(** The keys of the contacts that [Spec.first_seen] keeps. *)
Fixpoint kept_keys `{Tables} (earlier : list (list N)) (xs : list (gmap string pyval))
    : list (list N) :=
  match xs with
  | [] => []
  | c :: rest =>
      let key := Spec.key_of c in
      if Str.truthy key && negb (bool_decide (key ∈ earlier))
      then key :: kept_keys (earlier ++ [key]) rest
      else kept_keys (earlier ++ [key]) rest
  end.

(** The store [hi] during the loop started on [h0]. *)
Definition store_inv (h0 hi : list Store.obj) (us : list nat)
    (acc : list (gmap string pyval)) : Prop :=
  h0 `prefix_of` hi
  ∧ hi !! length h0 = Some (Store.OList us)
  ∧ NoDup us
  ∧ Forall2 (λ l d, hi !! l = Some (Store.ODict d)
                    ∧ (length h0 < l < length hi)%nat) us acc.

(** The keys of a contact. *)
Definition contact_fields : gset string :=
  {[ "full_name"; "first_name"; "last_name"; "email"; "domain" ]}.

(** What an extracted contact looks like: the five fields, a trimmed email
    that the validator accepts, and as domain the trimmed text after its
    [@]. *)
Definition extracted_ok `{Tables} (d : gmap string pyval) : Prop :=
  ∃ full first last email,
    d = contact_literal full first last email
          (PyStr (Str.strip (Spec.after (ch "@") email)))
    ∧ is_valid_email (PyStr email) = Ret true
    ∧ Str.strip email = email
    ∧ Str.truthy (Str.strip (Spec.after (ch "@") email)) = true
    ∧ Str.contains (lit ".") (Str.strip (Spec.after (ch "@") email)) = true.


(** Every character of [s] satisfies [P]. *)
Fixpoint all_chars (P : N → bool) (s : list N) : bool :=
  match s with
  | [] => true
  | c :: r => P c && all_chars P r
  end.

(** Every blank of [s] is a space and is not followed by a blank. *)
Fixpoint spaced (s : list N) : Prop :=
  match s with
  | [] => True
  | c :: r => (is_space c = true → c = ch " " ∧ no_lead r) ∧ spaced r
  end.

(** Every blank of [s] is a space between two characters that are not
    blank, the first character apart. *)
Fixpoint tidy (s : list N) : Prop :=
  match s with
  | [] => True
  | c :: r => (is_space c = true → c = ch " " ∧ no_lead r ∧ r ≠ []) ∧ tidy r
  end.

(** A character of a cleaned name: a word character of [re] or a space. *)
Definition name_char `{Tables} (c : N) : bool :=
  is_word c || (c =? ch " ")%N.

(** The name as [create_contact_from_name_email] cleans it. *)
Definition clean_name `{Tables} (name_text : list N) : list N :=
  Str.strip (Str.sub_spaces (Str.sub_nonword name_text)).


(** What one part of a field adds to [contacts]: the list after the turn of
    the loop, started from the empty list. *)
Definition part_contacts `{Tables} (contact_part : list N)
    : list (gmap string pyval) :=
  snd (scan_part contact_part []).

(** A contact of the final output: the five fields; as email the lower-case
    form, not empty, of a trimmed address that the validator accepts; and as
    domain the trimmed text after the [@] of that address, in the case the
    address had. *)
Definition output_contact `{Tables} (y : gmap string pyval) : Prop :=
  ∃ full first last address,
    y = contact_literal full first last (lower address)
          (PyStr (Str.strip (Spec.after (ch "@") address)))
    ∧ is_valid_email (PyStr address) = Ret true
    ∧ Str.strip address = address
    ∧ Str.truthy (lower address) = true.

(** A recipient with a display name and an address that survive the
    formatting: the name is trimmed, holds no comma and no angle bracket,
    and keeps two characters or more when cleaned; the address is trimmed,
    holds no comma and no [>], and is accepted by the validator. *)
Definition plain_recipient `{Tables} (r : recipient) (name email : list N)
    : Prop :=
  get_name r = Some name
  ∧ get_email_address r = Some email
  ∧ Str.strip name = name
  ∧ Str.contains (lit ",") name = false
  ∧ Str.contains (lit "<") name = false
  ∧ Str.contains (lit ">") name = false
  ∧ (2 ≤ Str.len (clean_name name))%Z
  ∧ Str.strip email = email
  ∧ Str.contains (lit ",") email = false
  ∧ Str.contains (lit ">") email = false
  ∧ is_valid_email (PyStr email) = Ret true.

(** ** Sample data *)

Definition alice_upper : gmap string pyval :=
  contact_literal (lit "Alice Adams") (lit "Alice") (lit "Adams") (lit "A@x.com")
    (PyStr (lit "x.com")).

Definition alice_lower : gmap string pyval :=
  contact_literal (lit "Al Baker") (lit "Al") (lit "Baker") (lit "a@x.com")
    (PyStr (lit "x.com")).

Definition alice_kept : gmap string pyval :=
  contact_literal (lit "Alice Adams") (lit "Alice") (lit "Adams") (lit "a@x.com")
    (PyStr (lit "x.com")).

(** A store with the two sample contacts and the list [contacts]. *)
Definition sample_store : list Store.obj :=
  [Store.ODict alice_upper; Store.ODict alice_lower; Store.OList [0; 1]%nat].

Definition jane : recipient :=
  {| get_name := Some (lit "Jane Doe");
     get_email_address := Some (lit "jane@x.com") |}.

Definition bob : recipient :=
  {| get_name := Some (lit "Bob Ray");
     get_email_address := Some (lit "bob@y.org") |}.

End U.

(** * Facts about characters and strings *)

Lemma is_space_lower_char c : Str.is_space (Str.lower_char c) = Str.is_space c.
Proof. each_char c. Qed.

Lemma lower_char_idem c : Str.lower_char (Str.lower_char c) = Str.lower_char c.
Proof. each_char c. Qed.

Lemma lower_upper_char c : Str.lower_char (Str.upper_char c) = Str.lower_char c.
Proof. each_char c. Qed.

Lemma upper_lower_char c : Str.upper_char (Str.lower_char c) = Str.upper_char c.
Proof. each_char c. Qed.

Lemma truthy_map f s : Str.truthy (Str.map f s) = Str.truthy s.
Proof. by destruct s. Qed.

Lemma truthy_false s : Str.truthy s = false → s = "".
Proof. by destruct s. Qed.

Lemma lower_cons c s :
  Str.lower (String c s) = String (Str.lower_char c) (Str.lower s).
Proof. reflexivity. Qed.

Lemma upper_cons c s :
  Str.upper (String c s) = String (Str.upper_char c) (Str.upper s).
Proof. reflexivity. Qed.

Lemma truthy_lower s : Str.truthy (Str.lower s) = Str.truthy s.
Proof. apply truthy_map. Qed.

Lemma lower_idem s : Str.lower (Str.lower s) = Str.lower s.
Proof.
  induction s as [|c s IH]; [done|].
  by rewrite !lower_cons, lower_char_idem, IH.
Qed.

Lemma lstrip_lower s : Str.lstrip (Str.lower s) = Str.lower (Str.lstrip s).
Proof.
  induction s as [|c s IH]; [done|].
  rewrite lower_cons. simpl. rewrite is_space_lower_char.
  by destruct (Str.is_space c).
Qed.

Lemma rstrip_lower s : Str.rstrip (Str.lower s) = Str.lower (Str.rstrip s).
Proof.
  induction s as [|c s IH]; [done|].
  rewrite lower_cons. simpl. rewrite IH, is_space_lower_char, truthy_lower.
  by destruct (Str.is_space c && negb (Str.truthy (Str.rstrip s))).
Qed.

Lemma strip_lower s : Str.strip (Str.lower s) = Str.lower (Str.strip s).
Proof. unfold Str.strip. by rewrite lstrip_lower, rstrip_lower. Qed.

Lemma lstrip_no_lead s : no_lead (Str.lstrip s).
Proof.
  induction s as [|c s IH]; simpl; [done|].
  destruct (Str.is_space c) eqn:E; [done|]. exact E.
Qed.

Lemma lstrip_id s : no_lead s → Str.lstrip s = s.
Proof. destruct s as [|c s]; simpl; [done|]. by intros ->. Qed.

Lemma rstrip_no_lead s : no_lead s → no_lead (Str.rstrip s).
Proof.
  destruct s as [|c s]; simpl; [done|]. intros E. rewrite E. exact E.
Qed.

Lemma rstrip_idem s : Str.rstrip (Str.rstrip s) = Str.rstrip s.
Proof.
  induction s as [|c s IH]; simpl; [done|].
  destruct (Str.is_space c) eqn:Ec; simpl.
  - destruct (Str.truthy (Str.rstrip s)) eqn:Et; simpl; [|done].
    by rewrite IH, Ec, Et.
  - by rewrite IH, Ec.
Qed.

Lemma strip_idem s : Str.strip (Str.strip s) = Str.strip s.
Proof.
  unfold Str.strip.
  rewrite (lstrip_id (Str.rstrip _)) by apply rstrip_no_lead, lstrip_no_lead.
  apply rstrip_idem.
Qed.

Lemma key_stable s :
  Str.lower (Str.strip (Str.lower (Str.strip s))) = Str.lower (Str.strip s).
Proof. by rewrite strip_lower, strip_idem, lower_idem. Qed.

(** * AddressValidator *)

Lemma same_letter_upper a b :
  Str.upper_char a = a →
  (if ascii_dec a (Str.upper_char b) then true else false) = Spec.same_letter a b.
Proof.
  intros Ha. unfold Spec.same_letter.
  destruct (ascii_dec a (Str.upper_char b)) as [E|E].
  - symmetry. apply Ascii.eqb_eq. by rewrite E, lower_upper_char.
  - symmetry. apply Ascii.eqb_neq. intros L. apply E.
    by rewrite <- Ha, <- upper_lower_char, L, upper_lower_char.
Qed.

Lemma prefix_upper_ci p s :
  Str.upper p = p → String.prefix p (Str.upper s) = Spec.prefix_ci p s.
Proof.
  revert s. induction p as [|a p IH]; intros s Hp.
  - by destruct s.
  - rewrite upper_cons in Hp. injection Hp as Ha Hp.
    destruct s as [|b s]; [done|].
    rewrite upper_cons. simpl.
    rewrite <- (same_letter_upper a b Ha), <- (IH s Hp).
    by destruct (ascii_dec a (Str.upper_char b)).
Qed.

Lemma contains_upper_ci p s :
  Str.upper p = p → Str.contains p (Str.upper s) = Spec.contains_ci p s.
Proof.
  intros Hp. induction s as [|b s IH].
  - by destruct p.
  - rewrite upper_cons. simpl. rewrite <- IH.
    rewrite <- (prefix_upper_ci p (String b s) Hp), upper_cons. done.
Qed.

Lemma markers_upper : Forall (fun m => Str.upper m = m) markers.
Proof. repeat constructor. Qed.

Lemma markers_ci s :
  existsb (fun p => Str.contains p (Str.upper s)) markers
  = negb (forallb (fun m => negb (Spec.contains_ci m s)) markers).
Proof.
  induction markers_upper as [|m ms Hm _ IH]; [done|].
  simpl. rewrite IH, (contains_upper_ci m s Hm), negb_andb, negb_involutive. done.
Qed.

Lemma is_valid_email_body_str s :
  is_valid_email_body (PyStr s) = Ret (Spec.is_valid s).
Proof.
  unfold is_valid_email_body, Spec.is_valid, Str.startswith.
  cbn [isinstance_str negb py_strip mbind outcome_bind].
  rewrite markers_ci.
  generalize (forallb (λ m, negb (Spec.contains_ci m (Str.strip s))) markers).
  intros no_marker.
  destruct (Str.truthy (Str.strip s)); [|done].
  destruct (String.prefix "/" (Str.strip s)); [done|].
  destruct (Str.contains "@" (Str.strip s)); [|done].
  destruct (Str.contains "." (Str.strip s)); [|done].
  destruct no_marker; [|done].
  destruct (Str.split "@" (Str.strip s)) as [|u [|d [|x r]]]; try done.
  cbn.
  destruct (Str.truthy u); [|done].
  destruct (Str.truthy d); [|done].
  by destruct (Str.contains "." d).
Qed.

Lemma is_valid_email_str s :
  is_valid_email (PyStr s) = Ret (Spec.is_valid s).
Proof. unfold is_valid_email. by rewrite is_valid_email_body_str. Qed.



(** * Deduplicator *)

Lemma dedupe_key_ok c : email_is_str c → dedupe_key c = Ret (Spec.key_of c).
Proof.
  intros [s Hs]. unfold dedupe_key, Spec.key_of, py_get in *.
  destruct (c !! "email") as [v|]; simplify_eq; done.
Qed.

Lemma seen_agrees_empty : seen_agrees ∅ [].
Proof. intros k _. set_solver. Qed.

Lemma seen_agrees_keep seen earlier k :
  seen_agrees seen earlier → seen_agrees (seen ∪ {[k]}) (earlier ++ [k]).
Proof.
  intros Hag k' Hk'. rewrite elem_of_union, elem_of_singleton, elem_of_app,
    list_elem_of_singleton, (Hag k' Hk'). done.
Qed.

Lemma seen_agrees_skip seen earlier k :
  seen_agrees seen earlier →
  Str.truthy k && negb (bool_decide (k ∈ seen)) = false →
  seen_agrees seen (earlier ++ [k]).
Proof.
  intros H Hk k' Hk'. specialize (H k' Hk').
  rewrite elem_of_app, list_elem_of_singleton.
  split; [tauto|]. intros [?| ->]; [tauto|].
  rewrite Hk' in Hk. simpl in Hk.
  apply negb_false_iff, bool_decide_eq_true in Hk. done.
Qed.

Lemma seen_agrees_test seen earlier k :
  seen_agrees seen earlier →
  Str.truthy k && negb (bool_decide (k ∈ seen))
  = Str.truthy k && negb (bool_decide (k ∈ earlier)).
Proof.
  intros H. destruct (Str.truthy k) eqn:Hk; [|done]. simpl. f_equal.
  apply bool_decide_ext. by apply H.
Qed.

Lemma dedupe_loop_first_seen xs :
  Forall email_is_str xs →
  ∀ st earlier,
    seen_agrees (seen_emails st) earlier →
    ∃ st',
      dedupe_loop st xs = Ret st'
      ∧ unique_contacts st' = (unique_contacts st ++ Spec.first_seen earlier xs)%list.
Proof.
  induction 1 as [|c xs Hc _ IH]; intros st earlier Hseen.
  - exists st. by rewrite app_nil_r.
  - cbn [dedupe_loop Spec.first_seen]. unfold dedupe_step.
    rewrite (dedupe_key_ok c Hc). cbn [mbind outcome_bind].
    rewrite <- (seen_agrees_test _ _ _ Hseen).
    destruct (Str.truthy (Spec.key_of c)
              && negb (bool_decide (Spec.key_of c ∈ seen_emails st))) eqn:Hk.
    + edestruct IH as (st' & Hrun & Hout);
        [|exists st'; split; [exact Hrun|]].
      * cbn [seen_emails]. by apply seen_agrees_keep.
      * rewrite Hout. cbn [unique_contacts]. by rewrite <- app_assoc.
    + destruct (IH st (earlier ++ [Spec.key_of c])%list) as (st' & Hrun & Hout);
        [by apply seen_agrees_skip|].
      exists st'. done.
Qed.

Lemma dedupe_refines xs :
  Forall email_is_str xs → dedupe xs = Ret (Spec.dedupe xs).
Proof.
  intros Hxs. unfold dedupe.
  destruct (dedupe_loop_first_seen xs Hxs
              {| unique_contacts := []; seen_emails := ∅ |} [])
    as (st' & Hrun & Hout); [apply seen_agrees_empty|].
  rewrite Hrun. cbn [mbind outcome_bind]. by rewrite Hout.
Qed.

Lemma normalized_key c k :
  c !! "email" = Some (PyStr k) → Str.lower (Str.strip k) = k → Spec.key_of c = k.
Proof. intros Hc Hk. unfold Spec.key_of. by rewrite Hc. Qed.

Lemma normalized_email_is_str c : normalized c → email_is_str c.
Proof. intros (k & Hk & _). exists k. unfold py_get. by rewrite Hk. Qed.

Lemma normalized_insert c :
  Str.truthy (Spec.key_of c) = true →
  normalized (<["email" := PyStr (Spec.key_of c)]> c).
Proof.
  intros Hk. exists (Spec.key_of c). rewrite lookup_insert_eq.
  split; [done|]. split; [done|].
  unfold Spec.key_of in *. destruct (c !! "email") as [[| |s|]|]; try done.
  apply key_stable.
Qed.

Lemma first_seen_normalized xs :
  ∀ earlier, Forall normalized (Spec.first_seen earlier xs).
Proof.
  induction xs as [|c xs IH]; intros earlier; cbn [Spec.first_seen]; [done|].
  destruct (Str.truthy (Spec.key_of c)) eqn:Hk; [|apply IH].
  destruct (bool_decide (Spec.key_of c ∈ earlier)); cbn [andb negb]; [apply IH|].
  constructor; [by apply normalized_insert|apply IH].
Qed.

Lemma first_seen_keys_fresh xs :
  ∀ earlier k,
    k ∈ List.map Spec.key_of (Spec.first_seen earlier xs) → k ∉ earlier.
Proof.
  induction xs as [|c xs IH]; intros earlier k; cbn [Spec.first_seen].
  - by intros ?%elem_of_nil.
  - assert (∀ k', k' ∈ List.map Spec.key_of
                          (Spec.first_seen (earlier ++ [Spec.key_of c]) xs) →
                  k' ∉ earlier) as Hrest.
    { intros k' Hk' Hin. apply (IH _ _ Hk'), elem_of_app. by left. }
    destruct (Str.truthy (Spec.key_of c)) eqn:Hk; [|apply Hrest].
    destruct (bool_decide (Spec.key_of c ∈ earlier)) eqn:Hd;
      cbn [andb negb]; [apply Hrest|].
    cbn [List.map]. intros [->|Hin]%elem_of_cons; [|by apply Hrest].
    apply bool_decide_eq_false in Hd.
    destruct (normalized_insert c Hk) as (k & Hl & _ & Hst).
    rewrite (normalized_key _ k Hl Hst).
    rewrite lookup_insert_eq in Hl. by simplify_eq.
Qed.

Lemma first_seen_keys_NoDup xs :
  ∀ earlier, NoDup (List.map Spec.key_of (Spec.first_seen earlier xs)).
Proof.
  induction xs as [|c xs IH]; intros earlier; cbn [Spec.first_seen].
  - constructor.
  - destruct (Str.truthy (Spec.key_of c)) eqn:Hk; [|apply IH].
    destruct (bool_decide (Spec.key_of c ∈ earlier)); cbn [andb negb]; [apply IH|].
    cbn [List.map]. constructor; [|apply IH].
    intros Hin. apply first_seen_keys_fresh in Hin. apply Hin, elem_of_app. right.
    destruct (normalized_insert c Hk) as (k & Hl & _ & Hst).
    rewrite (normalized_key _ k Hl Hst).
    rewrite lookup_insert_eq in Hl. simplify_eq. by apply list_elem_of_singleton.
Qed.

(** A list of stored contacts with distinct keys, none of them met before,
    is kept as it is. *)
Lemma first_seen_fixed ys :
  Forall normalized ys →
  NoDup (List.map Spec.key_of ys) →
  ∀ earlier,
    (∀ k, k ∈ List.map Spec.key_of ys → k ∉ earlier) →
    Spec.first_seen earlier ys = ys.
Proof.
  induction 1 as [|y ys (k & Hl & Ht & Hst) _ IH]; intros Hnd earlier Hfresh;
    [done|].
  cbn [List.map] in Hnd, Hfresh. apply NoDup_cons in Hnd as [Hy Hnd].
  cbn [Spec.first_seen]. rewrite (normalized_key y k Hl Hst) in *.
  rewrite Ht, bool_decide_eq_false_2 by (apply Hfresh; by left).
  cbn [andb negb]. rewrite insert_id by done. f_equal.
  apply IH; [done|]. intros k' Hk' [Hin| ->%list_elem_of_singleton]%elem_of_app.
  - apply (Hfresh k'); [by right|done].
  - done.
Qed.

Lemma first_seen_idempotent xs :
  Spec.dedupe (Spec.dedupe xs) = Spec.dedupe xs.
Proof.
  unfold Spec.dedupe. apply first_seen_fixed.
  - apply first_seen_normalized.
  - apply first_seen_keys_NoDup.
  - intros k _. apply not_elem_of_nil.
Qed.

Lemma first_seen_length xs :
  ∀ earlier, (length (Spec.first_seen earlier xs) ≤ length xs)%nat.
Proof.
  induction xs as [|c xs IH]; intros earlier; cbn [Spec.first_seen]; [done|].
  destruct (_ && _); cbn [length]; [apply le_n_S|apply Nat.le_le_succ_r]; apply IH.
Qed.

Lemma sample_contacts_ok : Forall email_is_str [alice_upper; alice_lower].
Proof. repeat constructor; eexists; reflexivity. Qed.



(** C7: deduplication is idempotent: the loop run on its own output returns
    that output. *)
Theorem dedupe_idempotent (xs : list (gmap string pyval)) :
  Forall email_is_str xs →
  ∃ ys, dedupe xs = Ret ys ∧ dedupe ys = Ret ys.
Proof.
  intros Hxs. exists (Spec.dedupe xs). split; [by apply dedupe_refines|].
  rewrite dedupe_refines.
  - by rewrite first_seen_idempotent.
  - eapply Forall_impl; [apply first_seen_normalized|].
    apply normalized_email_is_str.
Qed.

Lemma dedupe_idempotent_witness :
  Forall email_is_str [alice_upper; alice_lower]
  ∧ ∃ ys, dedupe [alice_upper; alice_lower] = Ret ys ∧ dedupe ys = Ret ys.
Proof.
  split; [exact sample_contacts_ok|].
  exact (dedupe_idempotent _ sample_contacts_ok).
Defined.

(** C8: the output of [dedupe] is no longer than its input, and when the
    statistics are shown, the count of removed duplicates is the length of
    the input minus the length of the output (the total and the unique
    count being these two lengths). *)
Theorem dedupe_count (xs : list (gmap string pyval)) :
  Forall email_is_str xs →
  ∃ ys,
    dedupe xs = Ret ys
    ∧ (length ys ≤ length xs)%nat
    ∧ match statistics xs ys with
      | Some m =>
          total_contacts m = Z.of_nat (length xs)
          ∧ unique_count m = Z.of_nat (length ys)
          ∧ duplicates_removed m = Z.of_nat (length xs - length ys)
      | None => ys = []
      end.
Proof.
  intros Hxs. exists (Spec.dedupe xs).
  pose proof (first_seen_length xs []) as Hlen. fold (Spec.dedupe xs) in Hlen.
  split; [by apply dedupe_refines|]. split; [done|].
  unfold statistics. destruct (Spec.dedupe xs) as [|y ys] eqn:E; [done|].
  cbn [total_contacts unique_count duplicates_removed]. unfold py_len.
  split; [done|]. split; [done|]. lia.
Qed.

Lemma dedupe_count_witness :
  Forall email_is_str [alice_upper; alice_lower]
  ∧ ∃ ys,
      dedupe [alice_upper; alice_lower] = Ret ys
      ∧ (length ys ≤ 2)%nat
      ∧ match statistics [alice_upper; alice_lower] ys with
        | Some m =>
            total_contacts m = 2%Z
            ∧ unique_count m = Z.of_nat (length ys)
            ∧ duplicates_removed m = Z.of_nat (2 - length ys)
        | None => ys = []
        end.
Proof.
  split; [exact sample_contacts_ok|].
  exact (dedupe_count _ sample_contacts_ok).
Defined.

(** * The loop on the store *)

Lemma prefix_insert_ge {A} (h hi : list A) (l : nat) (x : A) :
  h `prefix_of` hi → (length h ≤ l)%nat → h `prefix_of` <[l := x]> hi.
Proof.
  intros [k ->] Hl. rewrite insert_app_r_alt by done. by apply prefix_app_r.
Qed.










(** * Splitting, searching and slicing *)

Lemma append_cons x a b : String x a ++ b = String x (a ++ b).
Proof. reflexivity. Qed.

Lemma append_nil b : "" ++ b = b.
Proof. reflexivity. Qed.

Lemma prefix_empty s : String.prefix "" s = true.
Proof. by destruct s. Qed.

Lemma contains_char_cons c a r :
  Str.contains (String c "") (String a r)
  = Ascii.eqb a c || Str.contains (String c "") r.
Proof.
  cbn [Str.contains String.prefix]. rewrite prefix_empty.
  destruct (ascii_dec c a) as [->|Hne].
  - by rewrite Ascii.eqb_refl.
  - rewrite (proj2 (Ascii.eqb_neq a c)) by congruence. done.
Qed.


Lemma split_nonempty c s : ∃ h t, Str.split c s = h :: t.
Proof.
  induction s as [|a s (h & t & IH)]; cbn [Str.split]; [by eauto|].
  destruct (Ascii.eqb a c); [by eauto|]. rewrite IH. by eauto.
Qed.



Lemma split_single_inv c s d : Str.split c s = [d] → s = d.
Proof.
  revert d. induction s as [|a s IH]; intros d; cbn [Str.split].
  - by intros [= <-].
  - destruct (split_nonempty c s) as (h & t & E). rewrite E in *.
    destruct (Ascii.eqb a c); [done|].
    intros [= <- ->]. by rewrite (IH h).
Qed.

Lemma split_pair_after c s u d :
  Str.split c s = [u; d] → Spec.after c s = d.
Proof.
  revert u. induction s as [|a s IH]; intros u; cbn [Str.split Spec.after].
  - done.
  - destruct (Ascii.eqb a c).
    + intros [= _ H]. by apply split_single_inv in H.
    + destruct (split_nonempty c s) as (h & t & E). rewrite E in *.
      intros [= _ ->]. by apply (IH h).
Qed.

Lemma contains_char_lstrip c s :
  Str.is_space c = false →
  Str.contains (String c "") (Str.lstrip s) = Str.contains (String c "") s.
Proof.
  intros Hc. induction s as [|a s IH]; [done|].
  cbn [Str.lstrip]. destruct (Str.is_space a) eqn:Ha; [|done].
  rewrite contains_char_cons, IH.
  destruct (Ascii.eqb_spec a c) as [->|]; [congruence|done].
Qed.

Lemma contains_char_rstrip c s :
  Str.is_space c = false →
  Str.contains (String c "") (Str.rstrip s) = Str.contains (String c "") s.
Proof.
  intros Hc. induction s as [|a s IH]; [done|].
  cbn [Str.rstrip]. rewrite contains_char_cons.
  destruct (Str.is_space a && negb (Str.truthy (Str.rstrip s))) eqn:E.
  - apply andb_prop in E as [Ha Hr]. apply negb_true_iff, truthy_false in Hr.
    rewrite <- IH, Hr.
    destruct (Ascii.eqb_spec a c) as [->|]; [congruence|done].
  - by rewrite contains_char_cons, IH.
Qed.

Lemma contains_char_strip c s :
  Str.is_space c = false →
  Str.contains (String c "") (Str.strip s) = Str.contains (String c "") s.
Proof.
  intros Hc. unfold Str.strip.
  by rewrite contains_char_rstrip, contains_char_lstrip.
Qed.

Lemma contains_char_truthy c s :
  Str.contains (String c "") s = true → Str.truthy s = true.
Proof. by destruct s. Qed.

(** * ContactBuilder *)

Lemma try_except_returns {A} (body : outcome A) (a : A) :
  ∃ r, try_except body (Ret a) = Ret r.
Proof. destruct body; by eauto. Qed.

Lemma extract_domain_returns e : ∃ v, extract_domain_from_email e = Ret v.
Proof.
  unfold extract_domain_from_email.
  destruct (_ || _); [by eauto|]. apply try_except_returns.
Qed.

(** What the validator has checked, on an email that is already trimmed. *)
Lemma is_valid_parts e :
  Spec.is_valid e = true → Str.strip e = e →
  ∃ u d,
    Str.split "@" e = [u; d]
    ∧ Str.truthy e = true ∧ Str.contains "@" e = true
    ∧ Str.truthy u = true ∧ Str.truthy d = true ∧ Str.contains "." d = true.
Proof.
  unfold Spec.is_valid. intros Hv He. rewrite He in Hv.
  apply andb_prop in Hv as [Hv Hparts]. apply andb_prop in Hv as [Hv _].
  apply andb_prop in Hv as [Hv Hat]. apply andb_prop in Hv as [Ht _].
  apply andb_prop in Hat as [Hat _].
  destruct (Str.split "@" e) as [|u [|d [|x r]]]; try done.
  apply andb_prop in Hparts as [Hparts Hdot].
  apply andb_prop in Hparts as [Hu Hd].
  exists u, d. done.
Qed.

Lemma extract_domain_valid e :
  Spec.is_valid e = true → Str.strip e = e →
  extract_domain_from_email e = Ret (PyStr (Str.strip (Spec.after "@" e)))
  ∧ Str.truthy (Str.strip (Spec.after "@" e)) = true
  ∧ Str.contains "." (Str.strip (Spec.after "@" e)) = true.
Proof.
  intros Hv He.
  destruct (is_valid_parts e Hv He) as (u & d & Hs & Ht & Hat & _ & _ & Hdot).
  rewrite (split_pair_after _ _ _ _ Hs).
  assert (Str.contains "." (Str.strip d) = true) as Hdot'
    by (by rewrite contains_char_strip).
  split; [|split; [by eapply contains_char_truthy|done]].
  unfold extract_domain_from_email. by rewrite Ht, Hat, Hs.
Qed.

(** The first and last name that [create_contact_from_email_only] derives
    from a local part. *)
Lemma email_only_result e local rest dom :
  Str.split "@" e = local :: rest →
  extract_domain_from_email e = Ret dom →
  create_contact_from_email_only e
  = Ret (Some
      (if Str.contains "." local then
         match Str.split "." local with
         | p0 :: p1 :: _ =>
             contact_literal (Str.capitalize local) (Str.capitalize p0)
               (Str.capitalize p1) e dom
         | _ => contact_literal (Str.capitalize local) (Str.capitalize local) "" e dom
         end
       else contact_literal (Str.capitalize local) (Str.capitalize local) "" e dom)).
Proof.
  intros Hs Hdom. unfold create_contact_from_email_only.
  rewrite Hs. cbn [py_index lookup list_lookup mbind outcome_bind].
  destruct (Str.contains "." local).
  - destruct (Str.split "." local) as [|p0 [|p1 r]];
      cbn; by rewrite Hdom.
  - cbn. by rewrite Hdom.
Qed.

Lemma email_only_shape e :
  ∃ full first last dom,
    extract_domain_from_email e = Ret dom
    ∧ create_contact_from_email_only e
      = Ret (Some (contact_literal full first last e dom)).
Proof.
  destruct (split_nonempty "@" e) as (local & rest & Hs).
  destruct (extract_domain_returns e) as (dom & Hdom).
  pose proof (email_only_result e local rest dom Hs Hdom) as H.
  destruct (Str.contains "." local);
    [destruct (Str.split "." local) as [|p0 [|p1 r]]|]; by eauto 10.
Qed.

Lemma name_email_shape name e :
  create_contact_from_name_email name e = Ret None
  ∨ ∃ full first last dom,
      extract_domain_from_email e = Ret dom
      ∧ create_contact_from_name_email name e
        = Ret (Some (contact_literal full first last e dom)).
Proof.
  destruct (extract_domain_returns e) as (dom & Hdom).
  unfold create_contact_from_name_email.
  destruct (_ || _); [by left|].
  destruct (2 <=? _)%nat.
  - destruct (Str.words _) as [|p0 r]; cbn; rewrite Hdom; cbn; [by left|].
    right. by eauto 10.
  - cbn. rewrite Hdom. right. by eauto 10.
Qed.

Lemma contact_literal_nonempty full first last e dom :
  contact_literal full first last e dom ≠ ∅.
Proof. apply insert_non_empty. Qed.

Lemma contact_literal_lookup full first last e dom :
  contact_literal full first last e dom !! "full_name" = Some (PyStr full)
  ∧ contact_literal full first last e dom !! "first_name" = Some (PyStr first)
  ∧ contact_literal full first last e dom !! "last_name" = Some (PyStr last)
  ∧ contact_literal full first last e dom !! "email" = Some (PyStr e)
  ∧ contact_literal full first last e dom !! "domain" = Some dom.
Proof. unfold contact_literal. repeat split; by simplify_map_eq. Qed.







(** * [find] and slices *)


Lemma find_bounds c s : (-1 ≤ Str.find c s < Str.len s)%Z.
Proof.
  unfold Str.len. induction s as [|a s IH]; cbn [Str.find String.length]; [lia|].
  destruct (Ascii.eqb a c); [lia|].
  destruct (Z.eqb_spec (Str.find c s) (-1)); lia.
Qed.

Lemma find_contains c s :
  Str.contains (String c "") s = true → Str.find c s ≠ (-1)%Z.
Proof.
  induction s as [|a s IH]; [done|].
  rewrite contains_char_cons. cbn [Str.find].
  destruct (Ascii.eqb a c); [done|]. cbn [orb]. intros Hs.
  pose proof (find_bounds c s).
  destruct (Z.eqb_spec (Str.find c s) (-1)); [by apply IH in Hs|lia].
Qed.








(** * FieldExtractor *)

Lemma built_from_ok name e :
  Str.strip e = e → Forall extracted_ok (Spec.built_from name e).
Proof.
  intros He. unfold Spec.built_from.
  destruct (_ && _); [|done].
  rewrite is_valid_email_str. destruct (Spec.is_valid e) eqn:Hv; [|done].
  destruct (extract_domain_valid e Hv He) as (Hdom & Ht & Hdot).
  destruct (name_email_shape name e) as [->|(full & first & last & dom & Hd & ->)];
    [done|].
  rewrite Hdom in Hd. injection Hd as <-.
  constructor; [|done]. exists full, first, last, e.
  by rewrite is_valid_email_str, Hv.
Qed.

(** What a part without the two brackets contributes. *)
Lemma bare_ok e :
  Str.strip e = e →
  Spec.is_valid e = true →
  ∃ d, create_contact_from_email_only e = Ret (Some d) ∧ d ≠ ∅ ∧ extracted_ok d.
Proof.
  intros He Hv.
  destruct (extract_domain_valid e Hv He) as (Hdom & Ht & Hdot).
  destruct (email_only_shape e) as (full & first & last & dom & Hd & ->).
  rewrite Hdom in Hd. injection Hd as <-.
  eexists. split; [done|]. split; [apply contact_literal_nonempty|].
  exists full, first, last, e. by rewrite is_valid_email_str, Hv.
Qed.

Lemma append_if_truthy_literal d cs :
  d ≠ ∅ → append_if_truthy (Some d) cs = (Ret tt, (cs ++ [d])%list).
Proof.
  intros Hd. unfold append_if_truthy, contact_truthy.
  by rewrite bool_decide_eq_false_2.
Qed.

(** The turn of the loop on a part with both brackets. *)
Lemma scan_part_brackets_eq part cs :
  Str.truthy part = true →
  Str.contains "<" part = true →
  Str.contains ">" part = true →
  scan_part part cs
  = (Ret tt,
     (cs ++ Spec.built_from
              (Str.strip (Str.slice_to part (Str.find "<" part)))
              (Str.strip (Str.slice part (Str.find "<" part + 1)
                            (Str.find ">" part))))%list).
Proof.
  intros Ht Hlt Hgt. unfold scan_part. rewrite Ht, Hlt, Hgt. cbn [negb andb].
  rewrite (proj2 (Z.eqb_neq _ _) (find_contains _ _ Hlt)).
  rewrite (proj2 (Z.eqb_neq _ _) (find_contains _ _ Hgt)). cbn [negb andb].
  set (name := Str.strip _). set (e := Str.strip _).
  unfold Spec.built_from, mbind, proc_bind, lift, mret, proc_ret.
  destruct (Str.truthy name && Str.truthy e); [|by rewrite app_nil_r].
  rewrite is_valid_email_str.
  destruct (Spec.is_valid e); [|by rewrite app_nil_r].
  destruct (name_email_shape name e) as [->|(full & first & last & dom & _ & ->)].
  - cbn. by rewrite app_nil_r.
  - apply append_if_truthy_literal, contact_literal_nonempty.
Qed.

Lemma scan_part_appends part cs :
  ∃ new, scan_part part cs = (Ret tt, (cs ++ new)%list) ∧ Forall extracted_ok new.
Proof.
  destruct (Str.truthy part) eqn:Ht.
  2:{ exists []. unfold scan_part. rewrite Ht. by rewrite app_nil_r. }
  destruct (Str.contains "<" part && Str.contains ">" part) eqn:Hb.
  - apply andb_prop in Hb as [Hlt Hgt].
    eexists. split; [by apply scan_part_brackets_eq|].
    apply built_from_ok, strip_idem.
  - unfold scan_part. rewrite Ht, Hb. cbn [negb].
    destruct (Str.contains "@" part && Str.contains "." part);
      [|exists []; by rewrite app_nil_r].
    unfold mbind, proc_bind, lift, mret, proc_ret.
    rewrite is_valid_email_str.
    destruct (Spec.is_valid (Str.strip part)) eqn:Hv;
      [|exists []; by rewrite app_nil_r].
    destruct (bare_ok _ (strip_idem part) Hv) as (d & -> & Hne & Hok).
    exists [d]. split; [by apply append_if_truthy_literal|].
    by constructor.
Qed.





Lemma contact_literal_dom full first last e (v : pyval) :
  dom (contact_literal full first last e v) = contact_fields.
Proof.
  unfold contact_literal, contact_fields.
  rewrite !dom_insert_L, dom_empty_L. set_solver.
Qed.











(** * More on the validator *)


Lemma upper_not_lower a : Str.is_upper a = true → Str.is_lower a = false.
Proof. each_char a. Qed.








Lemma is_valid_strip s : Spec.is_valid (Str.strip s) = Spec.is_valid s.
Proof. unfold Spec.is_valid. by rewrite strip_idem. Qed.



Lemma split_single_no_sep c s d :
  Str.split c s = [d] → Str.contains (String c "") d = false.
Proof.
  revert d. induction s as [|a s IH]; intros d; cbn [Str.split].
  - by intros [= <-].
  - destruct (split_nonempty c s) as (h & t & E). rewrite E in *.
    destruct (Ascii.eqb a c) eqn:Ha; [done|].
    intros [= <- ->]. rewrite contains_char_cons, Ha. by apply IH.
Qed.

Lemma split_pair_inv c s u d :
  Str.split c s = [u; d] →
  s = u ++ String c d
  ∧ Str.contains (String c "") u = false
  ∧ Str.contains (String c "") d = false.
Proof.
  revert u. induction s as [|a s IH]; intros u; cbn [Str.split]; [done|].
  destruct (Ascii.eqb_spec a c) as [->|Hne].
  - intros [= <- H]. rewrite (split_single_inv _ _ _ H) in *.
    split; [done|]. split; [done|]. by eapply split_single_no_sep.
  - destruct (split_nonempty c s) as (h & t & E). rewrite E in *.
    intros [= <- ->]. destruct (IH h eq_refl) as (-> & Hh & Hd).
    split; [done|]. split; [|done].
    rewrite contains_char_cons, Hh. by rewrite (proj2 (Ascii.eqb_neq a c)).
Qed.

(** X2: an accepted candidate, once trimmed, is a local part, one [@] and a
    domain: neither is empty, neither holds another [@], the domain holds
    a dot, and the whole does not start with a slash. *)
Theorem is_valid_email_shape (s : string) :
  is_valid_email (PyStr s) = Ret true →
  ∃ local domain,
    Str.strip s = local ++ "@" ++ domain
    ∧ local ≠ "" ∧ domain ≠ ""
    ∧ Str.contains "@" local = false
    ∧ Str.contains "@" domain = false
    ∧ Str.contains "." domain = true
    ∧ Str.startswith (Str.strip s) "/" = false.
Proof.
  rewrite is_valid_email_str. intros [= Hv].
  rewrite <- is_valid_strip in Hv.
  destruct (is_valid_parts _ Hv (strip_idem s))
    as (u & d & Hs & _ & _ & Hu & Hd & Hdot).
  destruct (split_pair_inv _ _ _ _ Hs) as (Heq & Hnu & Hnd).
  exists u, d. split; [exact Heq|].
  split; [by destruct u|]. split; [by destruct d|].
  split; [done|]. split; [done|]. split; [done|].
  unfold Spec.is_valid in Hv. rewrite strip_idem in Hv.
  unfold Str.startswith.
  destruct (String.prefix "/" (Str.strip s)); [|done].
  by rewrite andb_false_r in Hv.
Qed.

Lemma is_valid_email_shape_witness :
  ∃ local domain,
    Str.strip " jdoe@example.com " = local ++ "@" ++ domain
    ∧ local ≠ "" ∧ domain ≠ ""
    ∧ Str.contains "@" local = false
    ∧ Str.contains "@" domain = false
    ∧ Str.contains "." domain = true
    ∧ Str.startswith (Str.strip " jdoe@example.com ") "/" = false.
Proof. apply (is_valid_email_shape " jdoe@example.com "). reflexivity. Defined.

(** * More on the deduplicator *)



Lemma email_value_inj : Inj (=) (=) (λ k : string, Some (PyStr k)).
Proof. by intros ?? [= ->]. Qed.

Lemma normalized_emails ys :
  Forall normalized ys →
  List.map (λ y : gmap string pyval, y !! "email") ys
  = List.map (λ k, Some (PyStr k)) (List.map Spec.key_of ys).
Proof.
  induction 1 as [|y ys (k & Hl & _ & Hst) _ IH]; [done|].
  cbn [List.map]. by rewrite IH, (normalized_key y k Hl Hst), Hl.
Qed.

(** X3: in the output of the loop no two contacts have the same [email],
    and every [email] is a key: not empty, trimmed and in lower case. *)
Theorem dedupe_emails_distinct (xs : list (gmap string pyval)) :
  Forall email_is_str xs →
  ∃ ys,
    dedupe xs = Ret ys
    ∧ NoDup (List.map (λ y : gmap string pyval, y !! "email") ys)
    ∧ Forall (λ y : gmap string pyval,
        ∃ k, y !! "email" = Some (PyStr k)
             ∧ k ≠ "" ∧ Str.strip k = k ∧ Str.lower k = k) ys.
Proof.
  intros Hxs. exists (Spec.dedupe xs). split; [by apply dedupe_refines|].
  pose proof (first_seen_normalized xs []) as Hn. fold (Spec.dedupe xs) in Hn.
  split.
  - rewrite (normalized_emails _ Hn).
    apply (NoDup_fmap_2 (λ k, Some (PyStr k)) (Inj0:=email_value_inj)).
    apply first_seen_keys_NoDup.
  - eapply Forall_impl; [exact Hn|]. intros y (k & Hl & Ht & Hst).
    exists k. split; [done|]. split; [by destruct k|].
    rewrite <- Hst. by rewrite strip_lower, strip_idem, lower_idem.
Qed.

Lemma dedupe_emails_distinct_witness :
  Forall email_is_str [alice_upper; alice_lower]
  ∧ ∃ ys,
      dedupe [alice_upper; alice_lower] = Ret ys
      ∧ NoDup (List.map (λ y : gmap string pyval, y !! "email") ys)
      ∧ Forall (λ y : gmap string pyval,
          ∃ k, y !! "email" = Some (PyStr k)
               ∧ k ≠ "" ∧ Str.strip k = k ∧ Str.lower k = k) ys.
Proof.
  split; [exact sample_contacts_ok|].
  exact (dedupe_emails_distinct _ sample_contacts_ok).
Defined.



Lemma first_seen_app xs ys :
  ∀ earlier,
    Spec.first_seen earlier (xs ++ ys)
    = (Spec.first_seen earlier xs
       ++ Spec.first_seen (earlier ++ List.map Spec.key_of xs) ys)%list.
Proof.
  induction xs as [|c xs IH]; intros earlier.
  - cbn. by rewrite app_nil_r.
  - rewrite <- app_comm_cons. cbn [Spec.first_seen List.map].
    rewrite IH, <- app_assoc. cbn [app].
    by destruct (_ && _).
Qed.

(** X5: the loop is streaming: contacts that come later leave the output for
    the earlier ones as it is, and only add to it. *)
Theorem dedupe_streams (xs ys : list (gmap string pyval)) :
  Forall email_is_str (xs ++ ys) →
  ∃ out more,
    dedupe xs = Ret out
    ∧ dedupe (xs ++ ys) = Ret (out ++ more)%list.
Proof.
  intros Hall. pose proof Hall as [Hxs _]%Forall_app.
  exists (Spec.dedupe xs), (Spec.first_seen ([] ++ List.map Spec.key_of xs) ys).
  rewrite !dedupe_refines by done. unfold Spec.dedupe. by rewrite first_seen_app.
Qed.

Lemma dedupe_streams_witness :
  Forall email_is_str ([alice_upper] ++ [alice_lower])
  ∧ ∃ out more,
      dedupe [alice_upper] = Ret out
      ∧ dedupe ([alice_upper] ++ [alice_lower]) = Ret (out ++ more)%list.
Proof.
  split; [exact sample_contacts_ok|].
  exact (dedupe_streams [alice_upper] [alice_lower] sample_contacts_ok).
Defined.

Lemma dedupe_loop_app xs ys :
  ∀ st, dedupe_loop st (xs ++ ys) = dedupe_loop st xs ≫= λ st', dedupe_loop st' ys.
Proof.
  induction xs as [|c xs IH]; intros st; [done|].
  rewrite <- app_comm_cons. cbn [dedupe_loop].
  destruct (dedupe_step st c) as [st'|e]; [|done].
  cbn [mbind outcome_bind]. apply IH.
Qed.

(** X6: a contact whose [email] is [None] makes the loop raise
    [AttributeError], whatever was kept before it: the default of [get]
    covers a missing key only. *)
Theorem dedupe_email_none (xs ys : list (gmap string pyval)) (c : gmap string pyval) :
  Forall email_is_str xs →
  c !! "email" = Some PyNone →
  dedupe (xs ++ c :: ys) = Raise AttributeError.
Proof.
  intros Hxs Hc. unfold dedupe. rewrite dedupe_loop_app.
  destruct (dedupe_loop_first_seen xs Hxs
              {| unique_contacts := []; seen_emails := ∅ |} [] seen_agrees_empty)
    as (st' & -> & _).
  cbn [mbind outcome_bind dedupe_loop]. unfold dedupe_step, dedupe_key, py_get.
  by rewrite Hc.
Qed.

Lemma dedupe_email_none_witness :
  Forall email_is_str [alice_upper]
  ∧ (<["email" := PyNone]> alice_lower) !! "email" = Some PyNone
  ∧ dedupe ([alice_upper] ++ <["email" := PyNone]> alice_lower :: [alice_lower])
    = Raise AttributeError.
Proof.
  assert (Forall email_is_str [alice_upper]) as Hok
    by (repeat constructor; eexists; reflexivity).
  split; [exact Hok|]. split; [reflexivity|].
  apply (dedupe_email_none [alice_upper] [alice_lower]
           (<["email" := PyNone]> alice_lower) Hok).
  reflexivity.
Defined.

Lemma first_seen_same_keys xs :
  ∀ e1 e2,
    (∀ k, Str.truthy k = true → k ∈ e1 ↔ k ∈ e2) →
    Spec.first_seen e1 xs = Spec.first_seen e2 xs.
Proof.
  induction xs as [|c xs IH]; intros e1 e2 Hsame; [done|].
  cbn [Spec.first_seen].
  assert (Str.truthy (Spec.key_of c) && negb (bool_decide (Spec.key_of c ∈ e1))
          = Str.truthy (Spec.key_of c) && negb (bool_decide (Spec.key_of c ∈ e2)))
    as ->.
  { destruct (Str.truthy (Spec.key_of c)) eqn:Ht; [|done]. cbn [andb]. f_equal.
    apply bool_decide_ext. by apply Hsame. }
  rewrite (IH (e1 ++ [Spec.key_of c])%list (e2 ++ [Spec.key_of c])%list); [done|].
  intros k Hk. rewrite !elem_of_app. by rewrite (Hsame k Hk).
Qed.

(** X7: a contact without [email], or whose [email] is empty or blank, is
    skipped and changes nothing for the others. *)
Theorem dedupe_skips_blank (xs ys : list (gmap string pyval)) (c : gmap string pyval) :
  Forall email_is_str (xs ++ ys) →
  c !! "email" = None ∨ (∃ s, c !! "email" = Some (PyStr s) ∧ Str.strip s = "") →
  dedupe (xs ++ c :: ys) = dedupe (xs ++ ys).
Proof.
  intros Hall Hc.
  assert (email_is_str c ∧ Spec.key_of c = "") as [Hstr Hkey].
  { unfold email_is_str, py_get, Spec.key_of.
    destruct Hc as [->|(s & -> & ->)]; by eauto. }
  pose proof Hall as [Hxs Hys]%Forall_app.
  rewrite !dedupe_refines by (repeat first [apply Forall_app; split|constructor|done]).
  f_equal. unfold Spec.dedupe. rewrite !first_seen_app.
  f_equal. cbn [Spec.first_seen]. rewrite Hkey. cbn [Str.truthy andb].
  apply first_seen_same_keys. intros k Hk.
  rewrite (elem_of_app _ [""]), list_elem_of_singleton.
  split; [|tauto]. intros [?| ->]; [done|discriminate].
Qed.

Lemma dedupe_skips_blank_witness :
  Forall email_is_str ([alice_upper] ++ [alice_lower])
  ∧ dedupe ([alice_upper] ++ <["email" := PyStr "  "]> alice_lower :: [alice_lower])
    = dedupe ([alice_upper] ++ [alice_lower]).
Proof.
  split; [exact sample_contacts_ok|].
  apply (dedupe_skips_blank [alice_upper] [alice_lower] _ sample_contacts_ok).
  right. exists "  ". split; reflexivity.
Defined.

(** * More on the builders *)

(** X8: [create_contact_from_email_only] never gives [None]: on every
    string it returns a dictionary with the five fields that holds the
    string, unchanged, as [email]. *)
Theorem email_only_always_builds (email : string) :
  ∃ d : gmap string pyval,
    create_contact_from_email_only email = Ret (Some d)
    ∧ dom d = contact_fields
    ∧ d !! "email" = Some (PyStr email).
Proof.
  destruct (email_only_shape email) as (full & first & last & dv & _ & ->).
  eexists. split; [done|]. split; [apply contact_literal_dom|].
  apply contact_literal_lookup.
Qed.







Lemma all_chars_impl (P Q : ascii → bool) s :
  (∀ c, P c = true → Q c = true) → all_chars P s = true → all_chars Q s = true.
Proof.
  intros HPQ. induction s as [|c r IH]; [done|]. cbn [all_chars].
  intros [Hc Hr]%andb_prop. by rewrite (HPQ c Hc), IH.
Qed.
















(** * More on the extractor *)

Lemma scan_part_bare_eq part cs :
  Str.truthy part = true →
  Str.contains "<" part && Str.contains ">" part = false →
  scan_part part cs
  = (Ret tt,
     (cs ++ (if Str.contains "@" part && Str.contains "." part then
               if Spec.is_valid (Str.strip part) then
                 match create_contact_from_email_only (Str.strip part) with
                 | Ret (Some d) => [d]
                 | _ => []
                 end
               else []
             else []))%list).
Proof.
  intros Ht Hb. unfold scan_part. rewrite Ht, Hb. cbn [negb].
  destruct (Str.contains "@" part && Str.contains "." part);
    [|by rewrite app_nil_r].
  unfold mbind, proc_bind, lift, mret, proc_ret. rewrite is_valid_email_str.
  destruct (Spec.is_valid (Str.strip part)); [|by rewrite app_nil_r].
  destruct (email_only_shape (Str.strip part))
    as (full & first & last & dv & _ & ->).
  apply append_if_truthy_literal, contact_literal_nonempty.
Qed.

Lemma scan_part_eq part cs :
  scan_part part cs = (Ret tt, (cs ++ part_contacts part)%list).
Proof.
  unfold part_contacts.
  destruct (Str.truthy part) eqn:Ht.
  2:{ unfold scan_part. rewrite Ht. cbn. by rewrite app_nil_r. }
  destruct (Str.contains "<" part && Str.contains ">" part) eqn:Hb.
  - apply andb_prop in Hb as [Hlt Hgt].
    by rewrite !scan_part_brackets_eq.
  - by rewrite !scan_part_bare_eq.
Qed.

Lemma part_contacts_ok part : Forall extracted_ok (part_contacts part).
Proof.
  destruct (scan_part_appends part []) as (new & Hrun & Hok).
  unfold part_contacts. by rewrite Hrun.
Qed.



Lemma part_contacts_length part : (length (part_contacts part) ≤ 1)%nat.
Proof.
  unfold part_contacts.
  destruct (Str.truthy part) eqn:Ht.
  2:{ unfold scan_part. rewrite Ht. cbn. lia. }
  destruct (Str.contains "<" part && Str.contains ">" part) eqn:Hb.
  - apply andb_prop in Hb as [Hlt Hgt].
    rewrite scan_part_brackets_eq by done. cbn [snd app].
    unfold Spec.built_from. repeat case_match; cbn; lia.
  - rewrite scan_part_bare_eq by done. cbn [snd app].
    repeat case_match; cbn; lia.
Qed.

Lemma for_each_scan_eq parts :
  ∀ cs,
    for_each parts scan_part cs
    = (Ret tt, (cs ++ concat (List.map part_contacts parts))%list).
Proof.
  induction parts as [|part parts IH]; intros cs.
  - cbn. by rewrite app_nil_r.
  - cbn [for_each List.map concat]. unfold mbind, proc_bind.
    rewrite scan_part_eq, IH. by rewrite app_assoc.
Qed.

Lemma keep_contact_ok c : extracted_ok c → keep_contact c = Ret true.
Proof.
  intros (full & first & last & e & -> & Hv & _).
  unfold keep_contact, contact_truthy, py_getitem.
  destruct (contact_literal_lookup full first last e
              (PyStr (Str.strip (Spec.after "@" e)))) as (_ & _ & _ & He & _).
  rewrite bool_decide_eq_false_2 by apply contact_literal_nonempty.
  rewrite He, bool_decide_eq_true_2 by eauto. exact Hv.
Qed.

Lemma filter_contacts_id cs :
  Forall extracted_ok cs → filter_contacts cs = Ret cs.
Proof.
  induction 1 as [|c cs Hc _ IH]; [done|].
  cbn [filter_contacts]. by rewrite (keep_contact_ok c Hc), IH.
Qed.

(** X12: the final filter of the extractor drops nothing: every contact
    that the loop over the parts has appended passes it. *)
Theorem final_filter_keeps_all (contact_parts : list string) :
  ∃ contacts,
    for_each contact_parts scan_part [] = (Ret tt, contacts)
    ∧ filter_contacts contacts = Ret contacts.
Proof.
  eexists. split; [apply for_each_scan_eq|].
  apply filter_contacts_id. cbn [app].
  induction contact_parts as [|p ps IH]; [done|].
  cbn [List.map concat]. apply Forall_app. split; [apply part_contacts_ok|done].
Qed.

Lemma lstrip_idem s : Str.lstrip (Str.lstrip s) = Str.lstrip s.
Proof. apply lstrip_id, lstrip_no_lead. Qed.

Lemma lstrip_rstrip s : Str.lstrip (Str.rstrip s) = Str.rstrip (Str.lstrip s).
Proof.
  induction s as [|c r IH]; [done|]. cbn [Str.lstrip Str.rstrip].
  destruct (Str.is_space c) eqn:Ec; cbn [andb].
  - destruct (Str.truthy (Str.rstrip r)) eqn:Et; cbn [negb].
    + cbn [Str.lstrip]. by rewrite Ec.
    + apply truthy_false in Et. rewrite <- IH, Et. done.
  - cbn [Str.lstrip Str.rstrip]. by rewrite Ec.
Qed.

Lemma strip_lstrip s : Str.strip (Str.lstrip s) = Str.strip s.
Proof. unfold Str.strip. by rewrite lstrip_idem. Qed.

Lemma strip_rstrip s : Str.strip (Str.rstrip s) = Str.strip s.
Proof. unfold Str.strip. by rewrite lstrip_rstrip, rstrip_idem. Qed.

Lemma split_lstrip c s :
  Str.is_space c = false →
  Str.split c (Str.lstrip s) = map_head Str.lstrip (Str.split c s).
Proof.
  intros Hc. induction s as [|a r IH]; [done|].
  cbn [Str.lstrip Str.split].
  destruct (Ascii.eqb_spec a c) as [->|Hne].
  - rewrite Hc. cbn [Str.split]. by rewrite Ascii.eqb_refl.
  - destruct (split_nonempty c r) as (h & t & E). rewrite E in *.
    destruct (Str.is_space a) eqn:Ea.
    + rewrite IH. cbn [map_head Str.lstrip]. by rewrite Ea.
    + cbn [Str.split map_head Str.lstrip].
      rewrite (proj2 (Ascii.eqb_neq a c) Hne), E, Ea. done.
Qed.

Lemma map_last_cons {A} (f : A → A) x y r :
  map_last f (x :: y :: r) = x :: map_last f (y :: r).
Proof. reflexivity. Qed.

Lemma split_rstrip c s :
  Str.is_space c = false →
  Str.split c (Str.rstrip s) = map_last Str.rstrip (Str.split c s).
Proof.
  intros Hc. induction s as [|a r IH]; [done|].
  cbn [Str.rstrip Str.split].
  destruct (split_nonempty c r) as (h & t & E).
  destruct (Ascii.eqb_spec a c) as [->|Hne].
  - rewrite Hc. cbn [andb Str.split]. rewrite Ascii.eqb_refl, IH, E.
    by rewrite map_last_cons.
  - rewrite E in *.
    destruct (Str.is_space a && negb (Str.truthy (Str.rstrip r))) eqn:Eb.
    + apply andb_prop in Eb as [Ea Er]. apply negb_true_iff, truthy_false in Er.
      rewrite Er in IH. cbn [Str.split] in IH |- *.
      destruct t as [|y t];
        [|rewrite map_last_cons in IH; injection IH as _ IH; by destruct t].
      cbn [map_last] in IH |- *. injection IH as IH.
      cbn [Str.rstrip]. by rewrite Ea, <- IH.
    + cbn [Str.split]. rewrite (proj2 (Ascii.eqb_neq a c) Hne), IH.
      destruct t as [|y t].
      * cbn [map_last Str.rstrip].
        apply split_single_inv in E. subst h. by rewrite Eb.
      * by rewrite !map_last_cons.
Qed.

Lemma map_strip_head l :
  List.map Str.strip (map_head Str.lstrip l) = List.map Str.strip l.
Proof. destruct l as [|x r]; [done|]. cbn. by rewrite strip_lstrip. Qed.

Lemma map_strip_last l :
  List.map Str.strip (map_last Str.rstrip l) = List.map Str.strip l.
Proof.
  induction l as [|x [|y r] IH]; [done| |].
  - cbn. by rewrite strip_rstrip.
  - rewrite map_last_cons. cbn [List.map]. by rewrite IH.
Qed.

Lemma split_strip c s :
  Str.is_space c = false →
  List.map Str.strip (Str.split c (Str.strip s)) = List.map Str.strip (Str.split c s).
Proof.
  intros Hc. unfold Str.strip.
  by rewrite split_rstrip, map_strip_last, split_lstrip, map_strip_head.
Qed.

Lemma split_app c a b :
  Str.split c (a ++ String c b) = (Str.split c a ++ Str.split c b)%list.
Proof.
  induction a as [|x a IH].
  - rewrite append_nil. cbn [Str.split]. by rewrite Ascii.eqb_refl.
  - rewrite append_cons. cbn [Str.split]. rewrite IH.
    destruct (Ascii.eqb x c); [done|].
    destruct (split_nonempty c a) as (h & t & ->). done.
Qed.

(** The extractor on a value that [str] turns into [s]. *)
Lemma extract_eq v s :
  py_str v = Ret s →
  extract_multiple_contacts v
  = Ret (concat (List.map part_contacts (List.map Str.strip (Str.split "," s)))).
Proof.
  intros Hv. rewrite <- (split_strip "," s) by done.
  unfold extract_multiple_contacts, extract_body, mbind, proc_bind, lift.
  rewrite Hv.
  destruct (Str.truthy (Str.strip s)) eqn:Ht; cbn [negb orb].
  2:{ apply truthy_false in Ht. by rewrite Ht. }
  destruct (String.eqb_spec (Str.strip s) "nan") as [->|_]; [done|].
  destruct (String.eqb_spec (Str.strip s) "None") as [->|_]; [done|].
  cbn [orb]. rewrite for_each_scan_eq. cbn [app]. unfold get.
  rewrite filter_contacts_id; [done|].
  induction (List.map Str.strip (Str.split "," (Str.strip s))) as [|p ps IH];
    [done|].
  cbn [List.map concat]. apply Forall_app. split; [apply part_contacts_ok|done].
Qed.

(** X13: a field is read part by part, from left to right: the contacts of
    two texts joined by a comma are those of the first followed by those of
    the second. *)
Theorem extract_comma (a b : string) :
  ∃ la lb,
    extract_multiple_contacts (PyStr a) = Ret la
    ∧ extract_multiple_contacts (PyStr b) = Ret lb
    ∧ extract_multiple_contacts (PyStr (a ++ "," ++ b)) = Ret (la ++ lb)%list.
Proof.
  eexists _, _. split; [by apply extract_eq|]. split; [by apply extract_eq|].
  rewrite (extract_eq _ (a ++ "," ++ b)) by done.
  change ("," ++ b) with (String "," b).
  by rewrite split_app, !map_app, concat_app.
Qed.

(** X14: a field gives at most one contact for each of its comma-separated
    parts. *)
Theorem extract_count (s : string) :
  ∃ l,
    extract_multiple_contacts (PyStr s) = Ret l
    ∧ (length l ≤ length (Str.split "," s))%nat.
Proof.
  eexists. split; [by apply extract_eq|].
  induction (Str.split "," s) as [|p ps IH]; [done|].
  cbn [List.map concat length]. rewrite length_app.
  pose proof (part_contacts_length (Str.strip p)). lia.
Qed.

Lemma contains_char_substring c n m s :
  Str.contains (String c "") (String.substring n m s) = true →
  Str.contains (String c "") s = true.
Proof.
  revert n m. induction s as [|a r IH]; intros [|n] [|m]; cbn [String.substring];
    try done.
  - rewrite !contains_char_cons. intros [->|H]%orb_prop; [done|].
    by rewrite (IH _ _ H), orb_true_r.
  - intros H. by rewrite contains_char_cons, (IH _ _ H), orb_true_r.
  - intros H. by rewrite contains_char_cons, (IH _ _ H), orb_true_r.
Qed.

Lemma split_parts_without c c' s :
  Str.contains (String c' "") s = false →
  Forall (λ p, Str.contains (String c' "") p = false) (Str.split c s).
Proof.
  induction s as [|a r IH]; [by repeat constructor|].
  rewrite contains_char_cons. intros [Ha Hr]%orb_false_elim.
  specialize (IH Hr). cbn [Str.split].
  destruct (Ascii.eqb a c); [by constructor|].
  destruct (split_nonempty c r) as (h & t & E). rewrite E in *.
  apply Forall_cons in IH as [Hh Ht]. constructor; [|done].
  by rewrite contains_char_cons, Ha, Hh.
Qed.

Lemma is_valid_needs_at e : Str.contains "@" (Str.strip e) = false → Spec.is_valid e = false.
Proof.
  intros H. unfold Spec.is_valid. rewrite H. cbn [andb].
  by rewrite andb_false_r.
Qed.

Lemma part_contacts_no_at part :
  Str.contains "@" part = false → part_contacts part = [].
Proof.
  intros Hat. unfold part_contacts.
  destruct (Str.truthy part) eqn:Ht.
  2:{ unfold scan_part. by rewrite Ht. }
  destruct (Str.contains "<" part && Str.contains ">" part) eqn:Hb.
  - apply andb_prop in Hb as [Hlt Hgt].
    rewrite scan_part_brackets_eq by done. cbn [snd app].
    unfold Spec.built_from. destruct (_ && _); [|done].
    rewrite is_valid_email_str, is_valid_needs_at; [done|].
    rewrite !contains_char_strip by done.
    match goal with
    | |- Str.contains _ ?e = false => destruct (Str.contains "@" e) eqn:E; [|done]
    end.
    unfold Str.slice in E. apply contains_char_substring in E. congruence.
  - rewrite scan_part_bare_eq by done. by rewrite Hat.
Qed.

Lemma extract_without_at (text : pyval) (s : string) :
  py_str text = Ret s →
  Str.contains "@" s = false →
  extract_multiple_contacts text = Ret [].
Proof.
  intros Hs Hat. rewrite (extract_eq text s Hs). f_equal.
  pose proof (split_parts_without "," "@" s Hat) as Hparts.
  induction Hparts as [|p ps Hp _ IH]; [done|].
  cbn [List.map concat]. rewrite IH, part_contacts_no_at; [done|].
  by rewrite contains_char_strip.
Qed.

(** X15: a field whose text holds no [@] gives no contact, whatever names
    and brackets it holds. *)
Theorem extract_needs_at (text : pyval) (s : string) :
  py_str text = Ret s →
  Str.contains "@" s = false →
  extract_multiple_contacts text = Ret [].
Proof. apply extract_without_at. Qed.

Lemma extract_needs_at_witness :
  extract_multiple_contacts (PyStr "Jane Doe <jane at example.com>, Bob") = Ret [].
Proof.
  apply (extract_needs_at _ "Jane Doe <jane at example.com>, Bob"); reflexivity.
Defined.

(** * Source adapters and the whole conversion *)














(** * Recipients: formatting and extraction *)
















(** * Columns of a table and the sender of a message *)

Lemma lower_append a b : Str.lower (a ++ b) = Str.lower a ++ Str.lower b.
Proof.
  induction a as [|x a IH]; [done|].
  by rewrite append_cons, !lower_cons, append_cons, IH.
Qed.

Lemma prefix_append p b : String.prefix p (p ++ b) = true.
Proof.
  induction p as [|x p IH]; [by rewrite append_nil, prefix_empty|].
  rewrite append_cons. cbn [String.prefix].
  by destruct (ascii_dec x x).
Qed.

Lemma contains_append_r p a s :
  Str.contains p s = true → Str.contains p (a ++ s) = true.
Proof.
  intros Hs. induction a as [|x a IH]; [done|].
  rewrite append_cons. cbn [Str.contains]. by rewrite IH, orb_true_r.
Qed.

Lemma contains_middle p a b : Str.contains p (a ++ p ++ b) = true.
Proof.
  apply contains_append_r.
  destruct (p ++ b) eqn:E; cbn [Str.contains]; rewrite <- E;
    by rewrite prefix_append.
Qed.

(** X18: a column is scanned as soon as its label holds a keyword
    somewhere, in any letter case: the test is one of substrings, so that
    [Total] is taken for a contact column because of [to]. *)
Theorem contact_column_keyword (keyword pre mid post : string) :
  keyword ∈ keywords →
  Str.lower mid = keyword →
  is_contact_column (pre ++ mid ++ post) = true.
Proof.
  intros Hk Hmid. unfold is_contact_column.
  apply existsb_exists. exists keyword.
  split; [by apply list_elem_of_In|].
  rewrite !lower_append, Hmid. apply contains_middle.
Qed.

Lemma contact_column_keyword_witness :
  is_contact_column ("" ++ "To" ++ "tal") = true.
Proof.
  apply (contact_column_keyword "to" "" "To" "tal"); [|reflexivity].
  apply list_elem_of_In. cbn. tauto.
Defined.

Lemma filter_sublist {A} (f : A → bool) (l : list A) : sublist (List.filter f l) l.
Proof.
  induction l as [|x l IH]; [constructor|]. cbn [List.filter].
  destruct (f x); by constructor.
Qed.

(** X19: the columns that are scanned are columns of the table, in their
    order; every column with a keyword in its label is among them; and when
    no label holds a keyword all columns are scanned, so that a table with
    columns never has none of them scanned. *)
Theorem contact_columns_selection (columns : list string) :
  sublist (contact_columns columns) columns
  ∧ (∀ col, col ∈ columns → is_contact_column col = true →
            col ∈ contact_columns columns)
  ∧ (Forall (λ col, is_contact_column col = false) columns →
     contact_columns columns = columns)
  ∧ (columns ≠ [] → contact_columns columns ≠ []).
Proof.
  unfold contact_columns.
  pose proof (filter_sublist is_contact_column columns) as Hsub.
  assert (∀ col, col ∈ columns → is_contact_column col = true →
                 col ∈ List.filter is_contact_column columns) as Hin.
  { intros col Hc Hm. apply list_elem_of_In, filter_In.
    split; [by apply list_elem_of_In|done]. }
  destruct (List.filter is_contact_column columns) as [|c found] eqn:E.
  - split; [done|]. split; [|done].
    intros col Hc Hm. by destruct (not_elem_of_nil col (Hin col Hc Hm)).
  - split; [done|]. split; [done|]. split; [|done].
    intros Hnone. exfalso.
    assert (c ∈ List.filter is_contact_column columns) as Hc
      by (rewrite E; by left).
    apply list_elem_of_In, filter_In in Hc as [Hc Hm].
    apply list_elem_of_In in Hc.
    by rewrite (proj1 (Forall_forall _ _) Hnone c Hc) in Hm.
Qed.

Lemma contact_columns_selection_witness :
  sublist (contact_columns ["Id"; "Sender"; "Body"]) ["Id"; "Sender"; "Body"]
  ∧ "Sender" ∈ contact_columns ["Id"; "Sender"; "Body"]
  ∧ contact_columns ["Id"; "Body"] = ["Id"; "Body"]
  ∧ contact_columns ["Id"; "Body"] ≠ [].
Proof.
  split; [apply (contact_columns_selection ["Id"; "Sender"; "Body"])|].
  split.
  - apply (proj1 (proj2 (contact_columns_selection ["Id"; "Sender"; "Body"])));
      [|reflexivity].
    apply list_elem_of_In. cbn. tauto.
  - split.
    + apply (proj1 (proj2 (proj2 (contact_columns_selection ["Id"; "Body"])))).
      repeat constructor.
    + by apply (proj2 (proj2 (proj2 (contact_columns_selection ["Id"; "Body"])))).
Defined.

(** X21: a sender whose address the validator refuses is written to the
    sender field by name alone, and when that name holds no [@] the field
    gives no contact. *)
Theorem sender_refused (name email : option string) :
  is_valid_email (PyStr (or_empty email)) = Ret false →
  Str.contains "@" (or_empty name) = false →
  format_sender name email = Ret (or_empty name)
  ∧ extract_multiple_contacts (PyStr (or_empty name)) = Ret [].
Proof.
  intros Hv Hat. split.
  - unfold format_sender. rewrite Hv.
    destruct (Str.truthy (or_empty name) && Str.truthy (or_empty email));
      cbn [mbind outcome_bind];
      by destruct (Str.truthy (or_empty email)).
  - by apply (extract_without_at _ (or_empty name)).
Qed.

Lemma sender_refused_witness :
  format_sender (Some "Legacy User") (Some "/O=ORG/OU=X/CN=RECIPIENTS/CN=LU")
  = Ret "Legacy User"
  ∧ extract_multiple_contacts (PyStr "Legacy User") = Ret [].
Proof.
  apply (sender_refused (Some "Legacy User")
           (Some "/O=ORG/OU=X/CN=RECIPIENTS/CN=LU")); reflexivity.
Defined.


(** * Unicode text: facts about the primitives *)

Open Scope list_scope.

Lemma u_truthy_false s : U.Str.truthy s = false → s = [].
Proof. by destruct s. Qed.

Lemma u_lstrip_no_lead s : U.no_lead (U.Str.lstrip s).
Proof.
  induction s as [|c s IH]; simpl; [done|].
  destruct (U.is_space c) eqn:E; [done|]. exact E.
Qed.

Lemma u_lstrip_id s : U.no_lead s → U.Str.lstrip s = s.
Proof. destruct s as [|c s]; simpl; [done|]. by intros ->. Qed.

Lemma u_rstrip_no_lead s : U.no_lead s → U.no_lead (U.Str.rstrip s).
Proof.
  destruct s as [|c s]; simpl; [done|]. intros E. rewrite E. exact E.
Qed.

Lemma u_rstrip_idem s : U.Str.rstrip (U.Str.rstrip s) = U.Str.rstrip s.
Proof.
  induction s as [|c s IH]; simpl; [done|].
  destruct (U.is_space c) eqn:Ec; simpl.
  - destruct (U.Str.truthy (U.Str.rstrip s)) eqn:Et; simpl; [|done].
    by rewrite IH, Ec, Et.
  - by rewrite IH, Ec.
Qed.

Lemma u_strip_idem s : U.Str.strip (U.Str.strip s) = U.Str.strip s.
Proof.
  unfold U.Str.strip.
  rewrite (u_lstrip_id (U.Str.rstrip _)) by apply u_rstrip_no_lead, u_lstrip_no_lead.
  apply u_rstrip_idem.
Qed.

Lemma u_startswith_nil s : U.Str.startswith s [] = true.
Proof. by destruct s. Qed.

Lemma u_contains_char_cons c a r :
  U.Str.contains [c] (a :: r) = (a =? c)%N || U.Str.contains [c] r.
Proof.
  cbn [U.Str.contains U.Str.startswith]. rewrite u_startswith_nil, andb_true_r.
  by rewrite N.eqb_sym.
Qed.

Lemma u_contains_char_app c a b :
  U.Str.contains [c] (a ++ b)
  = U.Str.contains [c] a || U.Str.contains [c] b.
Proof.
  induction a as [|x a IH]; [done|].
  rewrite <- app_comm_cons, !u_contains_char_cons, IH. by rewrite orb_assoc.
Qed.

Lemma u_contains_char_truthy c s :
  U.Str.contains [c] s = true → U.Str.truthy s = true.
Proof. by destruct s. Qed.

Lemma u_split_nonempty c s : ∃ h t, U.Str.split c s = h :: t.
Proof.
  induction s as [|a s (h & t & IH)]; cbn [U.Str.split]; [by eauto|].
  destruct (a =? c)%N; [by eauto|]. rewrite IH. by eauto.
Qed.

Lemma u_split_no_sep c s :
  U.Str.contains [c] s = false → U.Str.split c s = [s].
Proof.
  induction s as [|a s IH]; [done|].
  rewrite u_contains_char_cons. intros [Ha Hs]%orb_false_elim.
  cbn [U.Str.split]. by rewrite Ha, (IH Hs).
Qed.

Lemma u_split_app_sep c a r :
  U.Str.contains [c] a = false →
  U.Str.split c (a ++ c :: r) = a :: U.Str.split c r.
Proof.
  induction a as [|x a IH].
  - intros _. cbn [app U.Str.split]. by rewrite N.eqb_refl.
  - rewrite u_contains_char_cons. intros [Hx Ha]%orb_false_elim.
    rewrite <- app_comm_cons. cbn [U.Str.split]. by rewrite Hx, (IH Ha).
Qed.

Lemma u_split_app c a b :
  U.Str.split c (a ++ c :: b) = U.Str.split c a ++ U.Str.split c b.
Proof.
  induction a as [|x a IH].
  - cbn [app U.Str.split]. by rewrite N.eqb_refl.
  - rewrite <- app_comm_cons. cbn [U.Str.split]. rewrite IH.
    destruct (x =? c)%N; [done|].
    destruct (u_split_nonempty c a) as (h & t & ->). done.
Qed.

Lemma u_split_single_inv c s d : U.Str.split c s = [d] → s = d.
Proof.
  revert d. induction s as [|a s IH]; intros d; cbn [U.Str.split].
  - by intros [= <-].
  - destruct (u_split_nonempty c s) as (h & t & E). rewrite E in *.
    destruct (a =? c)%N; [done|].
    intros [= <- ->]. by rewrite (IH h).
Qed.

Lemma u_split_single_no_sep c s d :
  U.Str.split c s = [d] → U.Str.contains [c] d = false.
Proof.
  revert d. induction s as [|a s IH]; intros d; cbn [U.Str.split].
  - by intros [= <-].
  - destruct (u_split_nonempty c s) as (h & t & E). rewrite E in *.
    destruct (a =? c)%N eqn:Ha; [done|].
    intros [= <- ->]. rewrite u_contains_char_cons, Ha. by apply IH.
Qed.

Lemma u_split_pair_inv c s u d :
  U.Str.split c s = [u; d] →
  s = u ++ c :: d
  ∧ U.Str.contains [c] u = false
  ∧ U.Str.contains [c] d = false.
Proof.
  revert u. induction s as [|a s IH]; intros u; cbn [U.Str.split]; [done|].
  destruct (N.eqb_spec a c) as [->|Hne].
  - intros [= <- Hs]. rewrite (u_split_single_inv _ _ _ Hs) in *.
    split; [done|]. split; [done|]. by eapply u_split_single_no_sep.
  - destruct (u_split_nonempty c s) as (h & t & E). rewrite E in *.
    intros [= <- ->]. destruct (IH h eq_refl) as (-> & Hh & Hd).
    split; [done|]. split; [|done].
    rewrite u_contains_char_cons, Hh. by rewrite (proj2 (N.eqb_neq a c)).
Qed.

Lemma u_split_pair_after c s u d :
  U.Str.split c s = [u; d] → U.Spec.after c s = d.
Proof.
  revert u. induction s as [|a s IH]; intros u; cbn [U.Str.split U.Spec.after].
  - done.
  - destruct (a =? c)%N.
    + intros [= _ Hs]. by apply u_split_single_inv in Hs.
    + destruct (u_split_nonempty c s) as (h & t & E). rewrite E in *.
      intros [= _ ->]. by apply (IH h).
Qed.

Lemma u_contains_char_lstrip c s :
  U.is_space c = false →
  U.Str.contains [c] (U.Str.lstrip s) = U.Str.contains [c] s.
Proof.
  intros Hc. induction s as [|a s IH]; [done|].
  cbn [U.Str.lstrip]. destruct (U.is_space a) eqn:Ha; [|done].
  rewrite u_contains_char_cons, IH.
  destruct (N.eqb_spec a c) as [->|]; [congruence|done].
Qed.

Lemma u_contains_char_rstrip c s :
  U.is_space c = false →
  U.Str.contains [c] (U.Str.rstrip s) = U.Str.contains [c] s.
Proof.
  intros Hc. induction s as [|a s IH]; [done|].
  cbn [U.Str.rstrip]. rewrite u_contains_char_cons.
  destruct (U.is_space a && negb (U.Str.truthy (U.Str.rstrip s))) eqn:E.
  - apply andb_prop in E as [Ha Hr]. apply negb_true_iff, u_truthy_false in Hr.
    rewrite <- IH, Hr.
    destruct (N.eqb_spec a c) as [->|]; [congruence|done].
  - by rewrite u_contains_char_cons, IH.
Qed.

Lemma u_contains_char_strip c s :
  U.is_space c = false →
  U.Str.contains [c] (U.Str.strip s) = U.Str.contains [c] s.
Proof.
  intros Hc. unfold U.Str.strip.
  by rewrite u_contains_char_rstrip, u_contains_char_lstrip.
Qed.

Lemma u_find_bounds c s : (-1 ≤ U.Str.find c s < U.Str.len s)%Z.
Proof.
  unfold U.Str.len. induction s as [|a s IH]; cbn [U.Str.find length]; [lia|].
  destruct (a =? c)%N; [lia|].
  destruct (Z.eqb_spec (U.Str.find c s) (-1)); lia.
Qed.

Lemma u_find_contains c s :
  U.Str.contains [c] s = true → U.Str.find c s ≠ (-1)%Z.
Proof.
  induction s as [|a s IH]; [done|].
  rewrite u_contains_char_cons. cbn [U.Str.find].
  destruct (a =? c)%N; [done|]. cbn [orb]. intros Hs.
  pose proof (u_find_bounds c s).
  destruct (Z.eqb_spec (U.Str.find c s) (-1)); [by apply IH in Hs|lia].
Qed.

Lemma u_find_app_sep c pre r :
  U.Str.contains [c] pre = false →
  U.Str.find c (pre ++ c :: r) = U.Str.len pre.
Proof.
  unfold U.Str.len. induction pre as [|x pre IH].
  - intros _. cbn [app U.Str.find]. by rewrite N.eqb_refl.
  - rewrite u_contains_char_cons. intros [Hx Hpre]%orb_false_elim.
    rewrite <- app_comm_cons. cbn [U.Str.find length]. rewrite Hx, (IH Hpre).
    destruct (Z.eqb_spec (Z.of_nat (length pre)) (-1)); lia.
Qed.

Lemma u_find_app_later c pre r :
  U.Str.contains [c] pre = false →
  U.Str.contains [c] r = true →
  U.Str.find c (pre ++ r) = (U.Str.len pre + U.Str.find c r)%Z.
Proof.
  intros Hpre Hr. unfold U.Str.len. induction pre as [|x pre IH].
  - cbn [app length]. lia.
  - rewrite u_contains_char_cons in Hpre.
    apply orb_false_elim in Hpre as [Hx Hpre].
    rewrite <- app_comm_cons. cbn [U.Str.find length]. rewrite Hx, (IH Hpre).
    pose proof (u_find_bounds c r). pose proof (u_find_contains c r Hr).
    destruct (Z.eqb_spec (Z.of_nat (length pre) + U.Str.find c r) (-1)); lia.
Qed.

Lemma u_bound_inside s (n : nat) :
  (n ≤ length s)%nat → U.Str.bound s (Z.of_nat n) = n.
Proof.
  intros Hn. unfold U.Str.bound, U.Str.len.
  destruct (Z.ltb_spec (Z.of_nat n) 0); lia.
Qed.

Lemma u_len_app a b : U.Str.len (a ++ b) = (U.Str.len a + U.Str.len b)%Z.
Proof. unfold U.Str.len. rewrite length_app. lia. Qed.

Lemma u_slice_to_prefix a b : U.Str.slice_to (a ++ b) (U.Str.len a) = a.
Proof.
  unfold U.Str.slice_to, U.Str.slice, U.Str.len.
  rewrite (u_bound_inside _ 0) by lia.
  rewrite u_bound_inside by (rewrite length_app; lia).
  rewrite Nat.sub_0_r, drop_0. apply take_app_length.
Qed.

Lemma u_slice_middle a b c :
  U.Str.slice (a ++ b ++ c) (U.Str.len a) (U.Str.len a + U.Str.len b) = b.
Proof.
  unfold U.Str.slice, U.Str.len.
  rewrite <- Nat2Z.inj_add.
  rewrite !u_bound_inside by (rewrite !length_app; lia).
  replace (length a + length b - length a)%nat with (length b) by lia.
  rewrite drop_app_length. apply take_app_length.
Qed.

Lemma u_slice_empty s lo hi :
  (0 ≤ hi ≤ lo)%Z → (hi ≤ U.Str.len s)%Z → U.Str.slice s lo hi = [].
Proof.
  intros Hle Hhi. unfold U.Str.slice, U.Str.bound, U.Str.len in *.
  destruct (Z.ltb_spec lo 0), (Z.ltb_spec hi 0); try lia.
  replace (_ - _)%nat with 0%nat by lia. apply take_0.
Qed.

Lemma u_contains_char_take c n s :
  U.Str.contains [c] (take n s) = true → U.Str.contains [c] s = true.
Proof.
  revert n. induction s as [|a r IH]; intros [|n]; cbn [take]; try done.
  rewrite !u_contains_char_cons. intros [->|E]%orb_prop; [done|].
  by rewrite (IH _ E), orb_true_r.
Qed.

Lemma u_contains_char_drop c n s :
  U.Str.contains [c] (drop n s) = true → U.Str.contains [c] s = true.
Proof.
  revert n. induction s as [|a r IH]; intros [|n]; cbn [drop]; try done.
  intros E. by rewrite u_contains_char_cons, (IH _ E), orb_true_r.
Qed.

Lemma u_contains_char_slice c s lo hi :
  U.Str.contains [c] (U.Str.slice s lo hi) = true → U.Str.contains [c] s = true.
Proof.
  unfold U.Str.slice. intros E.
  by apply u_contains_char_take, u_contains_char_drop in E.
Qed.

Section unicode.
Context `{!U.Tables}.

(** ** AddressValidator *)

Lemma u_existsb_forallb {A} (f : A → bool) l :
  existsb f l = negb (forallb (λ x, negb (f x)) l).
Proof.
  induction l as [|x l IH]; [done|].
  cbn [existsb forallb]. by rewrite IH, negb_andb, negb_involutive.
Qed.

Lemma u_is_valid_email_body_str s :
  U.is_valid_email_body (U.PyStr s) = Ret (U.Spec.is_valid s).
Proof.
  unfold U.is_valid_email_body, U.Spec.is_valid.
  cbn [U.isinstance_str negb U.py_strip mbind outcome_bind].
  rewrite u_existsb_forallb.
  generalize (forallb (λ m, negb (U.Str.contains m (U.upper (U.Str.strip s))))
                U.markers).
  intros no_marker.
  destruct (U.Str.truthy (U.Str.strip s)); [|done].
  destruct (U.Str.startswith (U.Str.strip s) (U.lit "/")); [done|].
  destruct (U.Str.contains (U.lit "@") (U.Str.strip s)); [|done].
  destruct (U.Str.contains (U.lit ".") (U.Str.strip s)); [|done].
  destruct no_marker; [|done].
  destruct (U.Str.split (U.ch "@") (U.Str.strip s)) as [|u [|d [|x r]]]; try done.
  cbn [length Nat.eqb negb unpack2 mbind outcome_bind].
  destruct (U.Str.truthy u); [|done].
  destruct (U.Str.truthy d); [|done].
  by destruct (U.Str.contains (U.lit ".") d).
Qed.

Lemma u_is_valid_email_str s :
  U.is_valid_email (U.PyStr s) = Ret (U.Spec.is_valid s).
Proof. unfold U.is_valid_email. by rewrite u_is_valid_email_body_str. Qed.

Lemma u_is_valid_email_returns v : ∃ b, U.is_valid_email v = Ret b.
Proof.
  destruct v as [| |s|]; try (by exists false).
  exists (U.Spec.is_valid s). apply u_is_valid_email_str.
Qed.

(** C5: on every string, [is_valid_email] decides exactly the conjunction of
    the five rules of section 4.1, read on the trimmed candidate: not empty,
    no leading [/], both [@] and [.] present, no directory-service marker
    in the upper-case form of the candidate, and exactly two non-empty
    parts around [@] with a [.] in the second.  The legacy address of the
    example is refused and [jdoe@example.com] is accepted.  The case
    mapping is the interpreter's. *)
Theorem u_is_valid_email_rules :
  (∀ s, U.is_valid_email (U.PyStr s) = Ret (U.Spec.is_valid s))
  ∧ U.is_valid_email
      (U.PyStr (U.lit "user@/O=ORG/OU=X/CN=RECIPIENTS/CN=JDOE")) = Ret false
  ∧ U.is_valid_email (U.PyStr (U.lit "jdoe@example.com")) = Ret true.
Proof.
  split; [exact u_is_valid_email_str|].
  split; rewrite u_is_valid_email_str; unfold U.Spec.is_valid;
    (rewrite U.upper_ascii by (vm_compute; repeat (constructor; [done|]); constructor));
    vm_compute; reflexivity.
Qed.

(** C6: for a value of any type, [is_valid_email] returns a boolean and
    raises nothing: a value that is not a string ([None], a number, any
    other object) gives [False], and a string, empty or not, ASCII or not,
    gives the verdict of the five rules. *)
Theorem u_is_valid_email_total :
  ∀ v : U.pyval,
    ∃ b : bool,
      U.is_valid_email v = Ret b
      ∧ b = match v with
            | U.PyStr s => U.Spec.is_valid s
            | _ => false
            end.
Proof.
  intros [| |s|]; try (by exists false).
  exists (U.Spec.is_valid s). split; [apply u_is_valid_email_str|done].
Qed.

(** What the validator has checked, on an email that is already trimmed. *)
Lemma u_is_valid_parts e :
  U.Spec.is_valid e = true → U.Str.strip e = e →
  ∃ u d,
    U.Str.split (U.ch "@") e = [u; d]
    ∧ U.Str.truthy e = true ∧ U.Str.contains (U.lit "@") e = true
    ∧ U.Str.truthy u = true ∧ U.Str.truthy d = true
    ∧ U.Str.contains (U.lit ".") d = true.
Proof.
  unfold U.Spec.is_valid. intros Hv He. rewrite He in Hv.
  apply andb_prop in Hv as [Hv Hparts]. apply andb_prop in Hv as [Hv _].
  apply andb_prop in Hv as [Hv Hat]. apply andb_prop in Hv as [Ht _].
  apply andb_prop in Hat as [Hat _].
  destruct (U.Str.split (U.ch "@") e) as [|u [|d [|x r]]]; try done.
  apply andb_prop in Hparts as [Hparts Hdot].
  apply andb_prop in Hparts as [Hu Hd].
  exists u, d. done.
Qed.

(** ** Deduplicator *)

Lemma u_dedupe_key_ok c :
  U.email_is_str c → U.dedupe_key c = Ret (U.Spec.key_of c).
Proof.
  intros [s Hs]. unfold U.dedupe_key, U.Spec.key_of. by rewrite Hs.
Qed.

Lemma u_seen_agrees_empty : U.seen_agrees ∅ [].
Proof. intros k _. split; [by intros ?%not_elem_of_empty|by intros ?%elem_of_nil]. Qed.

Lemma u_seen_agrees_keep seen earlier k :
  U.seen_agrees seen earlier → U.seen_agrees (seen ∪ {[k]}) (earlier ++ [k]).
Proof.
  intros Hag k' Hk'. rewrite elem_of_union, elem_of_singleton, elem_of_app,
    list_elem_of_singleton, (Hag k' Hk'). done.
Qed.

Lemma u_seen_agrees_skip seen earlier k :
  U.seen_agrees seen earlier →
  U.Str.truthy k && negb (bool_decide (k ∈ seen)) = false →
  U.seen_agrees seen (earlier ++ [k]).
Proof.
  intros Hag Hk k' Hk'. specialize (Hag k' Hk').
  rewrite elem_of_app, list_elem_of_singleton.
  split; [tauto|]. intros [?| ->]; [tauto|].
  rewrite Hk' in Hk. simpl in Hk.
  apply negb_false_iff, bool_decide_eq_true in Hk. done.
Qed.

Lemma u_seen_agrees_test seen earlier k :
  U.seen_agrees seen earlier →
  U.Str.truthy k && negb (bool_decide (k ∈ seen))
  = U.Str.truthy k && negb (bool_decide (k ∈ earlier)).
Proof.
  intros Hag. destruct (U.Str.truthy k) eqn:Hk; [|done]. simpl. f_equal.
  apply bool_decide_ext. by apply Hag.
Qed.

Lemma u_dedupe_loop_first_seen xs :
  Forall U.email_is_str xs →
  ∀ st earlier,
    U.seen_agrees (U.seen_emails st) earlier →
    ∃ st',
      U.dedupe_loop st xs = Ret st'
      ∧ U.unique_contacts st' = U.unique_contacts st ++ U.Spec.first_seen earlier xs.
Proof.
  induction 1 as [|c xs Hc _ IH]; intros st earlier Hseen.
  - exists st. by rewrite app_nil_r.
  - cbn [U.dedupe_loop U.Spec.first_seen]. unfold U.dedupe_step.
    rewrite (u_dedupe_key_ok c Hc). cbn [mbind outcome_bind].
    rewrite <- (u_seen_agrees_test _ _ _ Hseen).
    destruct (U.Str.truthy (U.Spec.key_of c)
              && negb (bool_decide (U.Spec.key_of c ∈ U.seen_emails st))) eqn:Hk.
    + edestruct IH as (st' & Hrun & Hout);
        [|exists st'; split; [exact Hrun|]].
      * cbn [U.seen_emails]. by apply u_seen_agrees_keep.
      * rewrite Hout. cbn [U.unique_contacts]. by rewrite <- app_assoc.
    + destruct (IH st (earlier ++ [U.Spec.key_of c])) as (st' & Hrun & Hout);
        [by apply u_seen_agrees_skip|].
      exists st'. done.
Qed.

Lemma u_dedupe_refines xs :
  Forall U.email_is_str xs → U.dedupe xs = Ret (U.Spec.dedupe xs).
Proof.
  intros Hxs. unfold U.dedupe.
  destruct (u_dedupe_loop_first_seen xs Hxs
              {| U.unique_contacts := []; U.seen_emails := ∅ |} [])
    as (st' & Hrun & Hout); [apply u_seen_agrees_empty|].
  rewrite Hrun. cbn [mbind outcome_bind]. by rewrite Hout.
Qed.

(** C1: on contacts whose [email] is a string, [dedupe] returns what the
    specification describes: the contacts are read in input order, the key
    of a contact is its email trimmed and in lower case, a contact with an
    empty key is skipped, of the contacts with one key only the first is
    kept, the kept contact has its [email] replaced by the key and every
    other field as it was, and the kept contacts come in the order of their
    first occurrence.  Trimming removes the blanks of Unicode and the
    lower-case mapping is the interpreter's. *)
Theorem u_dedupe_first_seen_wins (xs : list (gmap string U.pyval)) :
  Forall U.email_is_str xs → U.dedupe xs = Ret (U.Spec.dedupe xs).
Proof. apply u_dedupe_refines. Qed.

Lemma u_first_seen_from_input xs :
  ∀ earlier,
    Forall (λ y, ∃ d, d ∈ xs ∧ y = <["email" := U.PyStr (U.Spec.key_of d)]> d)
           (U.Spec.first_seen earlier xs).
Proof.
  induction xs as [|c xs IH]; intros earlier; cbn [U.Spec.first_seen]; [done|].
  assert (Forall (λ y, ∃ d, d ∈ c :: xs
                            ∧ y = <["email" := U.PyStr (U.Spec.key_of d)]> d)
                 (U.Spec.first_seen (earlier ++ [U.Spec.key_of c]) xs)) as Hrest.
  { eapply Forall_impl; [apply IH|]. intros y (d & Hd & ->).
    exists d. split; [by right|done]. }
  destruct (_ && _); [|done].
  constructor; [|done]. exists c. split; [by left|done].
Qed.

Lemma u_first_seen_length xs :
  ∀ earlier, (length (U.Spec.first_seen earlier xs) ≤ length xs)%nat.
Proof.
  induction xs as [|c xs IH]; intros earlier; cbn [U.Spec.first_seen]; [done|].
  destruct (_ && _); cbn [length]; [apply le_n_S|apply Nat.le_le_succ_r]; apply IH.
Qed.

(** The emails stored in the output are the kept keys. *)
Lemma u_first_seen_emails xs :
  ∀ earlier,
    List.map (λ y : gmap string U.pyval, y !! "email") (U.Spec.first_seen earlier xs)
    = List.map (λ k, Some (U.PyStr k)) (U.kept_keys earlier xs).
Proof.
  induction xs as [|c xs IH]; intros earlier; [done|].
  cbn [U.Spec.first_seen U.kept_keys].
  destruct (_ && _); [|apply IH].
  cbn [List.map]. by rewrite IH, lookup_insert_eq.
Qed.

Lemma u_kept_keys_spec xs :
  ∀ earlier k,
    k ∈ U.kept_keys earlier xs
    ↔ U.Str.truthy k = true ∧ k ∈ List.map U.Spec.key_of xs ∧ k ∉ earlier.
Proof.
  induction xs as [|c xs IH]; intros earlier k; cbn [U.kept_keys List.map].
  - split; [by intros ?%elem_of_nil|by intros (_ & ?%elem_of_nil & _)].
  - destruct (U.Str.truthy (U.Spec.key_of c)
              && negb (bool_decide (U.Spec.key_of c ∈ earlier))) eqn:Hkeep.
    + apply andb_prop in Hkeep as [Ht Hfresh].
      apply negb_true_iff, bool_decide_eq_false in Hfresh.
      rewrite !elem_of_cons, IH, elem_of_app, list_elem_of_singleton.
      destruct (decide (k = U.Spec.key_of c)) as [->|Hne]; [tauto|]. tauto.
    + rewrite IH, elem_of_cons, elem_of_app, list_elem_of_singleton.
      destruct (decide (k = U.Spec.key_of c)) as [->|Hne]; [|tauto].
      split; [tauto|]. intros (Ht & _ & Hfresh). exfalso.
      rewrite Ht in Hkeep. cbn [andb] in Hkeep.
      by apply negb_false_iff, bool_decide_eq_true in Hkeep.
Qed.

Lemma u_kept_keys_NoDup xs : ∀ earlier, NoDup (U.kept_keys earlier xs).
Proof.
  induction xs as [|c xs IH]; intros earlier; cbn [U.kept_keys]; [constructor|].
  destruct (_ && _); [|apply IH].
  constructor; [|apply IH].
  intros Hin. apply u_kept_keys_spec in Hin as (_ & _ & Hfresh).
  apply Hfresh, elem_of_app. right. by apply list_elem_of_singleton.
Qed.

Lemma u_email_value_inj : Inj (=) (=) (λ k : list N, Some (U.PyStr k)).
Proof. by intros ?? [= ->]. Qed.

(** X4: the loop loses no address and invents none: a string is the [email]
    of an output contact exactly when it is not empty and is the trimmed,
    lower-case email of some input contact. *)
Theorem u_dedupe_emails_covered (xs : list (gmap string U.pyval)) :
  Forall U.email_is_str xs →
  ∃ ys,
    U.dedupe xs = Ret ys
    ∧ ∀ k, Some (U.PyStr k) ∈ List.map (λ y : gmap string U.pyval, y !! "email") ys
           ↔ k ≠ [] ∧ k ∈ List.map U.Spec.key_of xs.
Proof.
  intros Hxs. exists (U.Spec.dedupe xs). split; [by apply u_dedupe_refines|].
  intros k. unfold U.Spec.dedupe. rewrite u_first_seen_emails.
  change (List.map ?f ?l) with (f <$> l) at 1.
  rewrite (list_elem_of_fmap_inj (λ k, Some (U.PyStr k)) (Inj0:=u_email_value_inj)).
  rewrite u_kept_keys_spec.
  split.
  - intros (Ht & Hin & _). split; [by destruct k|done].
  - intros (Hk & Hin). split; [by destruct k|]. split; [done|apply not_elem_of_nil].
Qed.

(** ** The loop on the store *)

Lemma u_store_inv_read_dict h0 hi us acc l d :
  U.store_inv h0 hi us acc →
  h0 !! l = Some (U.Store.ODict d) → U.Store.read_dict hi l = Ret d.
Proof.
  intros (Hpre & _) Hl. unfold U.Store.read_dict.
  by rewrite (prefix_lookup_Some _ _ _ _ Hl Hpre).
Qed.

Lemma u_store_inv_read_list h0 hi us acc l xs :
  U.store_inv h0 hi us acc →
  h0 !! l = Some (U.Store.OList xs) → U.Store.read_list hi l = Ret xs.
Proof.
  intros (Hpre & _) Hl. unfold U.Store.read_list.
  by rewrite (prefix_lookup_Some _ _ _ _ Hl Hpre).
Qed.

Lemma u_store_inv_alloc h0 : U.store_inv h0 (h0 ++ [U.Store.OList []]) [] [].
Proof.
  split; [by apply prefix_app_r|]. split; [|split; constructor].
  by rewrite list_lookup_middle.
Qed.

Lemma u_store_inv_keep h0 hi us acc d v :
  U.store_inv h0 hi us acc →
  ∃ h',
    (h ← U.Store.setitem (hi ++ [U.Store.ODict d]) (length hi) "email" v;
     U.Store.append h (length h0) (length hi)) = Ret h'
    ∧ U.store_inv h0 h' (us ++ [length hi]) (acc ++ [<["email" := v]> d]).
Proof.
  intros (Hpre & Hu & Hnd & Hacc).
  assert (length h0 < length hi)%nat as Hlt by (by eapply lookup_lt_Some).
  unfold U.Store.setitem, U.Store.read_dict.
  rewrite list_lookup_middle by done. cbn [mbind outcome_bind].
  rewrite (insert_app_r_alt hi) by done. rewrite Nat.sub_diag. cbn [insert list_insert].
  unfold U.Store.append, U.Store.read_list.
  rewrite lookup_app_l, Hu by done. cbn [mbind outcome_bind].
  eexists. split; [done|].
  split; [|split; [|split]].
  - apply prefix_insert_ge; [by apply prefix_app_r|done].
  - apply list_lookup_insert_eq. rewrite length_app. lia.
  - apply NoDup_app. split; [done|]. split; [|apply NoDup_singleton].
    intros l Hl ->%list_elem_of_singleton.
    destruct (proj1 (list_elem_of_lookup _ _) Hl) as [i Hi].
    destruct (Forall2_lookup_l _ _ _ _ _ Hacc Hi) as (? & _ & _ & ?). lia.
  - rewrite length_insert, length_app. cbn [length].
    apply Forall2_app.
    + eapply Forall2_impl; [exact Hacc|]. intros l d' (Hl & Hb).
      split; [|lia].
      rewrite list_lookup_insert_ne by lia. by rewrite lookup_app_l by lia.
    + constructor; [|constructor]. split; [|lia].
      rewrite list_lookup_insert_ne by lia. by rewrite list_lookup_middle.
Qed.

Lemma u_loop_body_sim h0 hi us acc seen c d :
  U.store_inv h0 hi us acc →
  h0 !! c = Some (U.Store.ODict d) →
  U.email_is_str d →
  ∃ st' h' us',
    U.dedupe_step {| U.unique_contacts := acc; U.seen_emails := seen |} d = Ret st'
    ∧ U.Store.loop_body (length h0) (hi, seen) c = Ret (h', U.seen_emails st')
    ∧ U.store_inv h0 h' us' (U.unique_contacts st').
Proof.
  intros Hinv Hc Hd. unfold U.Store.loop_body, U.dedupe_step.
  rewrite (u_store_inv_read_dict _ _ _ _ _ _ Hinv Hc). cbn [mbind outcome_bind].
  rewrite (u_dedupe_key_ok d Hd).
  cbn [mbind outcome_bind U.seen_emails U.unique_contacts].
  destruct (U.Str.truthy (U.Spec.key_of d)
            && negb (bool_decide (U.Spec.key_of d ∈ seen))).
  - unfold U.Store.alloc.
    destruct (u_store_inv_keep h0 hi us acc d (U.PyStr (U.Spec.key_of d)) Hinv)
      as (h' & Hrun & Hinv').
    eexists _, h', _. split; [done|].
    split; [|exact Hinv'].
    cbn [mbind outcome_bind] in Hrun |- *.
    destruct (U.Store.setitem _ _ _ _) as [h2|]; [|done].
    cbn [mbind outcome_bind] in Hrun |- *. by rewrite Hrun.
  - eexists _, hi, us. done.
Qed.

Lemma u_iterate_sim h0 contacts ls :
  h0 !! contacts = Some (U.Store.OList ls) →
  ∀ rest_ls rest_ds,
    Forall2 (λ l d, h0 !! l = Some (U.Store.ODict d)) rest_ls rest_ds →
    Forall U.email_is_str rest_ds →
    ∀ pre hi seen us acc fuel,
      ls = pre ++ rest_ls →
      U.store_inv h0 hi us acc →
      (length rest_ls < fuel)%nat →
      ∃ st' h' us',
        U.dedupe_loop {| U.unique_contacts := acc; U.seen_emails := seen |} rest_ds
        = Ret st'
        ∧ U.Store.iterate fuel (length pre) contacts (length h0) (hi, seen)
          = Some (Ret (h', U.seen_emails st'))
        ∧ U.store_inv h0 h' us' (U.unique_contacts st').
Proof.
  intros Hls. induction 1 as [|l d rest_ls rest_ds Hl _ IH];
    intros Hok pre hi seen us acc fuel -> Hinv Hfuel;
    (destruct fuel as [|fuel]; [cbn [length] in Hfuel; lia|]);
    cbn [U.Store.iterate fst];
    rewrite (u_store_inv_read_list _ _ _ _ _ _ Hinv Hls).
  - rewrite app_nil_r, lookup_ge_None_2 by done.
    eexists _, hi, us. done.
  - rewrite list_lookup_middle by done.
    apply Forall_cons in Hok as [Hd Hok].
    destruct (u_loop_body_sim h0 hi us acc seen l d Hinv Hl Hd)
      as (st1 & h1 & us1 & Hstep & Hbody & Hinv1).
    rewrite Hbody. cbn [U.dedupe_loop]. rewrite Hstep. cbn [mbind outcome_bind].
    destruct st1 as [acc1 seen1]. cbn [U.seen_emails U.unique_contacts] in *.
    cbn [length] in Hfuel.
    assert (pre ++ l :: rest_ls = (pre ++ [l]) ++ rest_ls) as Hsplit
      by (by rewrite <- app_assoc).
    destruct (IH Hok (pre ++ [l]) h1 seen1 us1 acc1 fuel Hsplit Hinv1
                ltac:(lia))
      as (st' & h' & us' & Hloop & Hiter & Hinv').
    rewrite length_app, Nat.add_1_r in Hiter.
    exists st', h', us'. done.
Qed.

(** C10: the loop does not touch its input.  Started on a store [h] where
    [contacts] is a list of dictionaries whose [email] is a string, it ends
    (given fuel for one turn per element and the final test) in a store
    where every object of [h], the list [contacts] and each of its
    dictionaries included, is what it was; the result list and its entries
    are new objects, distinct from one another; and each entry holds one
    input dictionary with [email] replaced by its trimmed, lower-case form
    and every other field unchanged. *)
Theorem u_dedupe_leaves_input (h : list U.Store.obj) (contacts : nat)
    (ls : list nat) (ds : list (gmap string U.pyval)) (fuel : nat) :
  h !! contacts = Some (U.Store.OList ls) →
  Forall2 (λ l d, h !! l = Some (U.Store.ODict d)) ls ds →
  Forall U.email_is_str ds →
  (length ls < fuel)%nat →
  ∃ h' unique us,
    U.Store.run fuel h contacts = Some (Ret (h', unique))
    ∧ (∀ l o, h !! l = Some o → h' !! l = Some o)
    ∧ h' !! unique = Some (U.Store.OList us)
    ∧ NoDup (unique :: us)
    ∧ Forall (λ l, (length h ≤ l)%nat) (unique :: us)
    ∧ Forall2 (λ l y, h' !! l = Some (U.Store.ODict y)) us (U.Spec.dedupe ds)
    ∧ Forall (λ y, ∃ d, d ∈ ds ∧ y = <["email" := U.PyStr (U.Spec.key_of d)]> d)
             (U.Spec.dedupe ds).
Proof.
  intros Hls Hds Hok Hfuel.
  destruct (u_iterate_sim h contacts ls Hls ls ds Hds Hok [] _ ∅ [] [] fuel
              eq_refl (u_store_inv_alloc h) Hfuel)
    as (st' & h' & us & Hloop & Hiter & Hpre & Hu & Hnd & Hacc).
  destruct (u_dedupe_loop_first_seen ds Hok
              {| U.unique_contacts := []; U.seen_emails := ∅ |} []
              u_seen_agrees_empty)
    as (st'' & Hloop' & Hout).
  rewrite Hloop in Hloop'. injection Hloop' as <-.
  cbn [U.unique_contacts app] in Hout. fold (U.Spec.dedupe ds) in Hout.
  rewrite Hout in Hacc.
  exists h', (length h), us. unfold U.Store.run, U.Store.alloc.
  cbn [length] in Hiter. rewrite Hiter.
  split; [done|]. split; [|split; [done|split; [|split; [|split]]]].
  - intros l o Hl. by apply (prefix_lookup_Some h).
  - constructor; [|done]. intros Hin.
    destruct (proj1 (list_elem_of_lookup _ _) Hin) as [i Hi].
    destruct (Forall2_lookup_l _ _ _ _ _ Hacc Hi) as (? & _ & _ & ?). lia.
  - constructor; [done|].
    apply Forall_forall. intros l Hin.
    destruct (proj1 (list_elem_of_lookup _ _) Hin) as [i Hi].
    destruct (Forall2_lookup_l _ _ _ _ _ Hacc Hi) as (? & _ & _ & ?). lia.
  - eapply Forall2_impl; [exact Hacc|]. by intros l y [? _].
  - apply u_first_seen_from_input.
Qed.

(** ** ContactBuilder *)

Lemma u_extract_domain_returns e : ∃ v, U.extract_domain_from_email e = Ret v.
Proof.
  unfold U.extract_domain_from_email.
  destruct (_ || _); [by eauto|]. apply try_except_returns.
Qed.

Lemma u_extract_domain_valid e :
  U.Spec.is_valid e = true → U.Str.strip e = e →
  U.extract_domain_from_email e
  = Ret (U.PyStr (U.Str.strip (U.Spec.after (U.ch "@") e)))
  ∧ U.Str.truthy (U.Str.strip (U.Spec.after (U.ch "@") e)) = true
  ∧ U.Str.contains (U.lit ".") (U.Str.strip (U.Spec.after (U.ch "@") e)) = true.
Proof.
  intros Hv He.
  destruct (u_is_valid_parts e Hv He) as (u & d & Hs & Ht & Hat & _ & _ & Hdot).
  rewrite (u_split_pair_after _ _ _ _ Hs).
  assert (U.Str.contains (U.lit ".") (U.Str.strip d) = true) as Hdot'
    by (by rewrite (u_contains_char_strip (U.ch "."))).
  split; [|split; [by eapply (u_contains_char_truthy (U.ch "."))|done]].
  unfold U.extract_domain_from_email. by rewrite Ht, Hat, Hs.
Qed.

(** The first and last name that [create_contact_from_email_only] derives
    from a local part. *)
Lemma u_email_only_result e local rest domain :
  U.Str.split (U.ch "@") e = local :: rest →
  U.extract_domain_from_email e = Ret domain →
  U.create_contact_from_email_only e
  = Ret (Some
      (if U.Str.contains (U.lit ".") local then
         match U.Str.split (U.ch ".") local with
         | p0 :: p1 :: _ =>
             U.contact_literal (U.capitalize local) (U.capitalize p0)
               (U.capitalize p1) e domain
         | _ => U.contact_literal (U.capitalize local) (U.capitalize local) [] e
                  domain
         end
       else U.contact_literal (U.capitalize local) (U.capitalize local) [] e
              domain)).
Proof.
  intros Hs Hdom. unfold U.create_contact_from_email_only.
  rewrite Hs. cbn [py_index lookup list_lookup mbind outcome_bind].
  destruct (U.Str.contains (U.lit ".") local).
  - destruct (U.Str.split (U.ch ".") local) as [|p0 [|p1 r]];
      cbn; by rewrite Hdom.
  - cbn. by rewrite Hdom.
Qed.

Lemma u_email_only_shape e :
  ∃ full first last domain,
    U.extract_domain_from_email e = Ret domain
    ∧ U.create_contact_from_email_only e
      = Ret (Some (U.contact_literal full first last e domain)).
Proof.
  destruct (u_split_nonempty (U.ch "@") e) as (local & rest & Hs).
  destruct (u_extract_domain_returns e) as (domain & Hdom).
  pose proof (u_email_only_result e local rest domain Hs Hdom) as Hr.
  destruct (U.Str.contains (U.lit ".") local);
    [destruct (U.Str.split (U.ch ".") local) as [|p0 [|p1 r]]|]; by eauto 10.
Qed.

Lemma u_name_email_shape name e :
  U.create_contact_from_name_email name e = Ret None
  ∨ ∃ full first last domain,
      U.extract_domain_from_email e = Ret domain
      ∧ U.create_contact_from_name_email name e
        = Ret (Some (U.contact_literal full first last e domain)).
Proof.
  destruct (u_extract_domain_returns e) as (domain & Hdom).
  unfold U.create_contact_from_name_email.
  destruct (_ || _); [by left|].
  destruct (2 <=? _)%nat.
  - destruct (U.Str.words _) as [|p0 r]; cbn; rewrite Hdom; cbn; [by left|].
    right. by eauto 10.
  - cbn. rewrite Hdom. right. by eauto 10.
Qed.

Lemma u_contact_literal_nonempty full first last e domain :
  U.contact_literal full first last e domain ≠ ∅.
Proof. apply insert_non_empty. Qed.

Lemma u_contact_literal_lookup full first last e domain :
  U.contact_literal full first last e domain !! "full_name" = Some (U.PyStr full)
  ∧ U.contact_literal full first last e domain !! "first_name"
    = Some (U.PyStr first)
  ∧ U.contact_literal full first last e domain !! "last_name"
    = Some (U.PyStr last)
  ∧ U.contact_literal full first last e domain !! "email" = Some (U.PyStr e)
  ∧ U.contact_literal full first last e domain !! "domain" = Some domain.
Proof. unfold U.contact_literal. repeat split; by simplify_map_eq. Qed.

Lemma u_split_two_segments c a b tail :
  U.Str.contains [c] a = false →
  U.Str.contains [c] b = false →
  tail = [] ∨ (∃ t, tail = c :: t) →
  ∃ more, U.Str.split c (a ++ c :: b ++ tail) = a :: b :: more.
Proof.
  intros Ha Hb Htail. rewrite (u_split_app_sep c a _ Ha).
  destruct Htail as [->|[t ->]].
  - rewrite app_nil_r, (u_split_no_sep c b Hb). by eauto.
  - rewrite (u_split_app_sep c b _ Hb). by eauto.
Qed.

(** C4, as the code has it: the local part is the text before the first
    [@]; [full_name] is the capitalized local part; a local part without
    a dot is capitalized as [first_name], with an empty [last_name]; a local
    part with a dot is split on every dot, its first two segments are
    capitalized as [first_name] and [last_name], and any further segment is
    dropped.  This holds for every email of that form, approved by the
    validator or not; [capitalize] is the interpreter's. *)
Theorem u_email_only_names :
  (∀ local rest : list N,
     U.Str.contains (U.lit "@") local = false →
     U.Str.contains (U.lit ".") local = false →
     ∃ domain,
       U.create_contact_from_email_only (local ++ U.lit "@" ++ rest)
       = Ret (Some (U.contact_literal (U.capitalize local)
                      (U.capitalize local) []
                      (local ++ U.lit "@" ++ rest) domain)))
  ∧ (∀ a b tail rest : list N,
       U.Str.contains (U.lit "@") (a ++ U.lit "." ++ b ++ tail) = false →
       U.Str.contains (U.lit ".") a = false →
       U.Str.contains (U.lit ".") b = false →
       tail = [] ∨ (∃ t, tail = U.lit "." ++ t) →
       ∃ domain,
         U.create_contact_from_email_only
           ((a ++ U.lit "." ++ b ++ tail) ++ U.lit "@" ++ rest)
         = Ret (Some (U.contact_literal
                        (U.capitalize (a ++ U.lit "." ++ b ++ tail))
                        (U.capitalize a) (U.capitalize b)
                        ((a ++ U.lit "." ++ b ++ tail) ++ U.lit "@" ++ rest)
                        domain))).
Proof.
  split.
  - intros local rest Hat Hdot.
    destruct (u_extract_domain_returns (local ++ U.lit "@" ++ rest))
      as (domain & Hdom).
    exists domain.
    rewrite (u_email_only_result _ local (U.Str.split (U.ch "@") rest) domain);
      [by rewrite Hdot| |done].
    by apply (u_split_app_sep (U.ch "@") local rest).
  - intros a b tail rest Hat Ha Hb Htail.
    destruct (u_extract_domain_returns
                ((a ++ U.lit "." ++ b ++ tail) ++ U.lit "@" ++ rest))
      as (domain & Hdom).
    exists domain.
    rewrite (u_email_only_result _ (a ++ U.lit "." ++ b ++ tail)
               (U.Str.split (U.ch "@") rest) domain); [| |done].
    + assert (U.Str.contains (U.lit ".") (a ++ U.lit "." ++ b ++ tail) = true)
        as ->.
      { rewrite (u_contains_char_app (U.ch ".")).
        change (U.lit "." ++ b ++ tail) with (U.ch "." :: b ++ tail).
        rewrite (u_contains_char_cons (U.ch ".")), N.eqb_refl.
        by rewrite orb_true_r. }
      destruct (u_split_two_segments (U.ch ".") a b tail Ha Hb Htail)
        as (more & Hs).
      change (U.lit "." ++ b ++ tail) with (U.ch "." :: b ++ tail).
      by rewrite Hs.
    + by apply (u_split_app_sep (U.ch "@") _ rest).
Qed.

(** ** FieldExtractor *)

Lemma u_built_from_ok name e :
  U.Str.strip e = e → Forall U.extracted_ok (U.Spec.built_from name e).
Proof.
  intros He. unfold U.Spec.built_from.
  destruct (_ && _); [|done].
  rewrite u_is_valid_email_str. destruct (U.Spec.is_valid e) eqn:Hv; [|done].
  destruct (u_extract_domain_valid e Hv He) as (Hdom & Ht & Hdot).
  destruct (u_name_email_shape name e)
    as [->|(full & first & last & domain & Hd & ->)]; [done|].
  rewrite Hdom in Hd. injection Hd as <-.
  constructor; [|done]. exists full, first, last, e.
  by rewrite u_is_valid_email_str, Hv.
Qed.

(** What a part without the two brackets contributes. *)
Lemma u_bare_ok e :
  U.Str.strip e = e →
  U.Spec.is_valid e = true →
  ∃ d, U.create_contact_from_email_only e = Ret (Some d) ∧ d ≠ ∅
       ∧ U.extracted_ok d.
Proof.
  intros He Hv.
  destruct (u_extract_domain_valid e Hv He) as (Hdom & Ht & Hdot).
  destruct (u_email_only_shape e) as (full & first & last & domain & Hd & ->).
  rewrite Hdom in Hd. injection Hd as <-.
  eexists. split; [done|]. split; [apply u_contact_literal_nonempty|].
  exists full, first, last, e. by rewrite u_is_valid_email_str, Hv.
Qed.

Lemma u_append_if_truthy_literal d cs :
  d ≠ ∅ → U.append_if_truthy (Some d) cs = (Ret tt, cs ++ [d]).
Proof.
  intros Hd. unfold U.append_if_truthy, U.contact_truthy.
  by rewrite bool_decide_eq_false_2.
Qed.

(** The turn of the loop on a part with both brackets. *)
Lemma u_scan_part_brackets_eq part cs :
  U.Str.truthy part = true →
  U.Str.contains (U.lit "<") part = true →
  U.Str.contains (U.lit ">") part = true →
  U.scan_part part cs
  = (Ret tt,
     cs ++ U.Spec.built_from
             (U.Str.strip (U.Str.slice_to part (U.Str.find (U.ch "<") part)))
             (U.Str.strip (U.Str.slice part (U.Str.find (U.ch "<") part + 1)
                             (U.Str.find (U.ch ">") part)))).
Proof.
  intros Ht Hlt Hgt. unfold U.scan_part. rewrite Ht, Hlt, Hgt. cbn [negb andb].
  rewrite (proj2 (Z.eqb_neq _ _) (u_find_contains (U.ch "<") _ Hlt)).
  rewrite (proj2 (Z.eqb_neq _ _) (u_find_contains (U.ch ">") _ Hgt)).
  cbn [negb andb].
  set (name := U.Str.strip _). set (e := U.Str.strip _).
  unfold U.Spec.built_from, mbind, proc_bind, lift, mret, proc_ret.
  destruct (U.Str.truthy name && U.Str.truthy e); [|by rewrite app_nil_r].
  rewrite u_is_valid_email_str.
  destruct (U.Spec.is_valid e); [|by rewrite app_nil_r].
  destruct (u_name_email_shape name e)
    as [->|(full & first & last & domain & _ & ->)].
  - cbn. by rewrite app_nil_r.
  - apply u_append_if_truthy_literal, u_contact_literal_nonempty.
Qed.

Lemma u_scan_part_appends part cs :
  ∃ new, U.scan_part part cs = (Ret tt, cs ++ new) ∧ Forall U.extracted_ok new.
Proof.
  destruct (U.Str.truthy part) eqn:Ht.
  2:{ exists []. unfold U.scan_part. rewrite Ht. by rewrite app_nil_r. }
  destruct (U.Str.contains (U.lit "<") part && U.Str.contains (U.lit ">") part)
    eqn:Hb.
  - apply andb_prop in Hb as [Hlt Hgt].
    eexists. split; [by apply u_scan_part_brackets_eq|].
    apply u_built_from_ok, u_strip_idem.
  - unfold U.scan_part. rewrite Ht, Hb. cbn [negb].
    destruct (U.Str.contains (U.lit "@") part && U.Str.contains (U.lit ".") part);
      [|exists []; by rewrite app_nil_r].
    unfold mbind, proc_bind, lift, mret, proc_ret.
    rewrite u_is_valid_email_str.
    destruct (U.Spec.is_valid (U.Str.strip part)) eqn:Hv;
      [|exists []; by rewrite app_nil_r].
    destruct (u_bare_ok _ (u_strip_idem part) Hv) as (d & -> & Hne & Hok).
    exists [d]. split; [by apply u_append_if_truthy_literal|].
    by constructor.
Qed.

Lemma u_for_each_scan_appends parts :
  ∀ cs, ∃ new,
    for_each parts U.scan_part cs = (Ret tt, cs ++ new)
    ∧ Forall U.extracted_ok new.
Proof.
  induction parts as [|part parts IH]; intros cs.
  - exists []. by rewrite app_nil_r.
  - cbn [for_each]. unfold mbind, proc_bind.
    destruct (u_scan_part_appends part cs) as (new1 & -> & Hok1).
    destruct (IH (cs ++ new1)) as (new2 & -> & Hok2).
    exists (new1 ++ new2). rewrite app_assoc.
    split; [done|]. by apply Forall_app.
Qed.

Lemma u_keep_contact_returns c : ∃ b, U.keep_contact c = Ret b.
Proof.
  unfold U.keep_contact, U.py_getitem.
  destruct (U.contact_truthy (Some c)); cbn [andb]; [|by eauto].
  destruct (c !! "email") as [v|] eqn:E.
  - rewrite bool_decide_eq_true_2 by eauto. cbn [mbind outcome_bind].
    apply u_is_valid_email_returns.
  - rewrite bool_decide_eq_false_2 by (by intros [? ?]). by eauto.
Qed.

Lemma u_filter_contacts_returns (P : gmap string U.pyval → Prop) cs :
  Forall P cs → ∃ l, U.filter_contacts cs = Ret l ∧ Forall P l.
Proof.
  induction 1 as [|c cs Hc _ (l & IH & Hl)]; [by exists []|].
  cbn [U.filter_contacts].
  destruct (u_keep_contact_returns c) as (b & ->). rewrite IH.
  cbn [mbind outcome_bind]. destruct b; eexists; split; eauto.
Qed.

(** The [try] block either raises at [str(text)], with [contacts] still
    empty, or returns well-formed contacts. *)
Lemma u_extract_body_cases text :
  (∃ e, U.py_str text = Raise e ∧ U.extract_body text [] = (Raise e, []))
  ∨ (∃ l cs, U.extract_body text [] = (Ret l, cs) ∧ Forall U.extracted_ok l).
Proof.
  unfold U.extract_body, mbind, proc_bind, lift.
  destruct (U.py_str text) as [s|e]; [right|left; by eauto].
  destruct (_ || _); [by exists [], []|].
  destruct (u_for_each_scan_appends
              (List.map U.Str.strip (U.Str.split (U.ch ",") (U.Str.strip s))) [])
    as (new & -> & Hok).
  cbn [app]. unfold get.
  destruct (u_filter_contacts_returns U.extracted_ok new Hok) as (l & -> & Hl).
  by eauto.
Qed.

Lemma u_extract_returns text :
  ∃ l, U.extract_multiple_contacts text = Ret l ∧ Forall U.extracted_ok l.
Proof.
  unfold U.extract_multiple_contacts.
  destruct (u_extract_body_cases text) as [(e & _ & ->)|(l & cs & -> & Hl)];
    by eauto.
Qed.

Lemma u_contact_literal_dom full first last e (v : U.pyval) :
  dom (U.contact_literal full first last e v) = U.contact_fields.
Proof.
  unfold U.contact_literal, U.contact_fields.
  rewrite !dom_insert_L, dom_empty_L. set_solver.
Qed.

(** C9, as the code has it: every contact that the extractor returns is a
    dictionary with exactly the five fields, its email is accepted by the
    validator, and its domain is a string, not empty and with a dot, equal
    to the text after the [@] of the email with the blanks around it
    removed. *)
Theorem u_extracted_contacts_shape :
  ∀ text : U.pyval,
    ∃ l,
      U.extract_multiple_contacts text = Ret l
      ∧ Forall (λ d : gmap string U.pyval,
          ∃ full first last email domain,
            d = U.contact_literal full first last email (U.PyStr domain)
            ∧ dom d = U.contact_fields
            ∧ U.is_valid_email (U.PyStr email) = Ret true
            ∧ domain = U.Str.strip (U.Spec.after (U.ch "@") email)
            ∧ U.Str.truthy domain = true
            ∧ U.Str.contains (U.lit ".") domain = true) l.
Proof.
  intros text.
  destruct (u_extract_returns text) as (l & Hrun & Hl).
  exists l. split; [done|].
  eapply Forall_impl; [exact Hl|].
  intros d (full & first & last & email & -> & Hv & _ & Ht & Hdot).
  exists full, first, last, email, (U.Str.strip (U.Spec.after (U.ch "@") email)).
  by rewrite u_contact_literal_dom.
Qed.

Lemma u_built_from_no_email name : U.Spec.built_from name [] = [].
Proof. unfold U.Spec.built_from. cbn [U.Str.truthy]. by rewrite andb_false_r. Qed.

(** C2, as the code has it: in a part with both brackets the extractor
    takes the first [<] and the first [>] of the part.  When that [>] comes
    after the [<], the text before the [<] is the candidate name, the text
    between the two is the candidate email (both trimmed), and the part
    contributes the contact of the name-and-email builder exactly when the
    name and the email are not empty, the validator accepts the email and
    the builder succeeds.  When the first [>] comes before the first [<],
    the part contributes nothing. *)
Theorem u_scan_part_brackets :
  (∀ (pre mid post : list N) (cs : list (gmap string U.pyval)),
     U.Str.contains (U.lit "<") pre = false →
     U.Str.contains (U.lit ">") pre = false →
     U.Str.contains (U.lit ">") mid = false →
     U.scan_part (pre ++ U.lit "<" ++ mid ++ U.lit ">" ++ post) cs
     = (Ret tt, cs ++ U.Spec.built_from (U.Str.strip pre) (U.Str.strip mid)))
  ∧ (∀ (pre rest : list N) (cs : list (gmap string U.pyval)),
       U.Str.contains (U.lit "<") pre = false →
       U.Str.contains (U.lit ">") pre = false →
       U.Str.contains (U.lit "<") rest = true →
       U.scan_part (pre ++ U.lit ">" ++ rest) cs = (Ret tt, cs)).
Proof.
  split.
  - intros pre mid post cs Hlt Hgt Hmid.
    change (U.lit "<" ++ mid ++ U.lit ">" ++ post)
      with (U.ch "<" :: mid ++ U.ch ">" :: post).
    change (U.lit "<") with [U.ch "<"] in *.
    change (U.lit ">") with [U.ch ">"] in *.
    set (part := pre ++ U.ch "<" :: mid ++ U.ch ">" :: post).
    assert (U.Str.contains [U.ch "<"] part = true) as Hin_lt.
    { unfold part. rewrite (u_contains_char_app (U.ch "<")).
      rewrite (u_contains_char_cons (U.ch "<")), N.eqb_refl.
      by rewrite orb_true_r. }
    assert (U.Str.find (U.ch "<") part = U.Str.len pre) as Hstart
      by apply (u_find_app_sep (U.ch "<") pre _ Hlt).
    assert (part = (pre ++ U.ch "<" :: mid) ++ U.ch ">" :: post) as Hsplit
      by (unfold part; by rewrite <- app_assoc).
    assert (U.Str.contains [U.ch ">"] (pre ++ U.ch "<" :: mid) = false)
      as Hno_gt.
    { rewrite (u_contains_char_app (U.ch ">")), Hgt.
      rewrite (u_contains_char_cons (U.ch ">")). by rewrite Hmid. }
    assert (U.Str.contains [U.ch ">"] part = true) as Hin_gt.
    { rewrite Hsplit, (u_contains_char_app (U.ch ">")).
      rewrite (u_contains_char_cons (U.ch ">")), N.eqb_refl.
      by rewrite orb_true_r. }
    assert (U.Str.find (U.ch ">") part
            = (U.Str.len (pre ++ [U.ch "<"]) + U.Str.len mid)%Z) as Hend.
    { rewrite Hsplit, (u_find_app_sep (U.ch ">") _ _ Hno_gt).
      by rewrite <- u_len_app, <- app_assoc. }
    rewrite u_scan_part_brackets_eq;
      [|by eapply (u_contains_char_truthy (U.ch "<"))|done|done].
    rewrite Hend, Hstart. unfold part at 1. rewrite u_slice_to_prefix.
    replace (U.Str.len pre + 1)%Z with (U.Str.len (pre ++ [U.ch "<"]))
      by (by rewrite u_len_app).
    replace part with ((pre ++ [U.ch "<"]) ++ mid ++ U.ch ">" :: post)
      by (unfold part; by rewrite <- app_assoc).
    by rewrite u_slice_middle.
  - intros pre rest cs Hlt Hgt Hrest.
    change (U.lit ">" ++ rest) with (U.ch ">" :: rest).
    change (U.lit "<") with [U.ch "<"] in *.
    change (U.lit ">") with [U.ch ">"] in *.
    assert (U.Str.contains [U.ch "<"] (U.ch ">" :: rest) = true) as Hrest'
      by (by rewrite (u_contains_char_cons (U.ch "<")), Hrest, orb_true_r).
    assert (U.Str.contains [U.ch "<"] (pre ++ U.ch ">" :: rest) = true)
      as Hin_lt
      by (by rewrite (u_contains_char_app (U.ch "<")), Hrest', orb_true_r).
    assert (U.Str.contains [U.ch ">"] (pre ++ U.ch ">" :: rest) = true)
      as Hin_gt.
    { rewrite (u_contains_char_app (U.ch ">")).
      rewrite (u_contains_char_cons (U.ch ">")), N.eqb_refl.
      by rewrite orb_true_r. }
    rewrite u_scan_part_brackets_eq;
      [|by eapply (u_contains_char_truthy (U.ch "<"))|done|done].
    rewrite (u_find_app_sep (U.ch ">") pre rest Hgt).
    rewrite (u_find_app_later (U.ch "<") pre _ Hlt Hrest').
    pose proof (u_find_bounds (U.ch "<") (U.ch ">" :: rest)).
    pose proof (u_find_contains (U.ch "<") _ Hrest').
    rewrite u_slice_empty.
    + change (U.Str.strip []) with (@nil N).
      by rewrite u_built_from_no_email, app_nil_r.
    + unfold U.Str.len. lia.
    + rewrite u_len_app. unfold U.Str.len. lia.
Qed.

(** X9: [extract_domain_from_email] gives [None] for an email without [@]
    (the empty one included); for an email with [@] it gives the text
    between the first [@] and the next one, or the end, trimmed: of
    [a@b@c] it keeps [b]. *)
Theorem u_extract_domain_cases :
  (∀ email : list N,
     U.Str.contains (U.lit "@") email = false →
     U.extract_domain_from_email email = Ret U.PyNone)
  ∧ (∀ local domain tail : list N,
       U.Str.contains (U.lit "@") local = false →
       U.Str.contains (U.lit "@") domain = false →
       tail = [] ∨ (∃ t, tail = U.lit "@" ++ t) →
       U.extract_domain_from_email (local ++ U.lit "@" ++ domain ++ tail)
       = Ret (U.PyStr (U.Str.strip domain))).
Proof.
  split.
  - intros email Hat. unfold U.extract_domain_from_email.
    by rewrite Hat, orb_true_r.
  - intros local domain tail Hl Hd Htail. unfold U.extract_domain_from_email.
    change (U.lit "@" ++ domain ++ tail) with (U.ch "@" :: domain ++ tail).
    change (U.lit "@") with [U.ch "@"] in *.
    assert (U.Str.contains [U.ch "@"] (local ++ U.ch "@" :: domain ++ tail)
            = true) as Hin.
    { rewrite u_contains_char_app, u_contains_char_cons, N.eqb_refl.
      by rewrite orb_true_r. }
    rewrite Hin, (u_contains_char_truthy _ _ Hin). cbn [negb orb].
    destruct (u_split_two_segments (U.ch "@") local domain tail Hl Hd Htail)
      as (more & ->).
    done.
Qed.

(** ** Cleaning a name *)

Lemma u_sub_spaces_spaced s : U.spaced (U.Str.sub_spaces s).
Proof.
  induction s as [|c r IH]; [done|]. cbn [U.Str.sub_spaces].
  destruct (U.is_space c) eqn:Hc.
  - destruct r as [|c' r']; [by repeat split|].
    destruct (U.is_space c') eqn:Hc'; [exact IH|].
    split; [|exact IH]. intros _. split; [done|].
    cbn [U.Str.sub_spaces]. by rewrite Hc'.
  - split; [|exact IH]. intros Hs. cbn in Hs. congruence.
Qed.

Lemma u_lstrip_spaced s : U.spaced s → U.spaced (U.Str.lstrip s).
Proof.
  induction s as [|c r IH]; [done|]. intros [Hc Hr]. cbn [U.Str.lstrip].
  destruct (U.is_space c) eqn:E; [by apply IH|].
  cbn [U.spaced]. split; [congruence|done].
Qed.

Lemma u_rstrip_tidy s : U.spaced s → U.tidy (U.Str.rstrip s).
Proof.
  induction s as [|c r IH]; [done|]. intros [Hc Hr]. cbn [U.Str.rstrip].
  destruct (U.is_space c) eqn:Ec; cbn [andb].
  - destruct (U.Str.truthy (U.Str.rstrip r)) eqn:Et; cbn [negb]; [|done].
    split; [|by apply IH]. intros _. destruct (Hc eq_refl) as [-> Hlead].
    split; [done|]. split; [by apply u_rstrip_no_lead|].
    intros E0. by rewrite E0 in Et.
  - split; [|by apply IH]. congruence.
Qed.

Lemma u_strip_sub_spaces_tidy s :
  U.tidy (U.Str.strip (U.Str.sub_spaces s))
  ∧ U.no_lead (U.Str.strip (U.Str.sub_spaces s)).
Proof.
  unfold U.Str.strip. split.
  - apply u_rstrip_tidy, u_lstrip_spaced, u_sub_spaces_spaced.
  - apply u_rstrip_no_lead, u_lstrip_no_lead.
Qed.

Lemma u_all_chars_lstrip P s :
  U.all_chars P s = true → U.all_chars P (U.Str.lstrip s) = true.
Proof.
  induction s as [|c r IH]; [done|]. cbn [U.Str.lstrip]. intros Hall.
  destruct (U.is_space c); [|done]. cbn [U.all_chars] in Hall.
  apply andb_prop in Hall as [_ Hall]. by apply IH.
Qed.

Lemma u_all_chars_rstrip P s :
  U.all_chars P s = true → U.all_chars P (U.Str.rstrip s) = true.
Proof.
  induction s as [|c r IH]; [done|]. cbn [U.Str.rstrip U.all_chars].
  intros [Hc Hr]%andb_prop. destruct (_ && _); [done|].
  cbn [U.all_chars]. by rewrite Hc, IH.
Qed.

Lemma u_all_chars_sub_spaces s :
  U.all_chars (λ c, U.is_word c || U.is_space c) s = true →
  U.all_chars U.name_char (U.Str.sub_spaces s) = true.
Proof.
  induction s as [|c r IH]; [done|]. cbn [U.Str.sub_spaces U.all_chars].
  intros [Hc Hr]%andb_prop. specialize (IH Hr).
  assert (U.name_char (U.ch " ") = true) as Hsp
    by (unfold U.name_char; by rewrite N.eqb_refl, orb_true_r).
  destruct (U.is_space c) eqn:Ec.
  - destruct r as [|c' r']; [cbn [U.all_chars]; by rewrite Hsp|].
    destruct (U.is_space c'); [done|]. cbn [U.all_chars]. by rewrite Hsp, IH.
  - cbn [U.all_chars]. rewrite IH. unfold U.name_char.
    rewrite orb_false_r in Hc. by rewrite Hc.
Qed.

Lemma u_all_chars_sub_nonword s :
  U.all_chars (λ c, U.is_word c || U.is_space c) (U.Str.sub_nonword s) = true.
Proof.
  unfold U.Str.sub_nonword. induction s as [|c r IH]; [done|].
  cbn [List.map U.all_chars]. rewrite IH.
  destruct (U.is_word c || U.is_space c) eqn:E; [by rewrite E|].
  by rewrite orb_true_r.
Qed.

Lemma u_cleaned_name_chars s : U.all_chars U.name_char (U.clean_name s) = true.
Proof.
  unfold U.clean_name, U.Str.strip.
  apply u_all_chars_rstrip, u_all_chars_lstrip, u_all_chars_sub_spaces,
    u_all_chars_sub_nonword.
Qed.

Lemma u_words_head c r :
  U.is_space c = false → ∃ h t, U.Str.words (c :: r) = h :: t.
Proof.
  intros Hc. cbn [U.Str.words]. rewrite Hc.
  destruct r as [|c' r']; [by eauto|].
  destruct (U.is_space c'); [by eauto|].
  destruct (U.Str.words (c' :: r')); by eauto.
Qed.

Lemma u_join_cons_char sep c h t :
  U.Str.join sep ((c :: h) :: t) = c :: U.Str.join sep (h :: t).
Proof. by destruct t. Qed.

Lemma u_join_cons2 sep x y r :
  U.Str.join sep (x :: y :: r) = x ++ sep ++ U.Str.join sep (y :: r).
Proof. reflexivity. Qed.

Lemma u_join_words s :
  U.tidy s → U.Str.join (U.lit " ") (U.Str.words s) = U.Str.lstrip s.
Proof.
  induction s as [|c r IH]; [done|]. intros [Hc Hr].
  cbn [U.Str.words U.Str.lstrip].
  destruct (U.is_space c) eqn:Ec; [by apply IH|].
  destruct r as [|c' r']; [done|].
  specialize (IH Hr). destruct (U.is_space c') eqn:Ec'.
  - destruct Hr as [Hc' Hr']. destruct (Hc' Ec') as (-> & Hlead & Hne).
    destruct r' as [|c'' r'']; [done|]. cbn [U.no_lead] in Hlead.
    destruct (u_words_head c'' r'' Hlead) as (h & t & Hw).
    change (U.Str.words (U.ch " " :: c'' :: r''))
      with (U.Str.words (c'' :: r'')) in *.
    change (U.Str.lstrip (U.ch " " :: c'' :: r''))
      with (U.Str.lstrip (c'' :: r'')) in IH.
    cbn [U.Str.lstrip] in IH. rewrite Hlead in IH.
    rewrite Hw in *. by rewrite u_join_cons2, IH.
  - destruct (u_words_head c' r' Ec') as (h & t & Hw).
    rewrite Hw in *. rewrite u_join_cons_char, IH. cbn [U.Str.lstrip].
    by rewrite Ec'.
Qed.

Lemma u_words_no_blank s :
  Forall (λ w, w ≠ [] ∧ U.all_chars (λ c, negb (U.is_space c)) w = true)
         (U.Str.words s).
Proof.
  induction s as [|c r IH]; [by constructor|]. cbn [U.Str.words].
  destruct (U.is_space c) eqn:Ec; [done|].
  assert (U.all_chars (λ c, negb (U.is_space c)) [c] = true) as Hone
    by (cbn; by rewrite Ec).
  destruct r as [|c' r']; [by repeat constructor|].
  destruct (U.is_space c'); [by constructor|].
  destruct (U.Str.words (c' :: r')) as [|h t]; [by repeat constructor|].
  apply Forall_cons in IH as [[_ Hh] Ht].
  constructor; [|done]. split; [done|]. cbn. by rewrite Ec, Hh.
Qed.

(** The result of [create_contact_from_name_email] when the cleaned name
    has two characters or more. *)
Lemma u_name_email_result name e :
  (U.Str.len (U.clean_name name) <? 2)%Z = false →
  ∃ first last dv,
    U.create_contact_from_name_email name e
    = Ret (Some (U.contact_literal (U.clean_name name) first last e dv))
    ∧ ((last = [] ∧ first = U.clean_name name)
       ∨ U.clean_name name = first ++ U.lit " " ++ last)
    ∧ first ≠ []
    ∧ U.all_chars (λ c, negb (U.is_space c)) first = true.
Proof.
  intros Hlen.
  destruct (u_strip_sub_spaces_tidy (U.Str.sub_nonword name)) as [Htidy Hlead].
  unfold U.create_contact_from_name_email.
  fold (U.clean_name name) in Htidy, Hlead |- *.
  generalize dependent (U.clean_name name). intros clean Hlen Htidy Hlead.
  assert (U.Str.truthy clean = true) as Ht by (by destruct clean).
  pose proof (u_join_words clean Htidy) as Hjoin.
  rewrite (u_lstrip_id clean Hlead) in Hjoin.
  pose proof (u_words_no_blank clean) as Hwords.
  destruct (u_extract_domain_returns e) as (dv & Hdom).
  rewrite Ht, Hlen. cbn [negb orb].
  destruct (U.Str.words clean) as [|p0 [|p1 r]] eqn:Hw.
  - cbn in Hjoin. by rewrite <- Hjoin in Ht.
  - cbn in Hjoin. cbn. rewrite Hdom. cbn.
    apply Forall_cons in Hwords as [[Hne Hnb] _].
    subst clean. exists p0, [], dv.
    split; [done|]. split; [by left|]. done.
  - rewrite u_join_cons2 in Hjoin. cbn. rewrite Hdom. cbn.
    apply Forall_cons in Hwords as [[Hne Hnb] _].
    eexists p0, _, dv. split; [done|]. split; [|done]. right.
    by rewrite <- Hjoin.
Qed.

Lemma u_name_email_short name e :
  (U.Str.len (U.clean_name name) < 2)%Z →
  U.create_contact_from_name_email name e = Ret None.
Proof.
  intros Hlt. unfold U.create_contact_from_name_email.
  fold (U.clean_name name).
  rewrite (proj2 (Z.ltb_lt _ _) Hlt). by rewrite orb_true_r.
Qed.

(** X10: [create_contact_from_name_email] gives [None] exactly when the
    name, with every character other than a word character or a blank
    replaced by a space, runs of blanks collapsed and the ends trimmed, has
    fewer than two characters. *)
Theorem u_name_email_fails_iff (name_text email : list N) :
  U.create_contact_from_name_email name_text email = Ret None
  ↔ (U.Str.len (U.Str.strip (U.Str.sub_spaces (U.Str.sub_nonword name_text)))
     < 2)%Z.
Proof.
  fold (U.clean_name name_text).
  destruct (Z.ltb_spec (U.Str.len (U.clean_name name_text)) 2) as [Hlt|Hge].
  - split; [done|]. intros _. by apply u_name_email_short.
  - destruct (u_name_email_result name_text email (proj2 (Z.ltb_ge _ _) Hge))
      as (first & last & dv & -> & _).
    split; [done|lia].
Qed.

(** X11: a contact built from a name and an email holds the email as given;
    its [full_name] is the cleaned name, made of word characters and single
    spaces; its [first_name] is the first word of it and is not empty; and
    [full_name] is [first_name] alone when [last_name] is empty, and
    otherwise [first_name], a space and [last_name]. *)
Theorem u_name_email_names (name_text email : list N) (d : gmap string U.pyval) :
  U.create_contact_from_name_email name_text email = Ret (Some d) →
  ∃ full first last,
    d !! "full_name" = Some (U.PyStr full)
    ∧ d !! "first_name" = Some (U.PyStr first)
    ∧ d !! "last_name" = Some (U.PyStr last)
    ∧ d !! "email" = Some (U.PyStr email)
    ∧ full = U.Str.strip (U.Str.sub_spaces (U.Str.sub_nonword name_text))
    ∧ U.all_chars U.name_char full = true
    ∧ U.tidy full
    ∧ ((last = [] ∧ full = first) ∨ full = first ++ U.lit " " ++ last)
    ∧ first ≠ []
    ∧ U.all_chars (λ c, negb (U.is_space c)) first = true.
Proof.
  intros Hd.
  destruct (Z.ltb_spec (U.Str.len (U.clean_name name_text)) 2) as [Hlt|Hge].
  - rewrite (u_name_email_short name_text email Hlt) in Hd. discriminate Hd.
  - destruct (u_name_email_result name_text email (proj2 (Z.ltb_ge _ _) Hge))
      as (first & last & dv & Hrun & Hjoin & Hne & Hnb).
    rewrite Hrun in Hd. injection Hd as <-.
    destruct (u_contact_literal_lookup (U.clean_name name_text)
                first last email dv) as (H1 & H2 & H3 & H4 & _).
    exists (U.clean_name name_text), first, last.
    repeat (split; [eassumption || reflexivity|]).
    split; [apply u_cleaned_name_chars|].
    split; [apply u_strip_sub_spaces_tidy|].
    split; [|done]. destruct Hjoin as [[-> ->]|Hj]; [by left|by right].
Qed.

(** ** Source adapters and the whole conversion *)

Lemma u_extend_from_ok field cs :
  Forall U.extracted_ok cs →
  ∃ l, U.extend_from field cs = Ret l ∧ Forall U.extracted_ok l.
Proof.
  intros Hcs. unfold U.extend_from. destruct (U.Str.truthy field); [|by eauto].
  destruct (u_extract_returns (U.PyStr field)) as (l & -> & Hl).
  eexists. split; [done|]. by apply Forall_app.
Qed.

Lemma u_pst_rows_ok rows :
  ∀ cs,
    Forall U.extracted_ok cs →
    match U.pst_rows rows cs with
    | Ret l => Forall U.extracted_ok l
    | Raise _ => True
    end.
Proof.
  induction rows as [|row rows IH]; intros cs Hcs; [done|].
  cbn [U.pst_rows]. destruct (py_index row 0) as [sender|]; [|done].
  cbn [mbind outcome_bind].
  destruct (u_extend_from_ok sender cs Hcs) as (l1 & -> & Hl1).
  cbn [mbind outcome_bind]. destruct (py_index row 1) as [recipients|]; [|done].
  cbn [mbind outcome_bind].
  destruct (u_extend_from_ok recipients l1 Hl1) as (l2 & -> & Hl2).
  cbn [mbind outcome_bind]. by apply IH.
Qed.

Lemma u_excel_cells_ok row cols :
  ∀ cs,
    Forall U.extracted_ok cs →
    match U.excel_cells row cols cs with
    | Ret l => Forall U.extracted_ok l
    | Raise _ => True
    end.
Proof.
  induction cols as [|col cols IH]; intros cs Hcs; [done|].
  cbn [U.excel_cells]. destruct (row !! col) as [cell|]; [|done].
  cbn [mbind outcome_bind]. destruct (U.py_str cell) as [cell_value|]; [|done].
  cbn [mbind outcome_bind].
  destruct (_ && _); cbn [mbind outcome_bind]; [|by apply IH].
  destruct (u_extract_returns (U.PyStr cell_value)) as (l & -> & Hl).
  cbn [mbind outcome_bind]. apply IH. by apply Forall_app.
Qed.

Lemma u_excel_rows_ok rows cols :
  ∀ cs,
    Forall U.extracted_ok cs →
    match U.excel_rows rows cols cs with
    | Ret l => Forall U.extracted_ok l
    | Raise _ => True
    end.
Proof.
  induction rows as [|row rows IH]; intros cs Hcs; [done|].
  cbn [U.excel_rows]. pose proof (u_excel_cells_ok row cols cs Hcs) as Hc.
  destruct (U.excel_cells row cols cs) as [l|]; [|done].
  cbn [mbind outcome_bind]. by apply IH.
Qed.

Lemma u_contact_literal_set_email full first last e k (dv : U.pyval) :
  <["email" := U.PyStr k]> (U.contact_literal full first last e dv)
  = U.contact_literal full first last k dv.
Proof.
  unfold U.contact_literal.
  rewrite (insert_insert_ne _ "email" "domain") by done.
  by rewrite insert_insert_eq.
Qed.

Lemma u_extracted_email e full first last (dv : U.pyval) :
  U.py_get (U.contact_literal full first last e dv) "email" (U.PyStr [])
  = U.PyStr e.
Proof.
  unfold U.py_get.
  by destruct (u_contact_literal_lookup full first last e dv)
    as (_ & _ & _ & -> & _).
Qed.

Lemma u_extracted_email_is_str d : U.extracted_ok d → U.email_is_str d.
Proof.
  intros (full & first & last & e & -> & _). exists e.
  apply u_extracted_email.
Qed.

(** The contacts that the loop keeps have a key that is not empty. *)
Lemma u_first_seen_kept xs :
  ∀ earlier,
    Forall (λ y, ∃ d, d ∈ xs ∧ U.Str.truthy (U.Spec.key_of d) = true
                      ∧ y = <["email" := U.PyStr (U.Spec.key_of d)]> d)
           (U.Spec.first_seen earlier xs).
Proof.
  induction xs as [|c xs IH]; intros earlier; cbn [U.Spec.first_seen]; [done|].
  assert (Forall (λ y, ∃ d, d ∈ c :: xs ∧ U.Str.truthy (U.Spec.key_of d) = true
                            ∧ y = <["email" := U.PyStr (U.Spec.key_of d)]> d)
                 (U.Spec.first_seen (earlier ++ [U.Spec.key_of c]) xs)) as Hrest.
  { eapply Forall_impl; [apply IH|]. intros y (d & Hd & Ht & ->).
    exists d. split; [by right|done]. }
  destruct (U.Str.truthy (U.Spec.key_of c)) eqn:Ht; cbn [andb]; [|done].
  destruct (negb _); [|done].
  constructor; [|done]. exists c. split; [by left|done].
Qed.

Lemma u_normalize_output d :
  U.extracted_ok d → U.Str.truthy (U.Spec.key_of d) = true →
  U.output_contact (<["email" := U.PyStr (U.Spec.key_of d)]> d).
Proof.
  intros (full & first & last & e & -> & Hv & Hst & _).
  unfold U.Spec.key_of. rewrite u_extracted_email, Hst. intros Ht.
  rewrite u_contact_literal_set_email.
  by exists full, first, last, e.
Qed.

Lemma u_dedupe_output cs :
  Forall U.extracted_ok cs →
  ∃ unique,
    U.dedupe cs = Ret unique
    ∧ Forall U.output_contact unique
    ∧ NoDup (List.map (λ y : gmap string U.pyval, y !! "email") unique)
    ∧ (length unique ≤ length cs)%nat.
Proof.
  intros Hcs.
  assert (Forall U.email_is_str cs) as Hstr.
  { eapply Forall_impl; [exact Hcs|]. apply u_extracted_email_is_str. }
  exists (U.Spec.dedupe cs). split; [by apply u_dedupe_refines|].
  split; [|split].
  - eapply Forall_impl; [apply (u_first_seen_kept cs [])|].
    intros y (d & Hd & Ht & ->).
    apply u_normalize_output; [|done].
    by apply (proj1 (Forall_forall _ _) Hcs d).
  - unfold U.Spec.dedupe. rewrite u_first_seen_emails.
    apply (NoDup_fmap_2 (λ k, Some (U.PyStr k)) (Inj0:=u_email_value_inj)).
    apply u_kept_keys_NoDup.
  - apply u_first_seen_length.
Qed.

(** X16: the conversion of message rows never fails: whatever the rows
    hold, the loop of [process_pst_file] and the deduplication return a list
    of contacts; each has the five fields, as email the lower-case form, not
    empty, of a trimmed address that the validator accepts, and as domain
    the trimmed text after the [@] of that address; and no two of them have
    the same email. *)
Theorem u_convert_pst_rows (excel_data : list (list (list N))) :
  ∃ unique,
    U.convert (U.process_pst_rows excel_data) = Ret unique
    ∧ Forall U.output_contact unique
    ∧ NoDup (List.map (λ y : gmap string U.pyval, y !! "email") unique).
Proof.
  unfold U.convert, U.process_pst_rows.
  pose proof (u_pst_rows_ok (drop 1 excel_data) [] (Forall_nil_2 _)) as Hrows.
  destruct (U.pst_rows (drop 1 excel_data) []) as [cs|e]; cbn [try_except].
  - destruct (u_dedupe_output cs Hrows) as (u & Hu & Hok & Hnd & _).
    exists u. by rewrite <- Hu.
  - exists []. repeat split; constructor.
Qed.

(** X17: the same for a table: whatever its columns and cells, the loop of
    [process_excel_file] and the deduplication return a list of contacts
    with these properties. *)
Theorem u_convert_excel_rows (columns : list (list N))
    (rows : list (gmap (list N) U.pyval)) :
  ∃ unique,
    U.convert (U.process_excel_rows columns rows) = Ret unique
    ∧ Forall U.output_contact unique
    ∧ NoDup (List.map (λ y : gmap string U.pyval, y !! "email") unique).
Proof.
  unfold U.convert, U.process_excel_rows.
  pose proof (u_excel_rows_ok rows (U.contact_columns columns) []
                (Forall_nil_2 _)) as Hrows.
  destruct (U.excel_rows rows (U.contact_columns columns) []) as [cs|e];
    cbn [try_except].
  - destruct (u_dedupe_output cs Hrows) as (u & Hu & Hok & Hnd & _).
    exists u. by rewrite <- Hu.
  - exists []. repeat split; constructor.
Qed.

(** ** More on the extractor *)

Lemma u_scan_part_bare_eq part cs :
  U.Str.truthy part = true →
  U.Str.contains (U.lit "<") part && U.Str.contains (U.lit ">") part = false →
  U.scan_part part cs
  = (Ret tt,
     cs ++ (if U.Str.contains (U.lit "@") part && U.Str.contains (U.lit ".") part
            then
              if U.Spec.is_valid (U.Str.strip part) then
                match U.create_contact_from_email_only (U.Str.strip part) with
                | Ret (Some d) => [d]
                | _ => []
                end
              else []
            else [])).
Proof.
  intros Ht Hb. unfold U.scan_part. rewrite Ht, Hb. cbn [negb].
  destruct (U.Str.contains (U.lit "@") part && U.Str.contains (U.lit ".") part);
    [|by rewrite app_nil_r].
  unfold mbind, proc_bind, lift, mret, proc_ret. rewrite u_is_valid_email_str.
  destruct (U.Spec.is_valid (U.Str.strip part)); [|by rewrite app_nil_r].
  destruct (u_email_only_shape (U.Str.strip part))
    as (full & first & last & dv & _ & ->).
  apply u_append_if_truthy_literal, u_contact_literal_nonempty.
Qed.

Lemma u_scan_part_eq part cs :
  U.scan_part part cs = (Ret tt, cs ++ U.part_contacts part).
Proof.
  unfold U.part_contacts.
  destruct (U.Str.truthy part) eqn:Ht.
  2:{ unfold U.scan_part. rewrite Ht. cbn. by rewrite app_nil_r. }
  destruct (U.Str.contains (U.lit "<") part && U.Str.contains (U.lit ">") part)
    eqn:Hb.
  - apply andb_prop in Hb as [Hlt Hgt].
    by rewrite !u_scan_part_brackets_eq.
  - by rewrite !u_scan_part_bare_eq.
Qed.

Lemma u_part_contacts_ok part : Forall U.extracted_ok (U.part_contacts part).
Proof.
  destruct (u_scan_part_appends part []) as (new & Hrun & Hok).
  unfold U.part_contacts. by rewrite Hrun.
Qed.

Lemma u_concat_parts_ok parts :
  Forall U.extracted_ok (concat (List.map U.part_contacts parts)).
Proof.
  induction parts as [|p ps IH]; [done|].
  cbn [List.map concat]. apply Forall_app. split; [apply u_part_contacts_ok|done].
Qed.

Lemma u_for_each_scan_eq parts :
  ∀ cs,
    for_each parts U.scan_part cs
    = (Ret tt, cs ++ concat (List.map U.part_contacts parts)).
Proof.
  induction parts as [|part parts IH]; intros cs.
  - cbn. by rewrite app_nil_r.
  - cbn [for_each List.map concat]. unfold mbind, proc_bind.
    rewrite u_scan_part_eq, IH. by rewrite app_assoc.
Qed.

Lemma u_keep_contact_ok c : U.extracted_ok c → U.keep_contact c = Ret true.
Proof.
  intros (full & first & last & e & -> & Hv & _).
  unfold U.keep_contact, U.contact_truthy, U.py_getitem.
  destruct (u_contact_literal_lookup full first last e
              (U.PyStr (U.Str.strip (U.Spec.after (U.ch "@") e))))
    as (_ & _ & _ & He & _).
  rewrite bool_decide_eq_false_2 by apply u_contact_literal_nonempty.
  rewrite He, bool_decide_eq_true_2 by eauto. exact Hv.
Qed.

Lemma u_filter_contacts_id cs :
  Forall U.extracted_ok cs → U.filter_contacts cs = Ret cs.
Proof.
  induction 1 as [|c cs Hc _ IH]; [done|].
  cbn [U.filter_contacts]. by rewrite (u_keep_contact_ok c Hc), IH.
Qed.

Lemma u_lstrip_idem s : U.Str.lstrip (U.Str.lstrip s) = U.Str.lstrip s.
Proof. apply u_lstrip_id, u_lstrip_no_lead. Qed.

Lemma u_lstrip_rstrip s :
  U.Str.lstrip (U.Str.rstrip s) = U.Str.rstrip (U.Str.lstrip s).
Proof.
  induction s as [|c r IH]; [done|]. cbn [U.Str.lstrip U.Str.rstrip].
  destruct (U.is_space c) eqn:Ec; cbn [andb].
  - destruct (U.Str.truthy (U.Str.rstrip r)) eqn:Et; cbn [negb].
    + cbn [U.Str.lstrip]. by rewrite Ec.
    + apply u_truthy_false in Et. rewrite <- IH, Et. done.
  - cbn [U.Str.lstrip U.Str.rstrip]. by rewrite Ec.
Qed.

Lemma u_strip_lstrip s : U.Str.strip (U.Str.lstrip s) = U.Str.strip s.
Proof. unfold U.Str.strip. by rewrite u_lstrip_idem. Qed.

Lemma u_strip_rstrip s : U.Str.strip (U.Str.rstrip s) = U.Str.strip s.
Proof. unfold U.Str.strip. by rewrite u_lstrip_rstrip, u_rstrip_idem. Qed.

Lemma u_split_lstrip c s :
  U.is_space c = false →
  U.Str.split c (U.Str.lstrip s) = map_head U.Str.lstrip (U.Str.split c s).
Proof.
  intros Hc. induction s as [|a r IH]; [done|].
  cbn [U.Str.lstrip U.Str.split].
  destruct (N.eqb_spec a c) as [->|Hne].
  - rewrite Hc. cbn [U.Str.split]. by rewrite N.eqb_refl.
  - destruct (u_split_nonempty c r) as (h & t & E). rewrite E in *.
    destruct (U.is_space a) eqn:Ea.
    + rewrite IH. cbn [map_head U.Str.lstrip]. by rewrite Ea.
    + cbn [U.Str.split map_head U.Str.lstrip].
      rewrite (proj2 (N.eqb_neq a c) Hne), E, Ea. done.
Qed.

Lemma u_map_last_cons {A} (f : A → A) x y r :
  map_last f (x :: y :: r) = x :: map_last f (y :: r).
Proof. reflexivity. Qed.

Lemma u_split_rstrip c s :
  U.is_space c = false →
  U.Str.split c (U.Str.rstrip s) = map_last U.Str.rstrip (U.Str.split c s).
Proof.
  intros Hc. induction s as [|a r IH]; [done|].
  cbn [U.Str.rstrip U.Str.split].
  destruct (u_split_nonempty c r) as (h & t & E).
  destruct (N.eqb_spec a c) as [->|Hne].
  - rewrite Hc. cbn [andb U.Str.split]. rewrite N.eqb_refl, IH, E.
    by rewrite u_map_last_cons.
  - rewrite E in *.
    destruct (U.is_space a && negb (U.Str.truthy (U.Str.rstrip r))) eqn:Eb.
    + apply andb_prop in Eb as [Ea Er].
      apply negb_true_iff, u_truthy_false in Er.
      rewrite Er in IH. cbn [U.Str.split] in IH |- *.
      destruct t as [|y t];
        [|rewrite u_map_last_cons in IH; injection IH as _ IH; by destruct t].
      cbn [map_last] in IH |- *. injection IH as IH.
      cbn [U.Str.rstrip]. by rewrite Ea, <- IH.
    + cbn [U.Str.split]. rewrite (proj2 (N.eqb_neq a c) Hne), IH.
      destruct t as [|y t].
      * cbn [map_last U.Str.rstrip].
        apply u_split_single_inv in E. subst h. by rewrite Eb.
      * by rewrite !u_map_last_cons.
Qed.

Lemma u_map_strip_head l :
  List.map U.Str.strip (map_head U.Str.lstrip l) = List.map U.Str.strip l.
Proof. destruct l as [|x r]; [done|]. cbn. by rewrite u_strip_lstrip. Qed.

Lemma u_map_strip_last l :
  List.map U.Str.strip (map_last U.Str.rstrip l) = List.map U.Str.strip l.
Proof.
  induction l as [|x [|y r] IH]; [done| |].
  - cbn. by rewrite u_strip_rstrip.
  - rewrite u_map_last_cons. cbn [List.map]. by rewrite IH.
Qed.

Lemma u_split_strip c s :
  U.is_space c = false →
  List.map U.Str.strip (U.Str.split c (U.Str.strip s))
  = List.map U.Str.strip (U.Str.split c s).
Proof.
  intros Hc. unfold U.Str.strip.
  by rewrite u_split_rstrip, u_map_strip_last, u_split_lstrip, u_map_strip_head.
Qed.

(** The extractor on a value that [str] turns into [s]. *)
Lemma u_extract_eq v s :
  U.py_str v = Ret s →
  U.extract_multiple_contacts v
  = Ret (concat (List.map U.part_contacts
                   (List.map U.Str.strip (U.Str.split (U.ch ",") s)))).
Proof.
  intros Hv. rewrite <- (u_split_strip (U.ch ",") s) by done.
  unfold U.extract_multiple_contacts, U.extract_body, mbind, proc_bind, lift.
  rewrite Hv.
  destruct (U.Str.truthy (U.Str.strip s)) eqn:Ht; cbn [negb orb].
  2:{ apply u_truthy_false in Ht. by rewrite Ht. }
  destruct (decide (U.Str.strip s = U.lit "nan")) as [->|Hnan]; [done|].
  destruct (decide (U.Str.strip s = U.lit "None")) as [->|Hnone]; [done|].
  rewrite !bool_decide_eq_false_2 by done.
  cbn [orb]. rewrite u_for_each_scan_eq. cbn [app]. unfold get.
  by rewrite u_filter_contacts_id by apply u_concat_parts_ok.
Qed.

(** ** Recipients: formatting and extraction *)

Lemma u_rstrip_snoc a c :
  U.is_space c = false → U.Str.rstrip (a ++ [c]) = a ++ [c].
Proof.
  intros Hc. induction a as [|x a IH].
  - cbn. by rewrite Hc.
  - cbn [app U.Str.rstrip]. rewrite IH.
    destruct a; cbn [app U.Str.truthy negb]; by rewrite andb_false_r.
Qed.

Lemma u_rstrip_space a : U.Str.rstrip (a ++ U.lit " ") = U.Str.rstrip a.
Proof.
  induction a as [|x a IH]; [done|].
  cbn [app U.Str.rstrip]. by rewrite IH.
Qed.

Lemma u_no_lead_app a b : a ≠ [] → U.no_lead a → U.no_lead (a ++ b).
Proof. by destruct a. Qed.

Lemma u_strip_fixed_parts s :
  U.Str.strip s = s → U.no_lead s ∧ U.Str.rstrip s = s.
Proof.
  intros Hs. split.
  - rewrite <- Hs. apply u_rstrip_no_lead, u_lstrip_no_lead.
  - rewrite <- Hs at 1. unfold U.Str.strip. by rewrite u_rstrip_idem.
Qed.

Lemma u_strip_name_space name :
  U.Str.strip name = name → name ≠ [] →
  U.Str.strip (name ++ U.lit " ") = name.
Proof.
  intros Hs Hne. destruct (u_strip_fixed_parts name Hs) as [Hlead Hr].
  unfold U.Str.strip.
  rewrite (u_lstrip_id (name ++ U.lit " ")) by (by apply u_no_lead_app).
  by rewrite u_rstrip_space.
Qed.

Lemma u_strip_formatted name email :
  U.Str.strip name = name → name ≠ [] →
  U.Str.strip (name ++ U.lit " <" ++ email ++ U.lit ">")
  = name ++ U.lit " <" ++ email ++ U.lit ">".
Proof.
  intros Hs Hne. destruct (u_strip_fixed_parts name Hs) as [Hlead _].
  unfold U.Str.strip.
  rewrite u_lstrip_id by (by apply u_no_lead_app).
  replace (name ++ U.lit " <" ++ email ++ U.lit ">")
    with ((name ++ U.lit " <" ++ email) ++ [U.ch ">"])
    by (by rewrite <- !app_assoc).
  by apply u_rstrip_snoc.
Qed.

(** A part with an opening bracket and, after it, the first closing
    bracket of the part. *)
Lemma u_scan_part_open_close pre mid post cs :
  U.Str.contains [U.ch "<"] pre = false →
  U.Str.contains [U.ch ">"] pre = false →
  U.Str.contains [U.ch ">"] mid = false →
  U.scan_part (pre ++ U.ch "<" :: mid ++ U.ch ">" :: post) cs
  = (Ret tt, cs ++ U.Spec.built_from (U.Str.strip pre) (U.Str.strip mid)).
Proof.
  intros Hlt Hgt Hmid.
  set (part := pre ++ U.ch "<" :: mid ++ U.ch ">" :: post).
  assert (U.Str.contains [U.ch "<"] part = true) as Hin_lt.
  { unfold part. rewrite u_contains_char_app, u_contains_char_cons, N.eqb_refl.
    by rewrite orb_true_r. }
  assert (U.Str.find (U.ch "<") part = U.Str.len pre) as Hstart
    by apply (u_find_app_sep (U.ch "<") pre _ Hlt).
  assert (part = (pre ++ U.ch "<" :: mid) ++ U.ch ">" :: post) as Hsplit
    by (unfold part; by rewrite <- app_assoc).
  assert (U.Str.contains [U.ch ">"] (pre ++ U.ch "<" :: mid) = false) as Hno_gt.
  { rewrite u_contains_char_app, Hgt, u_contains_char_cons. by rewrite Hmid. }
  assert (U.Str.contains [U.ch ">"] part = true) as Hin_gt.
  { rewrite Hsplit, u_contains_char_app, u_contains_char_cons, N.eqb_refl.
    by rewrite orb_true_r. }
  assert (U.Str.find (U.ch ">") part
          = (U.Str.len (pre ++ [U.ch "<"]) + U.Str.len mid)%Z) as Hend.
  { rewrite Hsplit, (u_find_app_sep (U.ch ">") _ _ Hno_gt).
    by rewrite <- u_len_app, <- app_assoc. }
  rewrite u_scan_part_brackets_eq;
    [|by eapply (u_contains_char_truthy (U.ch "<"))|done|done].
  rewrite Hend, Hstart. unfold part at 1. rewrite u_slice_to_prefix.
  replace (U.Str.len pre + 1)%Z with (U.Str.len (pre ++ [U.ch "<"]))
    by (by rewrite u_len_app).
  replace part with ((pre ++ [U.ch "<"]) ++ mid ++ U.ch ">" :: post)
    by (unfold part; by rewrite <- app_assoc).
  by rewrite u_slice_middle.
Qed.

Lemma u_plain_recipient_nonempty r name email :
  U.plain_recipient r name email →
  name ≠ [] ∧ U.Str.truthy name = true ∧ U.Str.truthy email = true.
Proof.
  intros (_ & _ & _ & _ & _ & _ & Hlen & He & _ & _ & Hv).
  assert (name ≠ []) as Hne by (intros ->; vm_compute in Hlen; by apply Hlen).
  split; [done|]. split; [by destruct name|].
  rewrite u_is_valid_email_str in Hv. injection Hv as Hv.
  destruct (u_is_valid_parts email Hv He) as (_ & _ & _ & Ht & _). exact Ht.
Qed.

Lemma u_plain_recipient_string r name email :
  U.plain_recipient r name email →
  U.recipient_string r = Some (name ++ U.lit " <" ++ email ++ U.lit ">").
Proof.
  intros Hp.
  destruct (u_plain_recipient_nonempty r name email Hp) as (_ & Hn & He).
  destruct Hp as (Hgn & Hge & _). unfold U.recipient_string.
  by rewrite Hgn, Hge; cbn [U.or_empty]; rewrite Hn, He.
Qed.

Lemma u_plain_recipient_contact r name email :
  U.plain_recipient r name email →
  ∃ d, U.part_contacts (name ++ U.lit " <" ++ email ++ U.lit ">") = [d]
       ∧ d !! "email" = Some (U.PyStr email)
       ∧ d !! "full_name" = Some (U.PyStr (U.clean_name name)).
Proof.
  intros Hp.
  destruct (u_plain_recipient_nonempty r name email Hp) as (Hne & Hn & He).
  destruct Hp as (_ & _ & Hsn & _ & Hlt & Hgt & Hlen & Hse & _ & Hge & Hv).
  change (U.lit "<") with [U.ch "<"] in Hlt.
  change (U.lit ">") with [U.ch ">"] in Hgt, Hge.
  destruct (u_name_email_result name email (proj2 (Z.ltb_ge _ _) Hlen))
    as (first & last & dv & Hrun & _).
  destruct (u_contact_literal_lookup (U.clean_name name) first last email dv)
    as (Hfull & _ & _ & Hemail & _).
  eexists. split; [|split; [exact Hemail|exact Hfull]].
  unfold U.part_contacts.
  replace (name ++ U.lit " <" ++ email ++ U.lit ">")
    with ((name ++ U.lit " ") ++ U.ch "<" :: email ++ U.ch ">" :: [])
    by (by rewrite <- !app_assoc).
  rewrite u_scan_part_open_close;
    [|by rewrite u_contains_char_app, Hlt
     |by rewrite u_contains_char_app, Hgt|done].
  cbn [snd app]. rewrite (u_strip_name_space name Hsn Hne), Hse.
  unfold U.Spec.built_from. by rewrite Hn, He, Hv, Hrun.
Qed.

Lemma u_plain_recipient_text r name email :
  U.plain_recipient r name email →
  U.Str.strip (name ++ U.lit " <" ++ email ++ U.lit ">")
  = name ++ U.lit " <" ++ email ++ U.lit ">"
  ∧ U.Str.contains [U.ch ","] (name ++ U.lit " <" ++ email ++ U.lit ">") = false
  ∧ U.Str.truthy (name ++ U.lit " <" ++ email ++ U.lit ">") = true.
Proof.
  intros Hp.
  destruct (u_plain_recipient_nonempty r name email Hp) as (Hne & Hn & He).
  destruct Hp as (_ & _ & Hsn & Hcn & _ & _ & _ & _ & Hce & _).
  split; [by apply u_strip_formatted|]. split.
  - change (U.lit ",") with [U.ch ","] in *.
    by rewrite !u_contains_char_app, Hcn, Hce.
  - by destruct name.
Qed.

Lemma u_split_joined (xs : list (list N)) :
  Forall (λ x, U.Str.strip x = x ∧ U.Str.contains [U.ch ","] x = false) xs →
  concat (List.map U.part_contacts
            (List.map U.Str.strip
               (U.Str.split (U.ch ",") (U.Str.join (U.lit ", ") xs))))
  = concat (List.map U.part_contacts xs).
Proof.
  induction 1 as [|x xs [Hs Hc] Hxs IH]; [done|].
  destruct xs as [|y r].
  - cbn [U.Str.join]. rewrite (u_split_no_sep _ _ Hc). cbn [List.map].
    by rewrite Hs.
  - rewrite u_join_cons2.
    change (U.lit ", " ++ U.Str.join (U.lit ", ") (y :: r))
      with (U.ch "," :: U.ch " " :: U.Str.join (U.lit ", ") (y :: r)).
    rewrite u_split_app, (u_split_no_sep _ _ Hc), map_app, map_app, concat_app.
    change (concat (List.map U.part_contacts (x :: y :: r)))
      with (U.part_contacts x ++ concat (List.map U.part_contacts (y :: r))).
    change (concat (List.map U.part_contacts (List.map U.Str.strip [x])))
      with (U.part_contacts (U.Str.strip x) ++ []).
    rewrite Hs, app_nil_r. f_equal.
    rewrite <- IH, <- (u_split_strip (U.ch ",") (U.ch " " :: _)) by done.
    rewrite <- (u_split_strip (U.ch ",") (U.Str.join (U.lit ", ") (y :: r)))
      by done.
    done.
Qed.

(** X20: the recipients of a message survive the formatting: for
    recipients with a plain display name and an accepted address,
    extracting the string that [get_recipients_list] builds gives one
    contact for each recipient, in their order, with the recipient's
    address as [email] and the cleaned display name as [full_name]. *)
Theorem u_recipients_round_trip (rs : list U.recipient)
    (nes : list (list N * list N)) :
  Forall2 (λ r ne, U.plain_recipient r ne.1 ne.2) rs nes →
  ∃ l,
    U.extract_multiple_contacts (U.PyStr (U.get_recipients_list rs)) = Ret l
    ∧ Forall2 (λ (ne : list N * list N) (d : gmap string U.pyval),
         d !! "email" = Some (U.PyStr ne.2)
         ∧ d !! "full_name"
           = Some (U.PyStr (U.Str.strip
                              (U.Str.sub_spaces (U.Str.sub_nonword ne.1)))))
        nes l.
Proof.
  intros Hrs. eexists. split; [by apply u_extract_eq|].
  assert (List.filter U.Str.truthy (omap U.recipient_string rs)
          = List.map (λ ne : list N * list N,
                        ne.1 ++ U.lit " <" ++ ne.2 ++ U.lit ">") nes)
    as Hfmt.
  { induction Hrs as [|r [name email] rs nes Hp _ IH]; [done|].
    cbn [omap list_omap]. rewrite (u_plain_recipient_string r name email Hp).
    cbn [List.filter List.map]. cbn [fst snd] in *.
    destruct (u_plain_recipient_text r name email Hp) as (_ & _ & ->).
    by rewrite <- IH. }
  unfold U.get_recipients_list. rewrite Hfmt, u_split_joined.
  - clear Hfmt. induction Hrs as [|r [name email] rs nes Hp _ IH];
      [constructor|].
    cbn [List.map concat]. cbn [fst snd] in *.
    destruct (u_plain_recipient_contact r name email Hp) as (d & -> & He & Hf).
    cbn [app]. by constructor.
  - clear Hfmt. induction Hrs as [|r [name email] rs nes Hp _ IH];
      [constructor|].
    cbn [List.map]. constructor; [|done]. cbn [fst snd].
    by destruct (u_plain_recipient_text r name email Hp) as (? & ? & _).
Qed.

End unicode.

(** * Examples, with the tables of the ASCII range *)

Section examples.

#[local] Existing Instance U.ascii_tables.

Lemma u_sample_contacts_ok : Forall U.email_is_str [U.alice_upper; U.alice_lower].
Proof. repeat constructor; eexists; reflexivity. Qed.

Lemma u_dedupe_first_seen_wins_witness :
  Forall U.email_is_str [U.alice_upper; U.alice_lower]
  ∧ U.dedupe [U.alice_upper; U.alice_lower] = Ret [U.alice_kept].
Proof.
  split; [exact u_sample_contacts_ok|].
  rewrite (u_dedupe_first_seen_wins _ u_sample_contacts_ok).
  vm_compute. reflexivity.
Defined.

Lemma u_dedupe_emails_covered_witness :
  Forall U.email_is_str [U.alice_upper; U.alice_lower]
  ∧ ∃ ys,
      U.dedupe [U.alice_upper; U.alice_lower] = Ret ys
      ∧ ∀ k, Some (U.PyStr k)
               ∈ List.map (λ y : gmap string U.pyval, y !! "email") ys
             ↔ k ≠ [] ∧ k ∈ List.map U.Spec.key_of [U.alice_upper; U.alice_lower].
Proof.
  split; [exact u_sample_contacts_ok|].
  exact (u_dedupe_emails_covered _ u_sample_contacts_ok).
Defined.

Lemma u_dedupe_leaves_input_witness :
  ∃ h' unique us,
    U.Store.run 3 U.sample_store 2 = Some (Ret (h', unique))
    ∧ (∀ l o, U.sample_store !! l = Some o → h' !! l = Some o)
    ∧ h' !! unique = Some (U.Store.OList us)
    ∧ NoDup (unique :: us)
    ∧ Forall (λ l, (length U.sample_store ≤ l)%nat) (unique :: us)
    ∧ Forall2 (λ l y, h' !! l = Some (U.Store.ODict y)) us
        (U.Spec.dedupe [U.alice_upper; U.alice_lower])
    ∧ Forall (λ y, ∃ d, d ∈ [U.alice_upper; U.alice_lower]
                        ∧ y = <["email" := U.PyStr (U.Spec.key_of d)]> d)
             (U.Spec.dedupe [U.alice_upper; U.alice_lower]).
Proof.
  apply (u_dedupe_leaves_input U.sample_store 2 [0; 1]%nat
           [U.alice_upper; U.alice_lower] 3).
  - reflexivity.
  - repeat constructor.
  - exact u_sample_contacts_ok.
  - cbn [length]. lia.
Defined.

Lemma u_email_only_names_witness :
  (∃ domain,
     U.create_contact_from_email_only (U.lit "bob" ++ U.lit "@" ++ U.lit "y.com")
     = Ret (Some (U.contact_literal (U.lit "Bob") (U.lit "Bob") []
                    (U.lit "bob@y.com") domain)))
  ∧ (∃ domain,
       U.create_contact_from_email_only
         ((U.lit "first" ++ U.lit "." ++ U.lit "middle" ++ U.lit ".last")
          ++ U.lit "@" ++ U.lit "x.com")
       = Ret (Some (U.contact_literal (U.lit "First.middle.last")
                      (U.lit "First") (U.lit "Middle")
                      (U.lit "first.middle.last@x.com") domain))).
Proof.
  split.
  - exact (proj1 u_email_only_names (U.lit "bob") (U.lit "y.com")
             eq_refl eq_refl).
  - exact (proj2 u_email_only_names (U.lit "first") (U.lit "middle")
             (U.lit ".last") (U.lit "x.com") eq_refl eq_refl eq_refl
             (or_intror (ex_intro _ (U.lit "last") eq_refl))).
Defined.

Lemma u_scan_part_brackets_witness :
  U.scan_part (U.lit "Jane Doe " ++ U.lit "<" ++ U.lit "jane@x.com"
               ++ U.lit ">" ++ []) []
  = (Ret tt, [U.contact_literal (U.lit "Jane Doe") (U.lit "Jane") (U.lit "Doe")
                (U.lit "jane@x.com") (U.PyStr (U.lit "x.com"))])
  ∧ U.scan_part (U.lit "ab" ++ U.lit ">" ++ U.lit " <b@c.com>") [] = (Ret tt, []).
Proof.
  split.
  - rewrite (proj1 u_scan_part_brackets (U.lit "Jane Doe ") (U.lit "jane@x.com")
               [] [] eq_refl eq_refl eq_refl).
    vm_compute. reflexivity.
  - exact (proj2 u_scan_part_brackets (U.lit "ab") (U.lit " <b@c.com>") []
             eq_refl eq_refl eq_refl).
Defined.

Lemma u_extract_domain_cases_witness :
  U.extract_domain_from_email (U.lit "no-address") = Ret U.PyNone
  ∧ U.extract_domain_from_email
      (U.lit "a" ++ U.lit "@" ++ U.lit " b.c " ++ U.lit "@d")
    = Ret (U.PyStr (U.lit "b.c")).
Proof.
  split.
  - exact (proj1 u_extract_domain_cases (U.lit "no-address") eq_refl).
  - exact (proj2 u_extract_domain_cases (U.lit "a") (U.lit " b.c ") (U.lit "@d")
             eq_refl eq_refl (or_intror (ex_intro _ (U.lit "d") eq_refl))).
Defined.

Lemma u_name_email_fails_iff_witness :
  U.create_contact_from_name_email (U.lit "X") (U.lit "x@y.com") = Ret None.
Proof.
  apply (proj2 (u_name_email_fails_iff (U.lit "X") (U.lit "x@y.com"))).
  vm_compute. reflexivity.
Defined.

Lemma u_name_email_names_witness :
  ∃ full first last,
    U.contact_literal (U.lit "Jane van Doe") (U.lit "Jane") (U.lit "van Doe")
      (U.lit "j@x.com") (U.PyStr (U.lit "x.com")) !! "full_name"
    = Some (U.PyStr full)
    ∧ U.contact_literal (U.lit "Jane van Doe") (U.lit "Jane") (U.lit "van Doe")
        (U.lit "j@x.com") (U.PyStr (U.lit "x.com")) !! "first_name"
      = Some (U.PyStr first)
    ∧ U.contact_literal (U.lit "Jane van Doe") (U.lit "Jane") (U.lit "van Doe")
        (U.lit "j@x.com") (U.PyStr (U.lit "x.com")) !! "last_name"
      = Some (U.PyStr last)
    ∧ U.contact_literal (U.lit "Jane van Doe") (U.lit "Jane") (U.lit "van Doe")
        (U.lit "j@x.com") (U.PyStr (U.lit "x.com")) !! "email"
      = Some (U.PyStr (U.lit "j@x.com"))
    ∧ full = U.Str.strip
               (U.Str.sub_spaces (U.Str.sub_nonword (U.lit "  Jane, van   Doe! ")))
    ∧ U.all_chars U.name_char full = true
    ∧ U.tidy full
    ∧ ((last = [] ∧ full = first) ∨ full = first ++ U.lit " " ++ last)
    ∧ first ≠ []
    ∧ U.all_chars (λ c, negb (U.is_space c)) first = true.
Proof.
  apply (u_name_email_names (U.lit "  Jane, van   Doe! ") (U.lit "j@x.com")).
  vm_compute. reflexivity.
Defined.

Lemma u_sample_recipients_plain :
  Forall2 (λ r ne, U.plain_recipient r ne.1 ne.2) [U.jane; U.bob]
          [(U.lit "Jane Doe", U.lit "jane@x.com");
           (U.lit "Bob Ray", U.lit "bob@y.org")].
Proof.
  repeat constructor; cbn [fst snd]; try reflexivity; vm_compute; discriminate.
Qed.

Lemma u_recipients_round_trip_witness :
  ∃ l,
    U.extract_multiple_contacts (U.PyStr (U.get_recipients_list [U.jane; U.bob]))
    = Ret l
    ∧ Forall2 (λ (ne : list N * list N) (d : gmap string U.pyval),
         d !! "email" = Some (U.PyStr ne.2)
         ∧ d !! "full_name"
           = Some (U.PyStr (U.Str.strip
                              (U.Str.sub_spaces (U.Str.sub_nonword ne.1)))))
        [(U.lit "Jane Doe", U.lit "jane@x.com");
         (U.lit "Bob Ray", U.lit "bob@y.org")] l.
Proof. exact (u_recipients_round_trip _ _ u_sample_recipients_plain). Defined.

End examples.
